(** * Hail expression algebra: lineage, type unification, materialisation
      and matrix IR rendering

    A shallow embedding of
    - [python/hail/expr/expressions/base_expression.py]
      ([Indices], [impute_type], [to_expr], [unify_all],
      [unify_types_limited], [unify_types], [Expression] and its builders,
      [Expression._to_table]) and
    - [python/hail/ir/matrix_ir.py] (the [render] methods of the matrix IR
      nodes),
    followed by the properties of these functions.

    Python exceptions are values of [exn]; a function that may raise returns
    a [result].  A Python [set] of axis labels is a [gset string]; the
    persistent [LinkedList] is a [list] whose head is the most recently
    pushed element. *)

From Stdlib Require Import ZArith Lia Ascii.
From stdpp Require Import base strings list gmap sets pretty.

Set Default Proof Using "Type".
Set Warnings "-register-all,-clear-no-such-hyp".
Local Open Scope string_scope.
Local Open Scope list_scope.
Local Open Scope Z_scope.

(** ** Hail types ([hail.expr.types]) *)

(** The tagged variant of value types that [impute_type] and the unification
    functions construct and compare.  Types are compared structurally. *)
Inductive HailType : Type :=
| tbool
| tint32
| tint64
| tfloat32
| tfloat64
| tstr
| tcall
| tlocus (reference_genome : string)
| tinterval (point_type : HailType)
| tarray (element_type : HailType)
| tset (element_type : HailType)
| tdict (key_type value_type : HailType)
| tstruct (fields : list (string * HailType))
| ttuple (types : list HailType).

(** Structural equality of types, the [==] of [HailType]. *)
Fixpoint HailType_eqb (a b : HailType) {struct a} : bool :=
  match a, b with
  | tbool, tbool | tint32, tint32 | tint64, tint64
  | tfloat32, tfloat32 | tfloat64, tfloat64 | tstr, tstr | tcall, tcall => true
  | tlocus r, tlocus r' => bool_decide (r = r')
  | tinterval x, tinterval y => HailType_eqb x y
  | tarray x, tarray y => HailType_eqb x y
  | tset x, tset y => HailType_eqb x y
  | tdict k v, tdict k' v' => HailType_eqb k k' && HailType_eqb v v'
  | tstruct fs, tstruct gs =>
      (fix go (fs gs : list (string * HailType)) : bool :=
         match fs, gs with
         | [], [] => true
         | (n, t) :: fs', (m, u) :: gs' =>
             bool_decide (n = m) && HailType_eqb t u && go fs' gs'
         | _, _ => false
         end) fs gs
  | ttuple ts, ttuple us =>
      (fix go (ts us : list HailType) : bool :=
         match ts, us with
         | [], [] => true
         | t :: ts', u :: us' => HailType_eqb t u && go ts' us'
         | _, _ => false
         end) ts us
  | _, _ => false
  end.

Section HailType_induction.
Variable P : HailType → Prop.
Hypothesis Hbool : P tbool.
Hypothesis Hint32 : P tint32.
Hypothesis Hint64 : P tint64.
Hypothesis Hfloat32 : P tfloat32.
Hypothesis Hfloat64 : P tfloat64.
Hypothesis Hstr : P tstr.
Hypothesis Hcall : P tcall.
Hypothesis Hlocus : ∀ r, P (tlocus r).
Hypothesis Hinterval : ∀ t, P t → P (tinterval t).
Hypothesis Harray : ∀ t, P t → P (tarray t).
Hypothesis Hset : ∀ t, P t → P (tset t).
Hypothesis Hdict : ∀ k v, P k → P v → P (tdict k v).
Hypothesis Hstruct : ∀ fs, Forall (λ f, P f.2) fs → P (tstruct fs).
Hypothesis Htuple : ∀ ts, Forall P ts → P (ttuple ts).

Fixpoint HailType_nested_ind (t : HailType) : P t :=
  match t with
  | tbool => Hbool
  | tint32 => Hint32
  | tint64 => Hint64
  | tfloat32 => Hfloat32
  | tfloat64 => Hfloat64
  | tstr => Hstr
  | tcall => Hcall
  | tlocus r => Hlocus r
  | tinterval x => Hinterval x (HailType_nested_ind x)
  | tarray x => Harray x (HailType_nested_ind x)
  | tset x => Hset x (HailType_nested_ind x)
  | tdict k v => Hdict k v (HailType_nested_ind k) (HailType_nested_ind v)
  | tstruct fs =>
      Hstruct fs
        ((fix go (fs : list (string * HailType)) : Forall (λ f, P f.2) fs :=
            match fs with
            | [] => List.Forall_nil _
            | f :: fs' => List.Forall_cons _ f fs' (HailType_nested_ind f.2) (go fs')
            end) fs)
  | ttuple ts =>
      Htuple ts
        ((fix go (ts : list HailType) : Forall P ts :=
            match ts with
            | [] => List.Forall_nil _
            | x :: ts' => List.Forall_cons _ x ts' (HailType_nested_ind x) (go ts')
            end) ts)
  end.
End HailType_induction.

Lemma HailType_eqb_eq (a b : HailType) : HailType_eqb a b = true ↔ a = b.
Proof.
  revert b. induction a using HailType_nested_ind; intros b;
    destruct b; simpl; try (split; [done | congruence]); try done.
  - rewrite bool_decide_eq_true. split; congruence.
  - rewrite IHa. split; congruence.
  - rewrite IHa. split; congruence.
  - rewrite IHa. split; congruence.
  - rewrite andb_true_iff, IHa1, IHa2. split; [intros [-> ->]; done | intros [= -> ->]; done].
  - rename fields into gs. revert gs. induction H as [|[n t] fs Ht _ IH]; intros [|[m u] gs];
      try (split; [done | congruence]); try done.
    rewrite !andb_true_iff, bool_decide_eq_true. simpl in Ht. rewrite Ht.
    specialize (IH gs). rewrite IH.
    split; [intros [[-> ->] [= ->]]; done | intros [= -> -> ->]; done].
  - rename types into us. revert us. induction H as [|t ts Ht _ IH]; intros [|u us];
      try (split; [done | congruence]); try done.
    rewrite !andb_true_iff. rewrite Ht. specialize (IH us). rewrite IH.
    split; [intros [-> [= ->]]; done | intros [= -> ->]; done].
Qed.

#[global] Instance HailType_eq_dec : EqDecision HailType.
Proof.
  intros a b. destruct (HailType_eqb a b) eqn:E.
  - left. by apply HailType_eqb_eq.
  - right. intros H. apply HailType_eqb_eq in H. congruence.
Defined.

(** ** Exceptions and results *)

(** The identity of a source object (a table or a matrix table).  The code
    compares sources with [is] in [Indices], and with [!=] and as dictionary
    keys in [_verify_sources]; source objects are compared by identity in
    each, so here all three are equality of identities. *)
Abbreviation Source := positive.

(** What an [ExpressionException] reports. *)
Inductive ExpressionExceptionMsg : Type :=
| SourceMismatch
    (* [raise ExpressionException()] of [Indices.unify] *)
| CannotCombine (sources : list (option Source * list string))
    (* "Cannot combine expressions from different source objects." with the
       number of entries of [sources] and one line for each *)
| AggregableInExpression
| EmptyList
| EmptySet
| EmptyDict
| HeterogeneousList (ts : list HailType)
| HeterogeneousSet (ts : list HailType)
| HeterogeneousDictKeys (kts : list HailType)
| HeterogeneousDictValues (vts : list HailType)
| ImputeNone
| CannotImpute (type_name : string).

(** Which of the two checks of [Expression._verify_sources] failed. *)
Inductive FatalErrorMsg : Type :=
| TooManySources (sources : list (option Source * list string))
| IncompatibleSources (sources : list (option Source * list string)).

(** The exception classes raised in the two files. *)
Inductive exn : Type :=
| ExpressionException (msg : ExpressionExceptionMsg)
| FatalError (msg : FatalErrorMsg)
| NotImplementedError (msg : string)
| TypeError (msg : string)
| ValueError (x : Z)
| AssertionError.

(** The outcome of a call: a returned value or a raised exception. *)
Inductive result (A : Type) : Type :=
| Ok (a : A)
| Raise (e : exn).
Arguments Ok {A} a.
Arguments Raise {A} e.

Definition bind {A B : Type} (m : result A) (k : A → result B) : result B :=
  match m with
  | Ok a => k a
  | Raise e => Raise e
  end.

Notation "'let*' x ':=' m 'in' k" := (bind m (λ x, k))
  (at level 10, x pattern, m at level 100, k at level 200).

(** A comprehension [f(x) for x in l]: the first exception ends it. *)
Definition mapM {A B : Type} (f : A → result B) : list A → result (list B) :=
  fix go (l : list A) : result (list B) :=
    match l with
    | [] => Ok []
    | x :: l' => let* y := f x in let* ys := go l' in Ok (y :: ys)
    end.

(** [isinstance(exc, FatalError)]. *)
Definition is_fatal {A : Type} (r : result A) : bool :=
  match r with
  | Raise (FatalError _) => true
  | _ => false
  end.

(** ** Type unification *)

(** Modelled from the spec: [is_numeric] of [hail.expr.types], which is not
    part of the two files; the numeric types are int32, int64, float32 and
    float64. *)
Definition is_numeric (t : HailType) : bool :=
  match t with
  | tint32 | tint64 | tfloat32 | tfloat64 => true
  | _ => false
  end.

(** [t in type_set]. *)
Definition type_in (t : HailType) (type_set : list HailType) : bool :=
  bool_decide (t ∈ type_set).

(** [a == b] for two sets of types held as duplicate-free lists. *)
Definition type_set_eq (a b : list HailType) : bool :=
  forallb (λ t, type_in t b) a && forallb (λ t, type_in t a) b.

(** [unify_types_limited] on the types [ts].  [type_set = set(ts)] is the list of the
    distinct types of [ts]; the no-unification value [None] of the code is
    [Ok None], a failed [assert] is [Raise AssertionError]. *)
Definition unify_types_limited (ts : list HailType) : result (option HailType) :=
  let type_set := remove_dups ts in
  if (length type_set =? 1)%nat then
    (* only one distinct class *)
    Ok (head type_set)
  else if forallb is_numeric ts then
    (* assert there are at least 2 numeric types *)
    if negb (1 <? length type_set)%nat then Raise AssertionError
    else if type_in tfloat64 type_set then Ok (Some tfloat64)
    else if type_in tfloat32 type_set then Ok (Some tfloat32)
    else if negb (type_set_eq type_set [tint32; tint64]) then Raise AssertionError
    else Ok (Some tint64)
  else Ok None.

(** [isinstance(t, tarray)]. *)
Definition is_tarray (t : HailType) : bool :=
  match t with
  | tarray _ => true
  | _ => false
  end.

(** [t.element_type] of an array type (the generator is only run when every
    [t] is an array). *)
Definition element_type_of (t : HailType) : HailType :=
  match t with
  | tarray et => et
  | _ => t
  end.

(** [unify_types] on the types [ts]. *)
Definition unify_types (ts : list HailType) : result (option HailType) :=
  let* limited_unify := unify_types_limited ts in
  match limited_unify with
  | Some t => Ok (Some t)
  | None =>
      if forallb is_tarray ts then
        let* et := unify_types_limited (map element_type_of ts) in
        match et with
        | Some et => Ok (Some (tarray et))
        | None => Ok None
        end
      else Ok None
  end.

(** ** Type imputation *)

(** The native Python values that [impute_type] tells apart.  A value of
    this type holds no [Expression] and no [Aggregable]; those two are
    handled where [to_expr] meets them. *)
Inductive pyval : Type :=
| PyNone
| PyBool (b : bool)
| PyInt (x : Z)
| PyFloat (bits : Z)
| PyStr (s : string)
| PyLocus (reference_genome : string)
| PyInterval (point_type : HailType)
| PyCall
| PyStruct (fields : list (string * pyval))
| PyTuple (elements : list pyval)
| PyList (elements : list pyval)
| PySet (elements : list pyval)
| PyDict (items : list (pyval * pyval))
| PyObject (type_name : string).

(** [hl.tint32.min_value] and the like. *)
Definition tint32_min_value : Z := - 2 ^ 31.
Definition tint32_max_value : Z := 2 ^ 31 - 1.
Definition tint64_min_value : Z := - 2 ^ 63.
Definition tint64_max_value : Z := 2 ^ 63 - 1.

(** [bool(t)], the truth value of a type object.  The type classes belong to
    [hail.expr.types], which is not part of the two files; [_to_expr] uses a
    struct type as a Mapping ([dtype.items()], [dtype[i]], [list(dtype)]),
    and Python takes a Mapping without entries for false.  No other type is
    used as a container in the file, and an object without a length is
    true. *)
Definition type_truth (t : HailType) : bool :=
  match t with
  | tstruct [] => false
  | _ => true
  end.

(** [not unified_type], on what [unify_types_limited] returned: true on
    [None] and on a type that is false. *)
Definition falsy (unified_type : option HailType) : bool :=
  match unified_type with
  | None => true
  | Some t => negb (type_truth t)
  end.

(** [impute_type(x)] on a native value.  A set comprehension of types is the
    list of the distinct imputed types.  The code lists such a set in the
    messages of its exceptions in an order of its own; here the order is that
    of the list, and what is proved of a message holds of its types as a
    set. *)
Fixpoint impute_type (x : pyval) : result HailType :=
  match x with
  | PyBool _ => Ok tbool
  | PyInt x =>
      if (tint32_min_value <=? x) && (x <=? tint32_max_value) then Ok tint32
      else if (tint64_min_value <=? x) && (x <=? tint64_max_value) then Ok tint64
      else Raise (ValueError x)
  | PyFloat _ => Ok tfloat64
  | PyStr _ => Ok tstr
  | PyLocus rg => Ok (tlocus rg)
  | PyInterval pt => Ok (tinterval pt)
  | PyCall => Ok tcall
  | PyStruct fields =>
      let* fts := mapM (λ kv, let* t := impute_type kv.2 in Ok (kv.1, t)) fields in
      Ok (tstruct fts)
  | PyTuple elements =>
      let* ts := mapM impute_type elements in
      Ok (ttuple ts)
  | PyList elements =>
      if (length elements =? 0)%nat then Raise (ExpressionException EmptyList)
      else
        let* ts := mapM impute_type elements in
        let ts := remove_dups ts in
        let* unified_type := unify_types_limited ts in
        if falsy unified_type then Raise (ExpressionException (HeterogeneousList ts))
        else
          match unified_type with
          | Some t => Ok (tarray t)
          | None => Raise (ExpressionException (HeterogeneousList ts))
          end
  | PySet elements =>
      if (length elements =? 0)%nat then Raise (ExpressionException EmptySet)
      else
        let* ts := mapM impute_type elements in
        let ts := remove_dups ts in
        let* unified_type := unify_types_limited ts in
        if falsy unified_type then Raise (ExpressionException (HeterogeneousSet ts))
        else
          match unified_type with
          | Some t => Ok (tset t)
          | None => Raise (ExpressionException (HeterogeneousSet ts))
          end
  | PyDict items =>
      if (length items =? 0)%nat then Raise (ExpressionException EmptyDict)
      else
        let* kts := mapM (λ kv, impute_type kv.1) items in
        let kts := remove_dups kts in
        let* vts := mapM (λ kv, impute_type kv.2) items in
        let vts := remove_dups vts in
        let* unified_key_type := unify_types_limited kts in
        let* unified_value_type := unify_types_limited vts in
        if falsy unified_key_type then
          Raise (ExpressionException (HeterogeneousDictKeys kts))
        else if falsy unified_value_type then
          Raise (ExpressionException (HeterogeneousDictValues vts))
        else
          match unified_key_type, unified_value_type with
          | Some kt, Some vt => Ok (tdict kt vt)
          | None, _ => Raise (ExpressionException (HeterogeneousDictKeys kts))
          | Some _, None => Raise (ExpressionException (HeterogeneousDictValues vts))
          end
  | PyNone => Raise (ExpressionException ImputeNone)
  | PyObject type_name => Raise (ExpressionException (CannotImpute type_name))
  end.

(** ** Lineage: indices and the persistent lists *)

(** [Indices]: the source an expression is computed from (if any) and the
    axes it varies along. *)
Record Indices : Type := mkIndices {
  source : option Source;
  axes : gset string
}.

#[global] Instance Indices_eq_dec : EqDecision Indices.
Proof. solve_decision. Defined.

(** [Indices.__eq__]: same source object and equal axis sets. *)
Definition Indices_eq (self other : Indices) : bool :=
  bool_decide (source self = source other) && bool_decide (axes self = axes other).

(** The loop of [Indices.unify], from the state [(src, axes)] it has reached. *)
Fixpoint unify_from (src : option Source) (acc : gset string)
    (indices : list Indices) : result Indices :=
  match indices with
  | [] => Ok (mkIndices src acc)
  | ind :: rest =>
      let* src :=
        match src with
        | None => Ok (source ind)
        | Some s =>
            match source ind with
            | Some s' =>
                if bool_decide (s' ≠ s)
                then Raise (ExpressionException SourceMismatch)
                else Ok src
            | None => Ok src
            end
        end in
      unify_from src (acc ∪ axes ind) rest
  end.

(** [Indices.unify(indices...)]. *)
Definition Indices_unify (indices : list Indices) : result Indices :=
  unify_from None ∅ indices.

(** Modelled from the spec: [LinkedList.push] of [hail.utils.linkedlist],
    which is not part of the two files.  The list is persistent and singly
    linked; [push] prepends the given values one after the other, so that the
    last value pushed is the first one iterated. *)
Definition push {A : Type} (self : list A) (values : list A) : list A :=
  fold_left (λ node v, v :: node) values self.

(** One referenced field: its name and the indices it was referenced at. *)
Abbreviation Ref := (string * Indices)%type.

Record Aggregation : Type := mkAggregation {
  agg_indices : Indices;
  agg_refs : list Ref
}.

(** A [Join]; the deferred function is an opaque object, kept by identity. *)
Record Join : Type := mkJoin {
  join_function : positive;
  temp_vars : list string;
  join_uid : string
}.

(** ** Expressions *)

(** The AST nodes ([hail.expr.expr_ast]) that the builders wrap. *)
Inductive AST : Type :=
| Literal (value : pyval)
| Reference (name : string)
| UnaryOperation (parent : AST) (operation : string)
| BinaryOperation (lhs rhs : AST) (operation : string)
| Select (parent : AST) (name : string)
| ClassMethod (method : string) (callee : AST) (args : list AST)
| Index (parent : AST) (key : AST)
| Slice (start stop : option AST)
| LambdaClassMethod (method : string) (lambda_var : string)
    (callee : AST) (rhs : AST) (args : list AST).

Record Expression : Type := mkExpression {
  _ast : AST;
  _type : HailType;
  _indices : Indices;
  _aggregations : list Aggregation;
  _joins : list Join;
  _refs : list Ref
}.

(** [Expression.dtype]. *)
Definition dtype (self : Expression) : HailType := _type self.

(** [sources[k].append(v)] on a [defaultdict(lambda: [])], which keeps its
    keys in the order of their first insertion. *)
Fixpoint dd_append (k : option Source) (v : string)
    (d : list (option Source * list string)) : list (option Source * list string) :=
  match d with
  | [] => [(k, [v])]
  | (k', vs) :: d' =>
      if bool_decide (k' = k) then (k', vs ++ [v]) :: d'
      else (k', vs) :: dd_append k v d'
  end.

(** The grouping loop shared by [_verify_sources] and [unify_all]:
    [for name, inds in refs: sources[inds.source].append(str(name))]. *)
Definition group_by_source (refs : list Ref) : list (option Source * list string) :=
  fold_left (λ sources r, dd_append (source r.2) r.1 sources) refs [].

(** [Expression._verify_sources]. *)
Definition _verify_sources (self : Expression) : result unit :=
  let sources := group_by_source (_refs self) in
  if (1 <? length sources)%nat then
    Raise (FatalError (TooManySources sources))
  else if negb (length sources =? 0)%nat
          && match head sources with
             | Some (k, _) => bool_decide (k ≠ source (_indices self))
             | None => false
             end then
    Raise (FatalError (IncompatibleSources sources))
  else Ok tt.

(** [Expression.__init__]: store the six attributes, run [_init] (which does
    nothing in the base class) and then [_verify_sources]. *)
Definition Expression_init (ast : AST) (type : HailType) (indices : Indices)
    (aggregations : list Aggregation) (joins : list Join) (refs : list Ref)
    : result Expression :=
  let self := mkExpression ast type indices aggregations joins refs in
  let* _ := _verify_sources self in
  Ok self.

(** Modelled from the spec: [expressions.construct_expr], which is not part of
    the two files; it picks the [Expression] subclass that goes with the type
    and calls its constructor with the same six arguments, so that every
    expression built is checked by [_verify_sources]. *)
Definition construct_expr (ast : AST) (type : HailType) (indices : Indices)
    (aggregations : list Aggregation) (joins : list Join) (refs : list Ref)
    : result Expression :=
  Expression_init ast type indices aggregations joins refs.

(** The [(name, inds)] pairs that the diagnostic of [unify_all] visits for one
    operand: [itertools.chain(e._refs, *(a.refs for a in e._aggregations))]. *)
Definition chained_refs (e : Expression) : list Ref :=
  _refs e ++ concat (map agg_refs (_aggregations e)).

(** [unify_all(exprs...)]. *)
Definition unify_all (exprs : list Expression)
    : result (Indices * list Aggregation * list Join * list Ref) :=
  match exprs with
  | [] => Raise AssertionError
  | first :: rest =>
      match Indices_unify (map _indices exprs) with
      | Raise (ExpressionException _) =>
          (* source mismatch *)
          let sources := group_by_source (concat (map chained_refs exprs)) in
          Raise (ExpressionException (CannotCombine sources))
      | Raise e => Raise e
      | Ok new_indices =>
          let '(agg, joins, refs) :=
            fold_left
              (λ '(agg, joins, refs) e,
                 (push agg (_aggregations e), push joins (_joins e), push refs (_refs e)))
              rest (_aggregations first, _joins first, _refs first) in
          Ok (new_indices, agg, joins, refs)
      end
  end.

(** ** Coercion of operands *)

(** What a builder is handed as an operand: an expression, or a native value
    that holds no expression. *)
Inductive operand : Type :=
| OExpr (e : Expression)
| ONative (v : pyval).

(** Modelled from the spec: [hl.literal], which is not part of the two files;
    a literal is a leaf without source, axes, aggregations or refs. *)
Definition literal (x : pyval) (dtype : HailType) : result Expression :=
  construct_expr (Literal x) dtype (mkIndices None ∅) [] [] [].

(** [to_expr(e)] with [dtype=None].  An expression is returned as it is.  A
    native value is typed by [impute_type]; as it holds no expression,
    [_to_expr] hands it back unchanged and it becomes a literal. *)
Definition to_expr (e : operand) : result Expression :=
  match e with
  | OExpr e => Ok e
  | ONative v => let* dtype := impute_type v in literal v dtype
  end.

(** ** Builder operations *)

(** Modelled from the spec: [Env._get_uid], which is not part of the two
    files; identifiers come from one monotonic sequence, here the counter
    [Env]. *)
Abbreviation Env := nat.

Definition _get_uid (env : Env) : string * Env :=
  ("__uid_" +:+ pretty env, S env).

(** [Expression._unary_op]. *)
Definition _unary_op (self : Expression) (name : string) : result Expression :=
  construct_expr (UnaryOperation (_ast self) name)
    (_type self) (_indices self) (_aggregations self) (_joins self) (_refs self).

(** [Expression._bin_op]. *)
Definition _bin_op (self : Expression) (name : string) (other : operand)
    (ret_type : HailType) : result Expression :=
  let* other := to_expr other in
  let* (indices, aggregations, joins, refs) := unify_all [self; other] in
  construct_expr (BinaryOperation (_ast self) (_ast other) name) ret_type
    indices aggregations joins refs.

(** [Expression._bin_op_reverse]. *)
Definition _bin_op_reverse (self : Expression) (name : string) (other : operand)
    (ret_type : HailType) : result Expression :=
  let* other := to_expr other in
  let* (indices, aggregations, joins, refs) := unify_all [self; other] in
  construct_expr (BinaryOperation (_ast other) (_ast self) name) ret_type
    indices aggregations joins refs.

(** [Expression._field]. *)
Definition _field (self : Expression) (name : string) (ret_type : HailType)
    : result Expression :=
  construct_expr (Select (_ast self) name) ret_type (_indices self)
    (_aggregations self) (_joins self) (_refs self).

(** [Expression._method]. *)
Definition _method (self : Expression) (name : string) (ret_type : HailType)
    (args : list operand) : result Expression :=
  let* args := mapM to_expr args in
  let* (indices, aggregations, joins, refs) := unify_all (self :: args) in
  construct_expr (ClassMethod name (_ast self) (map _ast args)) ret_type
    indices aggregations joins refs.

(** [Expression._index]. *)
Definition _index (self : Expression) (ret_type : HailType) (key : operand)
    : result Expression :=
  let* key := to_expr key in
  let* (indices, aggregations, joins, refs) := unify_all [self; key] in
  construct_expr (Index (_ast self) (_ast key)) ret_type
    indices aggregations joins refs.

(** [to_expr] on an optional bound of a slice. *)
Definition to_expr_opt (x : option operand) : result (option Expression) :=
  match x with
  | Some x => let* x := to_expr x in Ok (Some x)
  | None => Ok None
  end.

(** [Expression._slice]. *)
Definition _slice (self : Expression) (ret_type : HailType)
    (start stop step : option operand) : result Expression :=
  let* start := to_expr_opt start in
  let start_ast := _ast <$> start in
  let* stop := to_expr_opt stop in
  let stop_ast := _ast <$> stop in
  match step with
  | Some _ =>
      Raise (NotImplementedError "Variable slice step size is not currently supported")
  | None =>
      let non_null := omap id [start; stop] in
      let* (indices, aggregations, joins, refs) := unify_all (self :: non_null) in
      construct_expr (Index (_ast self) (Slice start_ast stop_ast)) ret_type
        indices aggregations joins refs
  end.

(** The callback of a lambda-bodied method: user code that is handed the
    placeholder expression and may itself draw identifiers. *)
Abbreviation Callback := (Expression → Env → result operand * Env).

(** [Expression._bin_lambda_method].  [args] is a generator in the code: its
    [to_expr] calls run when the AST node is built, after [unify_all]. *)
Definition _bin_lambda_method (self : Expression) (name : string) (f : Callback)
    (input_type : HailType) (ret_type_f : HailType → HailType)
    (args : list operand) (env : Env) : result Expression * Env :=
  let '(new_id, env) := _get_uid env in
  match construct_expr (Reference new_id) input_type (_indices self)
          (_aggregations self) (_joins self) (_refs self) with
  | Raise e => (Raise e, env)
  | Ok x =>
      let '(body, env) := f x env in
      (let* body := body in
       let* lambda_result := to_expr body in
       let* (indices, aggregations, joins, refs) := unify_all [self; lambda_result] in
       let* args := mapM to_expr args in
       let ast := LambdaClassMethod name new_id (_ast self) (_ast lambda_result)
                    (map _ast args) in
       construct_expr ast (ret_type_f (_type lambda_result))
         indices aggregations joins refs,
       env)
  end.

(** ** Operations an expression refuses *)

(** Modelled from the spec: [str] of a type, which belongs to
    [hail.expr.types]; only the fact that it is some text matters here. *)
Definition type_str (t : HailType) : string :=
  match t with
  | tbool => "bool"
  | tint32 => "int32"
  | tint64 => "int64"
  | tfloat32 => "float32"
  | tfloat64 => "float64"
  | tstr => "str"
  | tcall => "call"
  | tlocus _ => "locus"
  | tinterval _ => "interval"
  | tarray _ => "array"
  | tset _ => "set"
  | tdict _ _ => "dict"
  | tstruct _ => "struct"
  | ttuple _ => "tuple"
  end.

(** [Expression.__lt__], [__le__], [__gt__] and [__ge__]. *)
Definition __lt__ (self : Expression) (other : operand) : result Expression :=
  Raise (NotImplementedError ("'<' comparison with expression of type " +:+ type_str (_type self))).

Definition __le__ (self : Expression) (other : operand) : result Expression :=
  Raise (NotImplementedError ("'<=' comparison with expression of type " +:+ type_str (_type self))).

Definition __gt__ (self : Expression) (other : operand) : result Expression :=
  Raise (NotImplementedError ("'>' comparison with expression of type " +:+ type_str (_type self))).

Definition __ge__ (self : Expression) (other : operand) : result Expression :=
  Raise (NotImplementedError ("'>=' comparison with expression of type " +:+ type_str (_type self))).

(** [Expression.__nonzero__]. *)
Definition __nonzero__ (self : Expression) : result bool :=
  Raise (NotImplementedError "The truth value of an expression is undefined").

(** [Expression.__iter__]. *)
Definition __iter__ (self : Expression) : result (list Expression) :=
  Raise (TypeError "'Expression' object is not iterable").

(** [Expression.__len__]. *)
Definition __len__ (self : Expression) : result nat :=
  Raise (TypeError "'Expression' objects have no static length: use 'hl.len' for the length of collections").

(** [bool(self)] as Python 3 evaluates it: the class defines no [__bool__],
    so the truth value is asked of [__len__]. *)
Definition truth_value (self : Expression) : result bool :=
  let* n := __len__ self in Ok (negb (n =? 0)%nat).

(** ** Equality and inequality of expressions *)

(** The message of the [TypeError] of [__eq__] and [__ne__]. *)
Definition invalid_comparison (op : string) (t u : HailType) : string :=
  "Invalid '" +:+ op +:+ "' comparison, cannot compare expressions of type '"
    +:+ type_str t +:+ "' and '" +:+ type_str u +:+ "'".

(** [Expression.__eq__]. *)
Definition __eq__ (self : Expression) (other : operand) : result Expression :=
  let* other := to_expr other in
  let* t := unify_types [_type self; _type other] in
  match t with
  | None => Raise (TypeError (invalid_comparison "==" (_type self) (_type other)))
  | Some _ => _bin_op self "==" (OExpr other) tbool
  end.

(** [Expression.__ne__]. *)
Definition __ne__ (self : Expression) (other : operand) : result Expression :=
  let* other := to_expr other in
  let* t := unify_types [_type self; _type other] in
  match t with
  | None => Raise (TypeError (invalid_comparison "!=" (_type self) (_type other)))
  | Some _ => _bin_op self "!=" (OExpr other) tbool
  end.

(** ** Materialisation: [Expression._to_table] *)

(** The two kinds of source object, with what [_to_table] reads of them.
    [_fields_inverse] is keyed by the identity of an expression object. *)
Inductive SourceObject : Type :=
| Table (key : list string)
| MatrixTable (row_key col_key : list string) (_row_indices : Indices)
    (_fields_inverse : gmap positive string).

(** The structural operations that [_to_table] calls on its source, and the
    values it binds to new fields.  The operations belong to the source
    objects; a call is recorded with its arguments: positional field names,
    then keyword bindings; [rows_of m] is [m.rows()],
    and likewise for [cols_of] and [entries_of]. *)
Inductive Query : Type :=
| the_source (s : Source)
| dummy_table
| select (q : Query) (fields : list string) (named : list (string * Bound))
| select_globals (q : Query) (named : list (string * Bound))
| select_rows (q : Query) (fields : list string) (named : list (string * Bound))
| select_cols (q : Query) (fields : list string) (named : list (string * Bound))
| select_entries (q : Query) (named : list (string * Bound))
| rename (q : Query) (mapping : list (string * string))
| rows_of (q : Query)
| cols_of (q : Query)
| entries_of (q : Query)
with Bound : Type :=
| bound_expr (e : Expression)
| index_globals_field (q : Query) (name : string).

(** Whether a query derives a new field: some select along its spine binds
    a name to a value. *)
Fixpoint derives (q : Query) : bool :=
  match q with
  | the_source _ | dummy_table => false
  | select q _ named | select_rows q _ named | select_cols q _ named =>
      negb (length named =? 0)%nat || derives q
  | select_globals q named | select_entries q named =>
      negb (length named =? 0)%nat || derives q
  | rename q _ | rows_of q | cols_of q | entries_of q => derives q
  end.

Section Materialisation.
(** The object behind a source identity. *)
Variable deref : Source → SourceObject.

(** [self._to_table(name)], for the expression object [self] of identity
    [self_id].  A key list read from a derived matrix table is the key list
    of the source it derives from. *)
Definition _to_table (self_id : positive) (self : Expression) (name : string)
    (env : Env) : result Query * Env :=
  match _aggregations self with
  | _ :: _ =>
      (Raise (NotImplementedError "cannot convert aggregated expression to table"), env)
  | [] =>
      match source (_indices self) with
      | None =>
          (* scalar expression *)
          (Ok (select dummy_table [] [(name, bound_expr self)]), env)
      | Some s =>
          let n_axes := size (axes (_indices self)) in
          if (n_axes =? 0)%nat then
            let '(uid, env) := _get_uid env in
            let source := select_globals (the_source s) [(uid, bound_expr self)] in
            (Ok (select dummy_table [] [(name, index_globals_field source uid)]), env)
          else if (n_axes =? 1)%nat then
            match deref s with
            | Table key =>
                let df := select (the_source s)
                            (filter (λ f, f ≠ name) key) [(name, bound_expr self)] in
                (Ok (select_globals df []), env)
            | MatrixTable row_key col_key _row_indices _fields_inverse =>
                if Indices_eq (_indices self) _row_indices then
                  match _fields_inverse !! self_id with
                  | Some field_name =>
                      let m :=
                        if bool_decide (field_name ∈ row_key)
                        then select_rows (the_source s) row_key []
                        else select_rows (the_source s) (row_key ++ [field_name]) [] in
                      let m := rename m [(field_name, name)] in
                      (Ok (select_globals (rows_of m) []), env)
                  | None =>
                      let m := select_rows (the_source s) row_key
                                 [(name, bound_expr self)] in
                      (Ok (select_globals (rows_of m) []), env)
                  end
                else
                  match _fields_inverse !! self_id with
                  | Some field_name =>
                      let m :=
                        if bool_decide (field_name ∈ col_key)
                        then select_cols (the_source s) col_key []
                        else select_cols (the_source s) (col_key ++ [field_name]) [] in
                      let m := rename m [(field_name, name)] in
                      (Ok (select_globals (cols_of m) []), env)
                  | None =>
                      let m := select_cols (the_source s) col_key
                                 [(name, bound_expr self)] in
                      (Ok (select_globals (cols_of m) []), env)
                  end
            end
          else if negb (n_axes =? 2)%nat then (Raise AssertionError, env)
          else
            match deref s with
            | Table _ => (Raise AssertionError, env)
            | MatrixTable row_key col_key _ _ =>
                let source := select_entries (the_source s) [(name, bound_expr self)] in
                let source := select_rows source row_key [] in
                let source := select_cols source col_key [] in
                (Ok (select_globals (entries_of source) []), env)
            end
      end
  end.
End Materialisation.

(** ** Rendering of the matrix IR ([hail/ir/matrix_ir.py]) *)

Definition quote_char : ascii := "034"%char.
Definition backslash_char : ascii := "092"%char.
Definition backtick_char : ascii := "096"%char.

(** [f'"{s}"']: the text [s] between two double quotes. *)
Definition quoted (s : string) : string :=
  String quote_char (s +:+ String quote_char EmptyString).

(** [sep.join(l)]. *)
Definition join (sep : string) (l : list string) : string := String.concat sep l.

(** [str(b)] of a Python [bool]. *)
Definition bool_str (b : bool) : string := if b then "True" else "False".

Definition hex_digit (n : nat) : ascii :=
  match String.get n "0123456789abcdef" with
  | Some c => c
  | None => "0"%char
  end.

(** The escape of one character inside a literal closed by [delim]. *)
Definition escape_char (delim c : ascii) : string :=
  let n := nat_of_ascii c in
  if bool_decide (c = delim) || bool_decide (c = backslash_char) then
    String backslash_char (String c EmptyString)
  else if (n =? 10)%nat then String backslash_char "n"
  else if (n =? 13)%nat then String backslash_char "r"
  else if (n =? 9)%nat then String backslash_char "t"
  else if (n =? 8)%nat then String backslash_char "b"
  else if (n =? 12)%nat then String backslash_char "f"
  else if (n <? 32)%nat then
    String backslash_char
      ("u00" +:+ String (hex_digit (n / 16)) (String (hex_digit (n mod 16)) EmptyString))
  else String c EmptyString.

Fixpoint escape_with (delim : ascii) (s : string) : string :=
  match s with
  | EmptyString => EmptyString
  | String c s' => escape_char delim c +:+ escape_with delim s'
  end.

(** Modelled from the spec: [escape_str] of [hail.utils.java], which is not
    part of the two files; string literals are double-quoted with backslash
    escaping of quotes, backslashes and control characters. *)
Definition escape_str (s : string) : string := escape_with quote_char s.

Definition is_id_start (c : ascii) : bool :=
  let n := nat_of_ascii c in
  (n =? 95)%nat || ((65 <=? n) && (n <=? 90))%nat || ((97 <=? n) && (n <=? 122))%nat.

Definition is_id_char (c : ascii) : bool :=
  is_id_start c || ((48 <=? nat_of_ascii c) && (nat_of_ascii c <=? 57))%nat.

Definition is_plain_id (s : string) : bool :=
  match s with
  | EmptyString => false
  | String c s' => is_id_start c && forallb is_id_char (String.list_ascii_of_string s')
  end.

(** Modelled from the spec: [escape_id] of [hail.utils.java], which is not
    part of the two files; an identifier is escaped if it contains
    grammar-reserved characters, and is then written between backticks. *)
Definition escape_id (s : string) : string :=
  if is_plain_id s then s
  else String backtick_char (escape_with backtick_char s +:+ String backtick_char EmptyString).

(** Modelled from the spec: [parsable_strings] of [hail.utils.java], which is
    not part of the two files; a parenthesised list of escaped, double-quoted
    string literals. *)
Definition parsable_strings (strs : list string) : string :=
  "(" +:+ join " " (map (λ s, quoted (escape_str s)) strs) +:+ ")".

(** The values that the reader configurations hold. *)
Inductive json : Type :=
| JNull
| JBool (b : bool)
| JInt (n : Z)
| JString (s : string)
| JList (l : list json)
| JDict (items : list (string * json)).

(** How [json.dumps] (with its default [ensure_ascii]) writes one character
    of a string: a quote and a backslash behind a backslash, the five short
    escapes, every other character outside the printable range from the
    space to the tilde as four hexadecimal digits behind [\u], and a
    printable character as it is.  A character of code [n] stands for the
    code point [n]: the texts are those whose code points are below 256. *)
Definition json_escape_char (c : ascii) : string :=
  let n := nat_of_ascii c in
  if bool_decide (c = quote_char) || bool_decide (c = backslash_char) then
    String backslash_char (String c EmptyString)
  else if (n =? 10)%nat then String backslash_char "n"
  else if (n =? 13)%nat then String backslash_char "r"
  else if (n =? 9)%nat then String backslash_char "t"
  else if (n =? 8)%nat then String backslash_char "b"
  else if (n =? 12)%nat then String backslash_char "f"
  else if (n <? 32)%nat || (126 <? n)%nat then
    String backslash_char
      ("u00" +:+ String (hex_digit (n / 16)) (String (hex_digit (n mod 16)) EmptyString))
  else String c EmptyString.

Fixpoint json_escape (s : string) : string :=
  match s with
  | EmptyString => EmptyString
  | String c s' => json_escape_char c +:+ json_escape s'
  end.

(** [json.dumps(s)] of a string. *)
Definition json_string (s : string) : string := quoted (json_escape s).

(** [json.dumps(j)]: keys in insertion order, the default separators. *)
Fixpoint json_dumps (j : json) : string :=
  match j with
  | JNull => "null"
  | JBool b => if b then "true" else "false"
  | JInt n => pretty n
  | JString s => json_string s
  | JList l => "[" +:+ join ", " (map json_dumps l) +:+ "]"
  | JDict items =>
      "{" +:+ join ", " (map (λ kv, json_string kv.1 +:+ ": " +:+ json_dumps kv.2) items)
        +:+ "}"
  end.

Definition json_opt {A : Type} (f : A → json) (x : option A) : json :=
  match x with
  | Some a => f a
  | None => JNull
  end.

(** The IR nodes.  [OtherIR] stands for a child that belongs to the table or
    value IR (classes of other modules): it is given by the text the renderer
    produces for it.  The elements of [key] in [MatrixAnnotateRowsTable] are
    given by their [str]. *)
Inductive BaseIR : Type :=
| OtherIR (rendering : string)
| MatrixAggregateRowsByKey (child expr : BaseIR)
| MatrixRead (path : string) (drop_cols drop_rows : bool)
| MatrixRange (n_rows n_cols n_partitions : Z)
| MatrixImportVCF (paths : list string) (force force_bgz : bool)
    (header_file : option string) (min_partitions : option Z) (drop_samples : bool)
    (call_fields : list string) (reference_genome : option string)
    (contig_recoding : option (list (string * string)))
    (array_elements_required skip_invalid_loci : bool)
| MatrixImportBGEN (paths : list string) (entry_fields : list string)
    (sample_file : option string) (n_partitions block_size : option Z)
    (reference_genome : option string)
    (contig_recoding : option (list (string * string)))
    (skip_invalid_loci : bool) (row_fields : list string)
    (variants_per_file : list (string * list Z))
| MatrixFilterRows (child pred : BaseIR)
| MatrixChooseCols (child : BaseIR) (old_entries : list Z)
| MatrixMapCols (child new_col : BaseIR) (new_key : option (list string))
| MatrixMapEntries (child new_entry : BaseIR)
| MatrixFilterEntries (child pred : BaseIR)
| MatrixMapRows (child new_row : BaseIR) (new_key : option (list string * list string))
| MatrixMapGlobals (child new_row : BaseIR)
| MatrixFilterCols (child pred : BaseIR)
| MatrixCollectColsByKey (child : BaseIR)
| MatrixAggregateColsByKey (child agg_ir : BaseIR)
| TableToMatrixTable (child : BaseIR) (row_key col_key row_fields col_fields
    partition_key : list string) (n_partitions : option Z)
| MatrixExplodeRows (child : BaseIR) (path : list string)
| MatrixUnionRows (children : list BaseIR)
| MatrixExplodeCols (child : BaseIR) (path : list string)
| UnlocalizeEntries (rows_entries cols : BaseIR) (entry_field_name : string)
| MatrixAnnotateRowsTable (child table : BaseIR) (root : string)
    (key : option (list string))
| MatrixAnnotateColsTable (child table : BaseIR) (root : string)
| JavaMatrix (jir : positive).

(** [f'"{escape_str(json.dumps(config))}"']. *)
Definition config_literal (config : json) : string :=
  quoted (escape_str (json_dumps config)).

(** The key list of [MatrixMapCols] and [MatrixMapRows]. *)
Definition key_literal (fields : list string) : string :=
  "(" +:+ join " " (map (λ f, quoted (escape_str f)) fields) +:+ ")".

Section Render.
(** Modelled from the spec: [r.add_jir] of the renderer ([hail.ir.base_ir],
    not part of the two files) interns a Java object and returns its
    handle. *)
Variable add_jir : positive → string.

(** [r(x)], which calls [x.render(r)]. *)
Fixpoint render (x : BaseIR) : string :=
  match x with
  | OtherIR rendering => rendering
  | MatrixAggregateRowsByKey child expr =>
      "(MatrixAggregateRowsByKey " +:+ render child +:+ " " +:+ render expr +:+ ")"
  | MatrixRead path drop_cols drop_rows =>
      let config := JDict [("name", JString "MatrixNativeReader");
                           ("path", JString path)] in
      "(MatrixRead None " +:+ bool_str drop_cols +:+ " " +:+ bool_str drop_rows
        +:+ " " +:+ config_literal config +:+ ")"
  | MatrixRange n_rows n_cols n_partitions =>
      let config := JDict [("name", JString "MatrixRangeReader");
                           ("nRows", JInt n_rows);
                           ("nCols", JInt n_cols);
                           ("nPartitions", JInt n_partitions)] in
      "(MatrixRead None False False " +:+ config_literal config +:+ ")"
  | MatrixImportVCF paths force force_bgz header_file min_partitions drop_samples
      call_fields reference_genome contig_recoding array_elements_required
      skip_invalid_loci =>
      let config :=
        JDict [("name", JString "MatrixVCFReader");
               ("files", JList (map JString paths));
               ("callFields", JList (map JString call_fields));
               ("headerFile", json_opt JString header_file);
               ("minPartitions", json_opt JInt min_partitions);
               ("rg", json_opt JString reference_genome);
               ("contigRecoding",
                json_opt (λ d, JDict (map (λ kv, (kv.1, JString kv.2)) d)) contig_recoding);
               ("arrayElementsRequired", JBool array_elements_required);
               ("skipInvalidLoci", JBool skip_invalid_loci);
               ("gzAsBGZ", JBool force_bgz);
               ("forceGZ", JBool force)] in
      "(MatrixRead None " +:+ bool_str drop_samples +:+ " False "
        +:+ config_literal config +:+ ")"
  | MatrixImportBGEN paths _ sample_file n_partitions block_size reference_genome
      contig_recoding skip_invalid_loci _ variants_per_file =>
      let config :=
        JDict [("name", JString "MatrixBGENReader");
               ("files", JList (map JString paths));
               ("sampleFile", json_opt JString sample_file);
               ("nPartitions", json_opt JInt n_partitions);
               ("blockSizeInMB", json_opt JInt block_size);
               ("rg", json_opt JString reference_genome);
               ("contigRecoding",
                json_opt (λ d, JDict (map (λ kv, (kv.1, JString kv.2)) d)) contig_recoding);
               ("skipInvalidLoci", JBool skip_invalid_loci);
               ("includedVariantsPerUnresolvedFilePath",
                JDict (map (λ kv, (kv.1, JList (map JInt kv.2))) variants_per_file))] in
      "(MatrixRead None False False " +:+ config_literal config +:+ ")"
  | MatrixFilterRows child pred =>
      "(MatrixFilterRows " +:+ render child +:+ " " +:+ render pred +:+ ")"
  | MatrixChooseCols child old_entries =>
      "(MatrixChooseCols (" +:+ join " " (map pretty old_entries) +:+ ") "
        +:+ render child +:+ ")"
  | MatrixMapCols child new_col new_key =>
      "(MatrixMapCols "
        +:+ match new_key with Some k => key_literal k | None => "None" end
        +:+ " " +:+ render child +:+ " " +:+ render new_col +:+ ")"
  | MatrixMapEntries child new_entry =>
      "(MatrixMapEntries " +:+ render child +:+ " " +:+ render new_entry +:+ ")"
  | MatrixFilterEntries child pred =>
      "(MatrixFilterEntries " +:+ render child +:+ " " +:+ render pred +:+ ")"
  | MatrixMapRows child new_row new_key =>
      "(MatrixMapRows "
        +:+ match new_key with Some k => key_literal k.1 | None => "None" end
        +:+ " "
        +:+ match new_key with Some k => key_literal k.2 | None => "None" end
        +:+ " " +:+ render child +:+ " " +:+ render new_row +:+ ")"
  | MatrixMapGlobals child new_row =>
      "(MatrixMapGlobals " +:+ render child +:+ " " +:+ render new_row +:+ ")"
  | MatrixFilterCols child pred =>
      "(MatrixFilterCols " +:+ render child +:+ " " +:+ render pred +:+ ")"
  | MatrixCollectColsByKey child =>
      "(MatrixCollectColsByKey " +:+ render child +:+ ")"
  | MatrixAggregateColsByKey child agg_ir =>
      "(MatrixAggregateColsByKey " +:+ render child +:+ " " +:+ render agg_ir +:+ ")"
  | TableToMatrixTable child row_key col_key row_fields col_fields partition_key
      n_partitions =>
      "(TableToMatrixTable "
        +:+ parsable_strings row_key +:+ " "
        +:+ parsable_strings col_key +:+ " "
        +:+ parsable_strings row_fields +:+ " "
        +:+ parsable_strings col_fields +:+ " "
        +:+ parsable_strings partition_key +:+ " "
        +:+ match n_partitions with None => "None" | Some n => pretty n end +:+ " "
        +:+ render child +:+ ")"
  | MatrixExplodeRows child path =>
      "(MatrixExplodeRows (" +:+ join " " (map escape_id path) +:+ ") "
        +:+ render child +:+ ")"
  | MatrixUnionRows children =>
      "(MatrixUnionRows " +:+ join " " (map render children) +:+ ")"
  | MatrixExplodeCols child path =>
      "(MatrixExplodeCols (" +:+ join " " (map escape_id path) +:+ ") "
        +:+ render child +:+ ")"
  | UnlocalizeEntries rows_entries cols entry_field_name =>
      "(UnlocalizeEntries " +:+ quoted (escape_str entry_field_name) +:+ " "
        +:+ render rows_entries +:+ " " +:+ render cols +:+ ")"
  | MatrixAnnotateRowsTable child table root key =>
      let '(key_bool, key_strs) :=
        match key with
        | None => (false, EmptyString)
        | Some key => (true, join " " key)
        end in
      "(MatrixAnnotateRowsTable " +:+ quoted root +:+ " " +:+ bool_str key_bool
        +:+ " " +:+ render child +:+ " " +:+ render table +:+ " " +:+ key_strs +:+ ")"
  | MatrixAnnotateColsTable child table root =>
      "(MatrixAnnotateColsTable " +:+ quoted root +:+ " " +:+ render child
        +:+ " " +:+ render table +:+ ")"
  | JavaMatrix jir => "(JavaMatrix " +:+ add_jir jir +:+ ")"
  end.
End Render.

(** * The properties, as the specification words them *)

(** ** Type unification *)

(** "If all types are identical, return it." *)
Definition all_identical (ts : list HailType) : option HailType :=
  match ts with
  | [] => None
  | t :: rest => if forallb (λ u, bool_decide (u = t)) rest then Some t else None
  end.

(** The rule of limited unification in the words of the specification:
    the single type if all are identical; else, if all are numeric, float64 if
    present, else float32 if present, else int64; else no unification. *)
Definition unify_types_limited_spec (ts : list HailType) : option HailType :=
  match all_identical ts with
  | Some t => Some t
  | None =>
      if forallb is_numeric ts then
        if type_in tfloat64 ts then Some tfloat64
        else if type_in tfloat32 ts then Some tfloat32
        else Some tint64
      else None
  end.

(** ** Lineage *)

(** "The first non-null source seen." *)
Definition first_source (indices : list Indices) : option Source :=
  head (omap source indices).

(** An input is compatible with the accepted source [s0] unless it carries a
    different non-null source. *)
Definition agrees (s0 : option Source) (ind : Indices) : bool :=
  match s0, source ind with
  | Some s, Some s' => bool_decide (s' = s)
  | _, _ => true
  end.

Definition sources_agree (indices : list Indices) : bool :=
  forallb (agrees (first_source indices)) indices.

(** ** The source-consistency invariant *)

(** "Every source appearing in refs must equal indices.source, and at most one
    distinct source may appear across refs." *)
Definition source_consistent (e : Expression) : Prop :=
  (∀ r, r ∈ _refs e → source r.2 = source (_indices e))
  ∧ (∀ r1 r2, r1 ∈ _refs e → r2 ∈ _refs e → source r1.2 = source r2.2).

(** Every referenced field belongs to a source, the one of the expression.
    A valid leaf is a literal or a variable (no refs), or a reference to a
    field of a source object, recorded in [refs] with the indices of that
    source. *)
Definition grounded (e : Expression) : bool :=
  forallb
    (λ r : Ref, bool_decide (is_Some (source r.2))
                && bool_decide (source r.2 = source (_indices e)))
    (_refs e).

Definition valid_leaf (e : Expression) : Prop := grounded e = true.

(** One call of a builder operation on a receiver. *)
Inductive builder_call : Type :=
| call_unary_op (name : string)
| call_bin_op (name : string) (other : operand) (ret_type : HailType)
| call_bin_op_reverse (name : string) (other : operand) (ret_type : HailType)
| call_field (name : string) (ret_type : HailType)
| call_method (name : string) (ret_type : HailType) (args : list operand)
| call_index (ret_type : HailType) (key : operand)
| call_slice (ret_type : HailType) (start stop step : option operand)
| call_bin_lambda_method (name : string) (f : Callback) (input_type : HailType)
    (ret_type_f : HailType → HailType) (args : list operand).

Definition run_call (self : Expression) (c : builder_call) (env : Env)
    : result Expression * Env :=
  match c with
  | call_unary_op name => (_unary_op self name, env)
  | call_bin_op name other ret_type => (_bin_op self name other ret_type, env)
  | call_bin_op_reverse name other ret_type =>
      (_bin_op_reverse self name other ret_type, env)
  | call_field name ret_type => (_field self name ret_type, env)
  | call_method name ret_type args => (_method self name ret_type args, env)
  | call_index ret_type key => (_index self ret_type key, env)
  | call_slice ret_type start stop step => (_slice self ret_type start stop step, env)
  | call_bin_lambda_method name f input_type ret_type_f args =>
      _bin_lambda_method self name f input_type ret_type_f args env
  end.

(** The placeholder that a lambda-bodied method hands to its callback. *)
Definition placeholder (self : Expression) (new_id : string) (input_type : HailType)
    : result Expression :=
  construct_expr (Reference new_id) input_type (_indices self)
    (_aggregations self) (_joins self) (_refs self).

(** The expressions that a call combines with its receiver: its operands
    that are expressions and, for a lambda-bodied method, the body that the
    callback returns for the placeholder. *)
Inductive operand_of (self : Expression) (env : Env) : builder_call → Expression → Prop :=
| operand_bin_op name o ret_type :
    operand_of self env (call_bin_op name (OExpr o) ret_type) o
| operand_bin_op_reverse name o ret_type :
    operand_of self env (call_bin_op_reverse name (OExpr o) ret_type) o
| operand_method name ret_type args o :
    OExpr o ∈ args → operand_of self env (call_method name ret_type args) o
| operand_index ret_type o :
    operand_of self env (call_index ret_type (OExpr o)) o
| operand_slice_start ret_type o stop step :
    operand_of self env (call_slice ret_type (Some (OExpr o)) stop step) o
| operand_slice_stop ret_type start o step :
    operand_of self env (call_slice ret_type start (Some (OExpr o)) step) o
| operand_lambda_body name f input_type ret_type_f args x body env' :
    placeholder self (_get_uid env).1 input_type = Ok x →
    f x (_get_uid env).2 = (Ok (OExpr body), env') →
    operand_of self env (call_bin_lambda_method name f input_type ret_type_f args) body.

(** The expressions reached from valid leaves by finitely many builder
    calls.  A placeholder of a built receiver is built too: it is what a
    callback starts from. *)
Inductive built : Expression → Prop :=
| built_leaf e :
    valid_leaf e → built e
| built_placeholder self new_id input_type x :
    built self → placeholder self new_id input_type = Ok x → built x
| built_call self c env e env' :
    built self →
    (∀ o, operand_of self env c o → built o) →
    run_call self c env = (Ok e, env') →
    built e.

(** The callback of a lambda-bodied method raised a fatal error itself. *)
Definition callback_fatal (self : Expression) (c : builder_call) (env : Env) : Prop :=
  match c with
  | call_bin_lambda_method _ f input_type _ _ =>
      match placeholder self (_get_uid env).1 input_type with
      | Ok x => is_fatal (f x (_get_uid env).2).1 = true
      | Raise _ => False
      end
  | _ => False
  end.

(** ** Outcomes *)

(** A call returns a value that satisfies [P], or raises an exception that is
    not a [FatalError]. *)
Definition returns {A : Type} (P : A → Prop) (r : result A) : Prop :=
  match r with
  | Ok a => P a
  | Raise e => ∀ msg, e ≠ FatalError msg
  end.

(** ** Grouping *)

(** The field names that the refs [refs] pull from the source [k], in the
    order of [refs]. *)
Definition names_of (k : option Source) (refs : list Ref) : list string :=
  (filter (λ r : Ref, source r.2 = k) refs).*1.

(** ** Rendering *)

(** The body of a double-quoted literal is well formed when no quote in it
    is bare: a backslash takes the character after it. *)
Fixpoint well_escaped (s : string) : bool :=
  match s with
  | EmptyString => true
  | String c s' =>
      if bool_decide (c = backslash_char) then
        match s' with
        | EmptyString => false
        | String _ s'' => well_escaped s''
        end
      else if bool_decide (c = quote_char) then false
      else well_escaped s'
  end.

(** ** Sample values *)

(** A field of the source [s], a literal, and a field of another source with
    an aggregation over a third one. *)
Definition sample_field (s : Source) (name : string) : Expression :=
  mkExpression (Reference name) tint32 (mkIndices (Some s) {["row"]}) [] []
    [(name, mkIndices (Some s) {["row"]})].

Definition sample_literal : Expression :=
  mkExpression (Literal (PyInt 1)) tint32 (mkIndices None ∅) [] [] [].

Definition sample_aggregated : Expression :=
  mkExpression (Reference "y") tint32 (mkIndices (Some 2%positive) {["row"]})
    [mkAggregation (mkIndices (Some 3%positive) {["row"]})
       [("z", mkIndices (Some 3%positive) {["row"]})]]
    [] [("y", mkIndices (Some 2%positive) {["row"]})].

(** The callback that hands back the placeholder it is given. *)
Definition identity_callback : Callback := λ x env, (Ok (OExpr x), env).

(** A ref that names no source.  The constructor accepts such an expression,
    but it is no reference to a field of a source, and combining it with a
    field of a source is refused by the check: this is why the refs of a
    valid leaf are asked to name a source. *)
Definition sourceless_ref : Expression :=
  mkExpression (Reference "x") tint32 (mkIndices None ∅) [] []
    [("x", mkIndices None ∅)].

(** A matrix table with the row field [AC] bound to the expression object 7
    and the row key [locus] bound to the object 8. *)
Definition sample_matrix : SourceObject :=
  MatrixTable ["locus"] ["s"] (mkIndices (Some 1%positive) {["row"]})
    (<[7%positive := "AC"]> (<[8%positive := "locus"]> ∅)).

(** A root with a double quote in it. *)
Definition root_with_quote : string := String "a" (String quote_char "b").

(** ** Induction on native values *)

Section pyval_induction.
Variable P : pyval → Prop.
Hypothesis HNone : P PyNone.
Hypothesis HBool : ∀ b, P (PyBool b).
Hypothesis HInt : ∀ x, P (PyInt x).
Hypothesis HFloat : ∀ f, P (PyFloat f).
Hypothesis HStr : ∀ s, P (PyStr s).
Hypothesis HLocus : ∀ rg, P (PyLocus rg).
Hypothesis HInterval : ∀ pt, P (PyInterval pt).
Hypothesis HCall : P PyCall.
Hypothesis HStruct : ∀ fields, Forall (λ kv, P kv.2) fields → P (PyStruct fields).
Hypothesis HTuple : ∀ elements, Forall P elements → P (PyTuple elements).
Hypothesis HList : ∀ elements, Forall P elements → P (PyList elements).
Hypothesis HSet : ∀ elements, Forall P elements → P (PySet elements).
Hypothesis HDict : ∀ items, Forall (λ kv, P kv.1 ∧ P kv.2) items → P (PyDict items).
Hypothesis HObject : ∀ n, P (PyObject n).

Fixpoint pyval_nested_ind (x : pyval) : P x :=
  let all :=
    fix go (l : list pyval) : Forall P l :=
      match l with
      | [] => List.Forall_nil _
      | y :: l' => List.Forall_cons _ y l' (pyval_nested_ind y) (go l')
      end in
  match x with
  | PyNone => HNone
  | PyBool b => HBool b
  | PyInt z => HInt z
  | PyFloat f => HFloat f
  | PyStr s => HStr s
  | PyLocus rg => HLocus rg
  | PyInterval pt => HInterval pt
  | PyCall => HCall
  | PyStruct fields =>
      HStruct fields
        ((fix go (l : list (string * pyval)) : Forall (λ kv, P kv.2) l :=
            match l with
            | [] => List.Forall_nil _
            | kv :: l' => List.Forall_cons _ kv l' (pyval_nested_ind kv.2) (go l')
            end) fields)
  | PyTuple elements => HTuple elements (all elements)
  | PyList elements => HList elements (all elements)
  | PySet elements => HSet elements (all elements)
  | PyDict items =>
      HDict items
        ((fix go (l : list (pyval * pyval)) : Forall (λ kv, P kv.1 ∧ P kv.2) l :=
            match l with
            | [] => List.Forall_nil _
            | kv :: l' =>
                List.Forall_cons _ kv l'
                  (conj (pyval_nested_ind kv.1) (pyval_nested_ind kv.2)) (go l')
            end) items)
  | PyObject n => HObject n
  end.
End pyval_induction.

(** ** Further notions *)

(** A call returns a value that satisfies [P], or raises an exception that
    satisfies [Q]. *)
Definition outcome {A : Type} (P : A → Prop) (Q : exn → Prop) (r : result A) : Prop :=
  match r with
  | Ok a => P a
  | Raise e => Q e
  end.

(** The exceptions of [impute_type]: an [ExpressionException] or the
    [ValueError] of an integer out of range. *)
Definition imputation_error (e : exn) : Prop :=
  match e with
  | ExpressionException _ | ValueError _ => True
  | _ => False
  end.

(** The name that heads the rendering of a matrix node; the four readers
    share one.  A node of another IR has none here. *)
Definition node_name (x : BaseIR) : option string :=
  match x with
  | OtherIR _ => None
  | MatrixAggregateRowsByKey _ _ => Some "MatrixAggregateRowsByKey"
  | MatrixRead _ _ _ | MatrixRange _ _ _
  | MatrixImportVCF _ _ _ _ _ _ _ _ _ _ _
  | MatrixImportBGEN _ _ _ _ _ _ _ _ _ _ => Some "MatrixRead"
  | MatrixFilterRows _ _ => Some "MatrixFilterRows"
  | MatrixChooseCols _ _ => Some "MatrixChooseCols"
  | MatrixMapCols _ _ _ => Some "MatrixMapCols"
  | MatrixMapEntries _ _ => Some "MatrixMapEntries"
  | MatrixFilterEntries _ _ => Some "MatrixFilterEntries"
  | MatrixMapRows _ _ _ => Some "MatrixMapRows"
  | MatrixMapGlobals _ _ => Some "MatrixMapGlobals"
  | MatrixFilterCols _ _ => Some "MatrixFilterCols"
  | MatrixCollectColsByKey _ => Some "MatrixCollectColsByKey"
  | MatrixAggregateColsByKey _ _ => Some "MatrixAggregateColsByKey"
  | TableToMatrixTable _ _ _ _ _ _ _ => Some "TableToMatrixTable"
  | MatrixExplodeRows _ _ => Some "MatrixExplodeRows"
  | MatrixUnionRows _ => Some "MatrixUnionRows"
  | MatrixExplodeCols _ _ => Some "MatrixExplodeCols"
  | UnlocalizeEntries _ _ _ => Some "UnlocalizeEntries"
  | MatrixAnnotateRowsTable _ _ _ _ => Some "MatrixAnnotateRowsTable"
  | MatrixAnnotateColsTable _ _ _ => Some "MatrixAnnotateColsTable"
  | JavaMatrix _ => Some "JavaMatrix"
  end.

(** The text [s] ends with a closing parenthesis. *)
Definition closes (s : string) : Prop := ∃ body, s = body +:+ ")".

(** The list [payload] lists the types [ts] as a set: each of them once, in
    some order. *)
Definition lists_set (payload ts : list HailType) : Prop :=
  NoDup payload ∧ ∀ t, t ∈ payload ↔ t ∈ ts.

(** A printable character other than the quote and the backslash, and a text
    of such characters. *)
Definition plain_char (c : ascii) : bool :=
  (32 <=? nat_of_ascii c)%nat && (nat_of_ascii c <=? 126)%nat
  && negb (bool_decide (c = quote_char)) && negb (bool_decide (c = backslash_char)).

Fixpoint plain_text (s : string) : bool :=
  match s with
  | EmptyString => true
  | String c s' => plain_char c && plain_text s'
  end.

(** The text [s] between two quotes that each stand behind a backslash: a
    JSON string as it reads inside a literal. *)
Definition inner_quoted (s : string) : string :=
  String backslash_char (String quote_char
    (s +:+ String backslash_char (String quote_char EmptyString))).


(** * Proofs *)

(** ** Type unification *)

Lemma NoDup_all_equal {A : Type} (l : list A) (x : A) :
  NoDup l → x ∈ l → (∀ y, y ∈ l → y = x) → l = [x].
Proof.
  intros Hnd Hx Hall. destruct l as [|a l]; [by apply elem_of_nil in Hx|].
  assert (a = x) as -> by (apply Hall; left).
  destruct l as [|b l]; [done|].
  assert (b = x) as -> by (apply Hall; right; left).
  apply NoDup_cons in Hnd as [Hnot _]. exfalso. apply Hnot. left.
Qed.

Lemma length_two_distinct {A : Type} (l : list A) (x y : A) :
  x ∈ l → y ∈ l → x ≠ y → (2 ≤ length l)%nat.
Proof.
  intros Hx Hy Hne. destruct l as [|a [|b l]]; simpl; [|exfalso|lia].
  - by apply elem_of_nil in Hx.
  - apply list_elem_of_singleton in Hx, Hy. congruence.
Qed.

Lemma forallb_elem_of {A : Type} (f : A → bool) (l : list A) :
  forallb f l = true ↔ ∀ x, x ∈ l → f x = true.
Proof.
  rewrite forallb_forall. split; intros H x Hx; apply H; by apply list_elem_of_In.
Qed.

Lemma forallb_false_elem_of {A : Type} (f : A → bool) (l : list A) :
  forallb f l = false → ∃ x, x ∈ l ∧ f x = false.
Proof.
  induction l as [|a l IH]; simpl; [done|].
  destruct (f a) eqn:E; simpl.
  - intros H. destruct (IH H) as (x & Hx & Hf). exists x. split; [by right | done].
  - intros _. exists a. split; [by left | done].
Qed.

Lemma forallb_same_elements {A : Type} (f : A → bool) (l l' : list A) :
  (∀ x, x ∈ l ↔ x ∈ l') → forallb f l = forallb f l'.
Proof.
  intros H. apply eq_true_iff_eq. rewrite !forallb_elem_of.
  split; intros Hf x Hx; apply Hf; by apply H.
Qed.

Lemma type_in_spec (t : HailType) (ts : list HailType) :
  type_in t ts = true ↔ t ∈ ts.
Proof. unfold type_in. apply bool_decide_eq_true. Qed.

Lemma type_in_remove_dups (t : HailType) (ts : list HailType) :
  type_in t (remove_dups ts) = type_in t ts.
Proof.
  apply eq_true_iff_eq. rewrite !type_in_spec. apply elem_of_remove_dups.
Qed.

Lemma all_identical_Some (ts : list HailType) (t : HailType) :
  all_identical ts = Some t ↔ t ∈ ts ∧ ∀ u, u ∈ ts → u = t.
Proof.
  destruct ts as [|a rest]; simpl.
  - split; [done | intros [H _]; by apply elem_of_nil in H].
  - destruct (forallb _ rest) eqn:E.
    + rewrite forallb_elem_of in E. split.
      * intros [= ->]. split; [left|].
        intros u [->|Hu]%elem_of_cons; [done|]. apply E in Hu.
        by apply bool_decide_eq_true in Hu.
      * intros [_ H]. f_equal. apply H. left.
    + split; [done|]. intros [_ H]. apply forallb_false_elem_of in E as (u & Hu & Hf).
      apply bool_decide_eq_false in Hf. exfalso. apply Hf.
      rewrite (H u) by (by right). symmetry. apply H. left.
Qed.

Lemma all_identical_None (ts : list HailType) :
  ts ≠ [] → all_identical ts = None → ∃ t u, t ∈ ts ∧ u ∈ ts ∧ t ≠ u.
Proof.
  intros Hne H. destruct ts as [|a rest]; [done|]. simpl in H.
  destruct (forallb _ rest) eqn:E; [done|].
  apply forallb_false_elem_of in E as (u & Hu & Hf).
  apply bool_decide_eq_false in Hf. exists u, a. split; [by right|]. split; [left | done].
Qed.

Lemma numeric_not_float (t : HailType) :
  is_numeric t = true → t ≠ tfloat64 → t ≠ tfloat32 → t = tint32 ∨ t = tint64.
Proof. destruct t; simpl; intros; try done; auto. Qed.

(** The code computes the rule of the specification on every non-empty input:
    the assertions never fail there. *)
Lemma unify_types_limited_eq_spec (ts : list HailType) :
  ts ≠ [] → unify_types_limited ts = Ok (unify_types_limited_spec ts).
Proof.
  intros Hne. unfold unify_types_limited, unify_types_limited_spec.
  pose proof (NoDup_remove_dups ts) as Hnd.
  pose proof (elem_of_remove_dups ts) as Hel.
  destruct (all_identical ts) as [t|] eqn:Hid.
  - apply all_identical_Some in Hid as [Ht Hall].
    rewrite (NoDup_all_equal (remove_dups ts) t); [done | done | by apply Hel |].
    intros y Hy. apply Hall. by apply Hel.
  - destruct (all_identical_None ts Hne Hid) as (t & u & Ht & Hu & Hne').
    assert (2 ≤ length (remove_dups ts))%nat as Hlen.
    { apply (length_two_distinct _ t u); [by apply Hel | by apply Hel | done]. }
    destruct (Nat.eqb_spec (length (remove_dups ts)) 1) as [?|_]; [lia|].
    destruct (forallb is_numeric ts) eqn:Hnum; [|done].
    destruct (Nat.ltb_spec 1 (length (remove_dups ts))) as [_|?]; [|lia]. simpl.
    rewrite !type_in_remove_dups.
    destruct (type_in tfloat64 ts) eqn:H64; [done|].
    destruct (type_in tfloat32 ts) eqn:H32; [done|].
    assert (∀ x, x ∈ ts → x = tint32 ∨ x = tint64) as Hints.
    { intros x Hx. rewrite forallb_elem_of in Hnum. apply numeric_not_float.
      - by apply Hnum.
      - intros ->. apply type_in_spec in Hx. congruence.
      - intros ->. apply type_in_spec in Hx. congruence. }
    assert (tint32 ∈ ts ∧ tint64 ∈ ts) as [Hi32 Hi64].
    { destruct (Hints t Ht) as [-> | ->], (Hints u Hu) as [-> | ->]; done. }
    assert (type_set_eq (remove_dups ts) [tint32; tint64] = true) as ->; [|done].
    unfold type_set_eq. apply andb_true_iff. split.
    + apply forallb_elem_of. intros x Hx%Hel. apply type_in_spec.
      destruct (Hints x Hx) as [-> | ->]; [left | right; left].
    + simpl. rewrite !type_in_remove_dups.
      apply type_in_spec in Hi32, Hi64. by rewrite Hi32, Hi64.
Qed.

Lemma remove_dups_NoDup_id {A : Type} `{EqDecision A} (l : list A) :
  NoDup l → remove_dups l = l.
Proof.
  induction 1 as [|x l Hx Hnd IH]; simpl; [done|].
  rewrite IH. destruct (decide_rel _ x l); [done|done].
Qed.

Lemma unify_types_limited_set (ts : list HailType) :
  unify_types_limited (remove_dups ts) = unify_types_limited ts.
Proof.
  unfold unify_types_limited.
  rewrite (remove_dups_NoDup_id (remove_dups ts)) by apply NoDup_remove_dups.
  rewrite (forallb_same_elements is_numeric (remove_dups ts) ts); [done|].
  apply elem_of_remove_dups.
Qed.

(** C2.  On every non-empty collection of types, [unify_types_limited]
    returns (never raises): the single type when all inputs are identical;
    otherwise, when all inputs are numeric, float64 if float64 is present,
    else float32 if float32 is present, else int64, and the inputs are then
    exactly the mix of int32 and int64; in every other case the
    no-unification value [None]. *)
Theorem unify_types_limited_correct (ts : list HailType) (Hne : ts ≠ []) :
  unify_types_limited ts = Ok (unify_types_limited_spec ts)
  ∧ (∀ t, t ∈ ts → (∀ u, u ∈ ts → u = t) → unify_types_limited ts = Ok (Some t))
  ∧ (all_identical ts = None → forallb is_numeric ts = true →
       tfloat64 ∈ ts → unify_types_limited ts = Ok (Some tfloat64))
  ∧ (all_identical ts = None → forallb is_numeric ts = true →
       tfloat64 ∉ ts → tfloat32 ∈ ts → unify_types_limited ts = Ok (Some tfloat32))
  ∧ (all_identical ts = None → forallb is_numeric ts = true →
       tfloat64 ∉ ts → tfloat32 ∉ ts →
       unify_types_limited ts = Ok (Some tint64)
       ∧ ∀ t, t ∈ ts ↔ t = tint32 ∨ t = tint64)
  ∧ (all_identical ts = None → forallb is_numeric ts = false →
       unify_types_limited ts = Ok None).
Proof.
  rewrite (unify_types_limited_eq_spec ts Hne). unfold unify_types_limited_spec.
  split; [done|]. split; [|split; [|split; [|split]]].
  - intros t Ht Hall.
    assert (all_identical ts = Some t) as -> by (by apply all_identical_Some). done.
  - intros -> -> H64. apply type_in_spec in H64. by rewrite H64.
  - intros -> -> H64 H32. apply type_in_spec in H32.
    destruct (type_in tfloat64 ts) eqn:E; [by apply type_in_spec in E|]. by rewrite H32.
  - intros Hid Hnum H64 H32. rewrite Hid, Hnum.
    destruct (type_in tfloat64 ts) eqn:E64; [by apply type_in_spec in E64|].
    destruct (type_in tfloat32 ts) eqn:E32; [by apply type_in_spec in E32|].
    split; [done|]. intros t.
    assert (∀ x, x ∈ ts → x = tint32 ∨ x = tint64) as Hints.
    { intros x Hx. rewrite forallb_elem_of in Hnum. apply numeric_not_float.
      - by apply Hnum.
      - by intros ->.
      - by intros ->. }
    split; [apply Hints|].
    destruct (all_identical_None ts Hne Hid) as (a & b & Ha & Hb & Hab).
    destruct (Hints a Ha) as [-> | ->], (Hints b Hb) as [-> | ->];
      try done; intros [-> | ->]; done.
  - by intros -> ->.
Qed.

(** The three sample values of the specification, each by the theorem. *)
Lemma unify_types_limited_correct_witness :
  unify_types_limited [tint32; tint64] = Ok (Some tint64)
  ∧ unify_types_limited [tint32; tfloat64] = Ok (Some tfloat64)
  ∧ unify_types_limited [tint32; tbool] = Ok None.
Proof.
  split; [|split].
  - exact (proj1 (unify_types_limited_correct [tint32; tint64] ltac:(discriminate))).
  - exact (proj1 (unify_types_limited_correct [tint32; tfloat64] ltac:(discriminate))).
  - exact (proj1 (unify_types_limited_correct [tint32; tbool] ltac:(discriminate))).
Defined.

Lemma all_identical_map_tarray (ts : list HailType) :
  all_identical (map tarray ts) = tarray <$> all_identical ts.
Proof.
  destruct ts as [|t rest]; simpl; [done|].
  assert (forallb (λ u, bool_decide (u = tarray t)) (map tarray rest)
          = forallb (λ u, bool_decide (u = t)) rest) as ->.
  { induction rest as [|r rest IH]; simpl; [done|]. rewrite IH. f_equal.
    apply eq_true_iff_eq. rewrite !bool_decide_eq_true. split; congruence. }
  by destruct (forallb _ rest).
Qed.

Lemma map_element_type_of_tarray (ts : list HailType) :
  map element_type_of (map tarray ts) = ts.
Proof. induction ts as [|t ts IH]; simpl; [done|]. by rewrite IH. Qed.

Lemma forallb_is_tarray_map (ts : list HailType) :
  forallb is_tarray (map tarray ts) = true.
Proof. induction ts as [|t ts IH]; simpl; done. Qed.

(** [unify_types] on array types reaches one level down, with
    [unify_types_limited]. *)
Lemma unify_types_map_tarray (ts : list HailType) :
  ts ≠ [] →
  unify_types (map tarray ts) = Ok (tarray <$> unify_types_limited_spec ts).
Proof.
  intros Hne. unfold unify_types.
  rewrite (unify_types_limited_eq_spec (map tarray ts)) by (by destruct ts).
  simpl. unfold unify_types_limited_spec at 1. rewrite all_identical_map_tarray.
  destruct (all_identical ts) as [t|] eqn:Hid; simpl.
  - unfold unify_types_limited_spec. by rewrite Hid.
  - assert (forallb is_numeric (map tarray ts) = false) as ->.
    { destruct ts as [|t rest]; done. }
    rewrite forallb_is_tarray_map, map_element_type_of_tarray.
    rewrite (unify_types_limited_eq_spec ts Hne). simpl.
    by destruct (unify_types_limited_spec ts).
Qed.

(** C9 as stated fails: the element types array<int32> and array<int64>
    unify (to array<int64>), yet the arrays of them do not. *)
Lemma unify_types_not_recursive :
  unify_types [tarray tint32; tarray tint64] = Ok (Some (tarray tint64))
  ∧ unify_types [tarray (tarray tint32); tarray (tarray tint64)] = Ok None.
Proof. split; reflexivity. Qed.

(** C9, amended.  [unify_types] returns what limited unification returns
    when that succeeds; when it gives no unification and every input is an
    array type, it applies limited unification (one level, not itself) to
    the element types and wraps the result in an array type; otherwise it
    gives no unification.  Hence, for array types whose element types unify
    under [unify_types_limited], it returns the array of that type, and no
    unification when they do not. *)
Theorem unify_types_one_level (ts : list HailType) :
  (∀ t, unify_types_limited ts = Ok (Some t) → unify_types ts = Ok (Some t))
  ∧ (unify_types_limited ts = Ok None → forallb is_tarray ts = true →
       unify_types ts
       = let* et := unify_types_limited (map element_type_of ts) in Ok (tarray <$> et))
  ∧ (unify_types_limited ts = Ok None → forallb is_tarray ts = false →
       unify_types ts = Ok None)
  ∧ (ts ≠ [] → ∀ r, unify_types_limited ts = Ok r →
       unify_types (map tarray ts) = Ok (tarray <$> r)).
Proof.
  split; [|split; [|split]].
  - intros t H. unfold unify_types. by rewrite H.
  - intros H Harr. unfold unify_types. rewrite H. simpl. rewrite Harr.
    destruct (unify_types_limited (map element_type_of ts)) as [[et|]|e]; done.
  - intros H Harr. unfold unify_types. rewrite H. simpl. by rewrite Harr.
  - intros Hne r H. rewrite (unify_types_limited_eq_spec ts Hne) in H.
    injection H as <-. by apply unify_types_map_tarray.
Qed.

Lemma unify_types_one_level_witness :
  unify_types [tarray tint32; tarray tint64] = Ok (Some (tarray tint64))
  ∧ unify_types [tint32; tstr] = Ok None.
Proof.
  split.
  - exact (proj2 (proj2 (proj2 (unify_types_one_level [tint32; tint64])))
             ltac:(discriminate) (Some tint64) eq_refl).
  - exact (proj1 (proj2 (proj2 (unify_types_one_level [tint32; tstr]))) eq_refl eq_refl).
Defined.

(** ** Type imputation *)

Lemma length_eqb_0_false {A : Type} (l : list A) :
  l ≠ [] → (length l =? 0)%nat = false.
Proof. by destruct l. Qed.

Lemma mapM_nonempty {A B : Type} (f : A → result B) (l : list A) (ys : list B) :
  l ≠ [] → mapM f l = Ok ys → ys ≠ [].
Proof.
  destruct l as [|x l]; [done|]. intros _. simpl.
  destruct (f x); simpl; [|done]. destruct (mapM f l); simpl; [|done].
  by intros [= <-].
Qed.

Lemma remove_dups_nonempty (ts : list HailType) : ts ≠ [] → remove_dups ts ≠ [].
Proof.
  destruct ts as [|t ts]; [done|]. intros _ H.
  assert (t ∈ remove_dups (t :: ts)) as Ht by (apply elem_of_remove_dups; left).
  rewrite H in Ht. by apply elem_of_nil in Ht.
Qed.

(** A non-empty list whose elements all have a type. *)
Lemma impute_type_list (elements : list pyval) (ts : list HailType) :
  elements ≠ [] → mapM impute_type elements = Ok ts →
  impute_type (PyList elements)
  = if falsy (unify_types_limited_spec ts) then
      Raise (ExpressionException (HeterogeneousList (remove_dups ts)))
    else
      match unify_types_limited_spec ts with
      | Some t => Ok (tarray t)
      | None => Raise (ExpressionException (HeterogeneousList (remove_dups ts)))
      end.
Proof.
  intros Hne Hts. simpl. rewrite (length_eqb_0_false _ Hne).
  change ((fix go (l : list pyval) : result (list HailType) :=
             match l with
             | [] => Ok []
             | x :: l' => let* y := impute_type x in let* ys := go l' in Ok (y :: ys)
             end) elements) with (mapM impute_type elements).
  rewrite Hts. simpl. rewrite unify_types_limited_set.
  rewrite (unify_types_limited_eq_spec ts) by (by eapply mapM_nonempty).
  reflexivity.
Qed.

Lemma lists_set_remove_dups (ts : list HailType) : lists_set (remove_dups ts) ts.
Proof. split; [apply NoDup_remove_dups | intros t; apply elem_of_remove_dups]. Qed.

(** C6 fails on the code at the list that holds one struct without fields:
    the element has the struct type without fields, the types of the elements
    unify to it, and [impute_type] raises the exception of a heterogeneous
    array where the claim gives the array of the unified type; the truth test
    on the unified type takes the struct type without fields for no type.  So
    does every non-empty list whose element types unify to a type that is
    false.  The rest of the claim holds: a bool is boolean; an integer is
    int32 in the int32 range, else int64 in the int64 range, else the value
    error; a float is float64; a non-empty list whose element types unify to
    a type that is true is the array of it, and one whose element types do
    not unify raises, the message listing the set of these types; an empty
    list, set or dict, and [None], raise. *)
Theorem impute_type_falsy_unified_type :
  (impute_type (PyStruct []) = Ok (tstruct [])
   ∧ unify_types_limited [tstruct []] = Ok (Some (tstruct []))
   ∧ impute_type (PyList [PyStruct []])
     = Raise (ExpressionException (HeterogeneousList [tstruct []])))
  ∧ (∀ elements ts t, elements ≠ [] → mapM impute_type elements = Ok ts →
       unify_types_limited ts = Ok (Some t) → type_truth t = false →
       ∃ payload, impute_type (PyList elements)
                  = Raise (ExpressionException (HeterogeneousList payload))
                  ∧ lists_set payload ts)
  ∧ (∀ b, impute_type (PyBool b) = Ok tbool)
  ∧ (∀ x, - 2 ^ 31 ≤ x ≤ 2 ^ 31 - 1 → impute_type (PyInt x) = Ok tint32)
  ∧ (∀ x, ¬ (- 2 ^ 31 ≤ x ≤ 2 ^ 31 - 1) → - 2 ^ 63 ≤ x ≤ 2 ^ 63 - 1 →
       impute_type (PyInt x) = Ok tint64)
  ∧ (∀ x, ¬ (- 2 ^ 63 ≤ x ≤ 2 ^ 63 - 1) → impute_type (PyInt x) = Raise (ValueError x))
  ∧ (∀ f, impute_type (PyFloat f) = Ok tfloat64)
  ∧ (∀ elements ts t, elements ≠ [] → mapM impute_type elements = Ok ts →
       unify_types_limited ts = Ok (Some t) → type_truth t = true →
       impute_type (PyList elements) = Ok (tarray t))
  ∧ (∀ elements ts, elements ≠ [] → mapM impute_type elements = Ok ts →
       unify_types_limited ts = Ok None →
       ∃ payload, impute_type (PyList elements)
                  = Raise (ExpressionException (HeterogeneousList payload))
                  ∧ lists_set payload ts)
  ∧ impute_type (PyList []) = Raise (ExpressionException EmptyList)
  ∧ impute_type (PySet []) = Raise (ExpressionException EmptySet)
  ∧ impute_type (PyDict []) = Raise (ExpressionException EmptyDict)
  ∧ impute_type PyNone = Raise (ExpressionException ImputeNone).
Proof.
  split; [repeat split; reflexivity|].
  split; [|repeat split; try reflexivity].
  - intros elements ts t Hne Hts Hu Ht. rewrite (impute_type_list elements ts Hne Hts).
    rewrite (unify_types_limited_eq_spec ts) in Hu by (by eapply mapM_nonempty).
    injection Hu as ->. simpl. rewrite Ht. simpl.
    exists (remove_dups ts). split; [done | apply lists_set_remove_dups].
  - intros x Hx. simpl. unfold tint32_min_value, tint32_max_value.
    destruct (Z.leb_spec (- 2 ^ 31) x), (Z.leb_spec x (2 ^ 31 - 1)); simpl; (done || lia).
  - intros x H32 H64. simpl.
    unfold tint32_min_value, tint32_max_value, tint64_min_value, tint64_max_value.
    destruct (Z.leb_spec (- 2 ^ 31) x), (Z.leb_spec x (2 ^ 31 - 1)),
      (Z.leb_spec (- 2 ^ 63) x), (Z.leb_spec x (2 ^ 63 - 1)); simpl; (done || lia).
  - intros x H64. simpl.
    unfold tint32_min_value, tint32_max_value, tint64_min_value, tint64_max_value.
    destruct (Z.leb_spec (- 2 ^ 31) x), (Z.leb_spec x (2 ^ 31 - 1)),
      (Z.leb_spec (- 2 ^ 63) x), (Z.leb_spec x (2 ^ 63 - 1)); simpl; (done || lia).
  - intros elements ts t Hne Hts Hu Ht. rewrite (impute_type_list elements ts Hne Hts).
    rewrite (unify_types_limited_eq_spec ts) in Hu by (by eapply mapM_nonempty).
    injection Hu as ->. simpl. by rewrite Ht.
  - intros elements ts Hne Hts Hu. rewrite (impute_type_list elements ts Hne Hts).
    rewrite (unify_types_limited_eq_spec ts) in Hu by (by eapply mapM_nonempty).
    injection Hu as ->. simpl.
    exists (remove_dups ts). split; [done | apply lists_set_remove_dups].
Qed.

(** The sample values of the specification: [1, 2, 3] is an array of int32
    and [1, "a"] has no type, both through the theorem; so has a list that
    mixes the two integer types; and two structs without fields raise. *)
Lemma impute_type_falsy_unified_type_witness :
  impute_type (PyList [PyInt 1; PyInt 2; PyInt 3]) = Ok (tarray tint32)
  ∧ (∃ payload, impute_type (PyList [PyInt 1; PyStr "a"])
                = Raise (ExpressionException (HeterogeneousList payload))
                ∧ lists_set payload [tint32; tstr])
  ∧ (∃ payload, impute_type (PyList [PyStruct []; PyStruct []])
                = Raise (ExpressionException (HeterogeneousList payload))
                ∧ lists_set payload [tstruct []; tstruct []])
  ∧ impute_type (PyInt 5) = Ok tint32
  ∧ impute_type (PyInt (2 ^ 40)) = Ok tint64
  ∧ impute_type (PyInt (2 ^ 63)) = Raise (ValueError (2 ^ 63)).
Proof.
  destruct impute_type_falsy_unified_type
    as (_ & Hfalsy & _ & Hi32 & Hi64 & Hbig & _ & Hlist & Hhet & _).
  split; [|split; [|split; [|split; [|split]]]].
  - apply (Hlist [PyInt 1; PyInt 2; PyInt 3] [tint32; tint32; tint32] tint32);
      [discriminate | reflexivity | reflexivity | reflexivity].
  - apply (Hhet [PyInt 1; PyStr "a"] [tint32; tstr]);
      [discriminate | reflexivity | reflexivity].
  - apply (Hfalsy [PyStruct []; PyStruct []] [tstruct []; tstruct []] (tstruct []));
      [discriminate | reflexivity | reflexivity | reflexivity].
  - apply Hi32. lia.
  - apply Hi64; lia.
  - apply Hbig. lia.
Defined.

(** ** [Indices.unify] *)

Lemma first_source_cons (ind : Indices) (rest : list Indices) :
  first_source (ind :: rest)
  = match source ind with Some s => Some s | None => first_source rest end.
Proof. unfold first_source. simpl. by destruct (source ind). Qed.

Lemma agrees_None (ind : Indices) : agrees None ind = true.
Proof. done. Qed.

(** The loop, from any state it can be in. *)
Lemma unify_from_spec (src : option Source) (acc : gset string) (l : list Indices) :
  unify_from src acc l
  = let s0 := match src with Some s => Some s | None => first_source l end in
    if forallb (agrees s0) l
    then Ok (mkIndices s0 (acc ∪ ⋃ (axes <$> l)))
    else Raise (ExpressionException SourceMismatch).
Proof.
  revert src acc. induction l as [|ind rest IH]; intros src acc; simpl.
  - rewrite (right_id_L ∅ (∪)). by destruct src.
  - rewrite first_source_cons. unfold agrees at 1.
    destruct src as [s|]; simpl.
    + destruct (source ind) as [s'|] eqn:Hs; simpl.
      * destruct (decide (s' = s)) as [->|Hne].
        -- rewrite bool_decide_eq_false_2 by (intros H; by apply H).
           rewrite (bool_decide_eq_true_2 (s = s)) by done. simpl.
           rewrite IH. simpl. by rewrite (assoc_L (∪)).
        -- rewrite bool_decide_eq_true_2 by done.
           by rewrite (bool_decide_eq_false_2 (s' = s)) by done.
      * rewrite IH. simpl. by rewrite (assoc_L (∪)).
    + destruct (source ind) as [s'|] eqn:Hs; simpl.
      * rewrite IH. simpl. rewrite (bool_decide_eq_true_2 _ (eq_refl s')). simpl.
        by rewrite (assoc_L (∪)).
      * rewrite IH. simpl. destruct (first_source rest); simpl; by rewrite (assoc_L (∪)).
Qed.

Lemma Indices_unify_spec (l : list Indices) :
  Indices_unify l
  = if sources_agree l
    then Ok (mkIndices (first_source l) (⋃ (axes <$> l)))
    else Raise (ExpressionException SourceMismatch).
Proof.
  unfold Indices_unify, sources_agree. rewrite unify_from_spec. simpl.
  by rewrite (left_id_L ∅ (∪)).
Qed.

(** [Indices.unify] raises nothing but its source mismatch. *)
Lemma Indices_unify_raise (l : list Indices) (e : exn) :
  Indices_unify l = Raise e → e = ExpressionException SourceMismatch.
Proof.
  rewrite Indices_unify_spec. destruct (sources_agree l); [done|]. by intros [= <-].
Qed.

Lemma first_source_elem (l : list Indices) (s : Source) :
  first_source l = Some s → ∃ ind, ind ∈ l ∧ source ind = Some s.
Proof.
  induction l as [|ind rest IH]; [done|]. rewrite first_source_cons.
  destruct (source ind) as [s'|] eqn:Hs.
  - intros [= ->]. exists ind. split; [left | done].
  - intros H. destruct (IH H) as (x & Hx & Hsx). exists x. split; [by right | done].
Qed.

Lemma first_source_None (l : list Indices) :
  first_source l = None ↔ ∀ ind, ind ∈ l → source ind = None.
Proof.
  induction l as [|ind rest IH].
  - split; [|done]. intros _ ind H. by apply elem_of_nil in H.
  - rewrite first_source_cons. destruct (source ind) as [s'|] eqn:Hs.
    + split; [done|]. intros H. rewrite (H ind) in Hs by left. done.
    + rewrite IH. split.
      * intros H x [->|Hx]%elem_of_cons; [done | by apply H].
      * intros H x Hx. apply H. by right.
Qed.

(** The sources agree iff no two inputs carry different non-null sources. *)
Lemma sources_agree_pairwise (l : list Indices) :
  sources_agree l = true
  ↔ ∀ a b sa sb, a ∈ l → b ∈ l → source a = Some sa → source b = Some sb → sa = sb.
Proof.
  unfold sources_agree. rewrite forallb_elem_of. split.
  - intros H a b sa sb Ha Hb Hsa Hsb.
    pose proof (H a Ha) as Hagr_a. pose proof (H b Hb) as Hagr_b.
    unfold agrees in Hagr_a, Hagr_b. rewrite Hsa in Hagr_a. rewrite Hsb in Hagr_b.
    destruct (first_source l) as [s0|] eqn:Hf.
    + apply bool_decide_eq_true in Hagr_a, Hagr_b. congruence.
    + rewrite first_source_None in Hf. rewrite (Hf a Ha) in Hsa. done.
  - intros H x Hx. unfold agrees.
    destruct (first_source l) as [s0|] eqn:Hf; [|done].
    destruct (source x) as [s'|] eqn:Hs; [|done].
    apply bool_decide_eq_true.
    destruct (first_source_elem l s0 Hf) as (y & Hy & Hsy). by apply (H x y s' s0).
Qed.

Lemma first_source_agree (l : list Indices) (ind : Indices) (s : Source) :
  sources_agree l = true → ind ∈ l → source ind = Some s → first_source l = Some s.
Proof.
  intros Hagr Hin Hs. destruct (first_source l) as [s0|] eqn:Hf.
  - destruct (first_source_elem l s0 Hf) as (y & Hy & Hsy). f_equal.
    rewrite sources_agree_pairwise in Hagr. by apply (Hagr y ind s0 s).
  - rewrite first_source_None in Hf. rewrite (Hf ind Hin) in Hs. done.
Qed.

Lemma sources_agree_perm (l l' : list Indices) :
  l ≡ₚ l' → sources_agree l = sources_agree l'.
Proof.
  intros Hp. apply eq_true_iff_eq. rewrite !sources_agree_pairwise.
  split; intros H a b sa sb Ha Hb; apply H; first [by rewrite Hp | by rewrite <-Hp].
Qed.

Lemma first_source_perm (l l' : list Indices) :
  l ≡ₚ l' → sources_agree l = true → first_source l = first_source l'.
Proof.
  intros Hp Hagr. destruct (first_source l) as [s|] eqn:Hf.
  - destruct (first_source_elem l s Hf) as (y & Hy & Hsy). symmetry.
    apply (first_source_agree l' y s); [by rewrite <-(sources_agree_perm l l') | | done].
    by rewrite <-Hp.
  - symmetry. rewrite first_source_None in Hf |- *. intros x Hx. apply Hf. by rewrite Hp.
Qed.

Lemma union_axes_perm (l l' : list Indices) :
  l ≡ₚ l' → ⋃ (axes <$> l) = ⋃ (axes <$> l').
Proof.
  intros Hp. apply set_eq. intros x. rewrite !elem_of_union_list.
  split; intros (X & HX & Hx); exists X; (split; [|done]);
    apply list_elem_of_fmap in HX as (ind & -> & Hind); apply list_elem_of_fmap;
    exists ind; (split; [done|]); first [by rewrite Hp | by rewrite <-Hp].
Qed.

(** The outcome does not depend on the order of the inputs. *)
Lemma Indices_unify_perm (l l' : list Indices) :
  l ≡ₚ l' → Indices_unify l = Indices_unify l'.
Proof.
  intros Hp. rewrite !Indices_unify_spec, <-(sources_agree_perm l l' Hp).
  destruct (sources_agree l) eqn:Hagr; [|done].
  by rewrite (first_source_perm l l' Hp Hagr), (union_axes_perm l l' Hp).
Qed.

(** C3.  [Indices.unify] accumulates the union of all axis sets and accepts
    the first non-null source; it raises the source mismatch exactly when a
    later input carries a different non-null source; the resulting axis set
    (and whether it succeeds) does not depend on the order of the inputs. *)
Theorem Indices_unify_correct (l : list Indices) :
  (sources_agree l = true →
     Indices_unify l = Ok (mkIndices (first_source l) (⋃ (axes <$> l))))
  ∧ (∀ pre ind post s s',
       l = pre ++ ind :: post → first_source pre = Some s →
       source ind = Some s' → s' ≠ s →
       Indices_unify l = Raise (ExpressionException SourceMismatch))
  ∧ (∀ e, Indices_unify l = Raise e →
       ∃ a b sa sb, a ∈ l ∧ b ∈ l ∧ source a = Some sa ∧ source b = Some sb ∧ sa ≠ sb)
  ∧ (∀ l' i, l ≡ₚ l' → Indices_unify l = Ok i →
       ∃ i', Indices_unify l' = Ok i' ∧ axes i' = axes i).
Proof.
  split; [|split; [|split]].
  - intros H. by rewrite Indices_unify_spec, H.
  - intros pre ind post s s' -> Hpre Hs Hne. rewrite Indices_unify_spec.
    destruct (sources_agree _) eqn:Hagr; [|done]. exfalso.
    destruct (first_source_elem pre s Hpre) as (y & Hy & Hsy).
    rewrite sources_agree_pairwise in Hagr. apply Hne.
    apply (Hagr ind y s' s); [| |done|done].
    + apply elem_of_app. right. left.
    + apply elem_of_app. by left.
  - intros e. rewrite Indices_unify_spec.
    destruct (sources_agree l) eqn:Hagr; [done|]. intros _.
    unfold sources_agree in Hagr. apply forallb_false_elem_of in Hagr as (x & Hx & Hf).
    unfold agrees in Hf. destruct (first_source l) as [s0|] eqn:Hfs; [|done].
    destruct (source x) as [s'|] eqn:Hs; [|done].
    apply bool_decide_eq_false in Hf.
    destruct (first_source_elem l s0 Hfs) as (y & Hy & Hsy).
    exists x, y, s', s0. done.
  - intros l' i Hp H. rewrite <-(Indices_unify_perm l l' Hp). by exists i.
Qed.

(** The sample values of the specification, through the theorem: a source
    with a null source unify to the source and the union of the axes, also
    in the other order; two distinct sources do not unify. *)
Lemma Indices_unify_correct_witness :
  Indices_unify [mkIndices (Some 1%positive) {["r"]}; mkIndices None {["c"]}]
  = Ok (mkIndices (Some 1%positive) ({["r"]} ∪ ({["c"]} ∪ ∅)))
  ∧ Indices_unify [mkIndices (Some 1%positive) {["r"]}; mkIndices (Some 2%positive) {["c"]}]
    = Raise (ExpressionException SourceMismatch)
  ∧ ∃ i', Indices_unify [mkIndices None {["c"]}; mkIndices (Some 1%positive) {["r"]}] = Ok i'
          ∧ axes i' = {["r"]} ∪ ({["c"]} ∪ ∅).
Proof.
  split; [|split].
  - exact (proj1 (Indices_unify_correct
                    [mkIndices (Some 1%positive) {["r"]}; mkIndices None {["c"]}]) eq_refl).
  - exact (proj1 (proj2 (Indices_unify_correct _))
             [mkIndices (Some 1%positive) {["r"]}] (mkIndices (Some 2%positive) {["c"]}) []
             1%positive 2%positive eq_refl eq_refl eq_refl ltac:(discriminate)).
  - refine (proj2 (proj2 (proj2 (Indices_unify_correct
              [mkIndices (Some 1%positive) {["r"]}; mkIndices None {["c"]}]))) _
              (mkIndices (Some 1%positive) ({["r"]} ∪ ({["c"]} ∪ ∅))) _ _).
    + apply perm_swap.
    + exact (proj1 (Indices_unify_correct
                      [mkIndices (Some 1%positive) {["r"]}; mkIndices None {["c"]}]) eq_refl).
Defined.

Example Indices_unify_sample :
  Indices_unify [mkIndices (Some 1%positive) {["r"]}; mkIndices None {["c"]}]
  = Ok (mkIndices (Some 1%positive) {["r"; "c"]}).
Proof. vm_compute. reflexivity. Qed.

(** ** Grouping of referenced fields by source *)

Lemma group_by_source_snoc (refs : list Ref) (r : Ref) :
  group_by_source (refs ++ [r]) = dd_append (source r.2) r.1 (group_by_source refs).
Proof. unfold group_by_source. by rewrite fold_left_app. Qed.

Lemma dd_append_keys (k0 : option Source) (v : string)
    (d : list (option Source * list string)) (k : option Source) :
  k ∈ (dd_append k0 v d).*1 ↔ k = k0 ∨ k ∈ d.*1.
Proof.
  induction d as [|[k' vs] d IH]; simpl.
  - rewrite list_elem_of_singleton. split; [by left | intros [?|H]; [done|]].
    by apply elem_of_nil in H.
  - case_bool_decide as Hk; simpl.
    + subst k'. rewrite elem_of_cons. naive_solver.
    + rewrite !elem_of_cons, IH. naive_solver.
Qed.

Lemma dd_append_NoDup (k0 : option Source) (v : string)
    (d : list (option Source * list string)) :
  NoDup d.*1 → NoDup (dd_append k0 v d).*1.
Proof.
  induction d as [|[k' vs] d IH]; simpl.
  - intros _. apply NoDup_singleton.
  - intros [Hnot Hnd]%NoDup_cons. case_bool_decide as Hk; simpl.
    + by apply NoDup_cons.
    + apply NoDup_cons. split; [|by apply IH].
      rewrite dd_append_keys. intros [?|?]; [congruence | done].
Qed.

Lemma dd_append_entry (k0 : option Source) (v : string)
    (d : list (option Source * list string)) (k : option Source) (names : list string) :
  NoDup d.*1 →
  (k, names) ∈ dd_append k0 v d →
  (k ≠ k0 ∧ (k, names) ∈ d)
  ∨ (k = k0 ∧ ((∃ old, (k0, old) ∈ d ∧ names = old ++ [v]) ∨ (names = [v] ∧ k0 ∉ d.*1))).
Proof.
  induction d as [|[k' vs] d IH]; simpl.
  - intros _ [= -> ->]%list_elem_of_singleton. right. split; [done|]. right.
    split; [done | apply not_elem_of_nil].
  - intros [Hnot Hnd]%NoDup_cons. case_bool_decide as Hk; simpl.
    + subst k'. intros [[= -> ->]|Hin]%elem_of_cons.
      * right. split; [done|]. left. exists vs. split; [left | done].
      * left. split; [|by right]. intros ->. apply Hnot.
        apply list_elem_of_fmap. by exists (k0, names).
    + intros [[= -> ->]|Hin]%elem_of_cons.
      * left. split; [done | left].
      * destruct (IH Hnd Hin) as [[Hne Hd] | [-> [(old & Hold & ->) | [-> Hfresh]]]].
        -- left. split; [done | by right].
        -- right. split; [done|]. left. exists old. split; [by right | done].
        -- right. split; [done|]. right. split; [done|].
           rewrite elem_of_cons. intros [?|?]; [congruence | done].
Qed.

Lemma group_by_source_NoDup (refs : list Ref) : NoDup (group_by_source refs).*1.
Proof.
  induction refs as [|r refs IH] using rev_ind; [apply NoDup_nil_2|].
  rewrite group_by_source_snoc. by apply dd_append_NoDup.
Qed.

(** The keys are the sources that occur in the refs. *)
Lemma group_by_source_keys (refs : list Ref) (k : option Source) :
  k ∈ (group_by_source refs).*1 ↔ ∃ r, r ∈ refs ∧ source r.2 = k.
Proof.
  induction refs as [|r refs IH] using rev_ind.
  - simpl. split; [intros H; by apply elem_of_nil in H|].
    intros (r & H & _). by apply elem_of_nil in H.
  - rewrite group_by_source_snoc, dd_append_keys, IH. split.
    + intros [-> | (r' & Hr' & Hs)].
      * exists r. split; [|done]. apply elem_of_app. right. left.
      * exists r'. split; [|done]. apply elem_of_app. by left.
    + intros (r' & [Hr' | ->%list_elem_of_singleton]%elem_of_app & Hs).
      * right. by exists r'.
      * by left.
Qed.

Lemma names_of_snoc (k : option Source) (refs : list Ref) (r : Ref) :
  names_of k (refs ++ [r])
  = names_of k refs ++ (if decide (source r.2 = k) then [r.1] else []).
Proof.
  unfold names_of. rewrite filter_app, fmap_app. f_equal.
  rewrite filter_cons, filter_nil. by destruct (decide (source r.2 = k)).
Qed.

Lemma names_of_nil_iff (k : option Source) (refs : list Ref) :
  names_of k refs = [] ↔ ¬ ∃ r, r ∈ refs ∧ source r.2 = k.
Proof.
  unfold names_of. split.
  - intros H (r & Hr & Hs).
    assert (r ∈ filter (λ r : Ref, source r.2 = k) refs) as Hin
      by (by apply list_elem_of_filter).
    apply fmap_nil_inv in H. rewrite H in Hin. by apply elem_of_nil in Hin.
  - intros H. destruct (filter _ refs) as [|r l] eqn:E; [done|]. exfalso. apply H.
    assert (r ∈ filter (λ r : Ref, source r.2 = k) refs) as Hin by (rewrite E; left).
    apply list_elem_of_filter in Hin as [Hs Hr]. by exists r.
Qed.

(** Each key is listed with the names pulled from it. *)
Lemma group_by_source_entry (refs : list Ref) (k : option Source) (names : list string) :
  (k, names) ∈ group_by_source refs → names = names_of k refs.
Proof.
  revert names. induction refs as [|r refs IH] using rev_ind; intros names.
  - simpl. intros H. by apply elem_of_nil in H.
  - rewrite group_by_source_snoc, names_of_snoc. intros Hin.
    apply dd_append_entry in Hin; [|apply group_by_source_NoDup].
    destruct Hin as [[Hne Hd] | [-> [(old & Hold & ->) | [-> Hfresh]]]].
    + rewrite decide_False by done. rewrite (right_id_L [] (++)). by apply IH.
    + rewrite decide_True by done. f_equal. by apply IH.
    + rewrite decide_True by done.
      assert (names_of (source r.2) refs = []) as ->; [|done].
      apply names_of_nil_iff. by rewrite <-group_by_source_keys.
Qed.

(** ** [unify_all] *)

Lemma push_reverse {A : Type} (self values : list A) :
  push self values = reverse values ++ self.
Proof.
  unfold push. revert self. induction values as [|v values IH]; intros self; simpl.
  - done.
  - rewrite IH, reverse_cons, <-(assoc_L (++)). done.
Qed.

Lemma fold_push_reverse {A : Type} (f : Expression → list A) (rest : list Expression)
    (acc : list A) :
  fold_left (λ acc e, push acc (f e)) rest acc = reverse (concat (map f rest)) ++ acc.
Proof.
  revert acc. induction rest as [|e rest IH]; intros acc; simpl; [done|].
  rewrite IH, push_reverse, reverse_app, <-(assoc_L (++)). done.
Qed.

Lemma push_all_reverse (rest : list Expression) (agg : list Aggregation)
    (joins : list Join) (refs : list Ref) :
  fold_left
    (λ '(agg, joins, refs) e,
       (push agg (_aggregations e), push joins (_joins e), push refs (_refs e)))
    rest (agg, joins, refs)
  = (reverse (concat (map _aggregations rest)) ++ agg,
     reverse (concat (map _joins rest)) ++ joins,
     reverse (concat (map _refs rest)) ++ refs).
Proof.
  revert agg joins refs. induction rest as [|e rest IH]; intros agg joins refs; simpl.
  - done.
  - rewrite IH, !push_reverse, !reverse_app, <-!(assoc_L (++)). done.
Qed.

Lemma elem_of_concat {A : Type} (ls : list (list A)) (x : A) :
  x ∈ concat ls ↔ ∃ l, l ∈ ls ∧ x ∈ l.
Proof.
  rewrite list_elem_of_In, in_concat. split; intros (l & H1 & H2); exists l;
    by rewrite ?list_elem_of_In, <-?list_elem_of_In in *.
Qed.

Lemma elem_of_map {A B : Type} (f : A → B) (l : list A) (y : B) :
  y ∈ map f l ↔ ∃ x, x ∈ l ∧ f x = y.
Proof.
  rewrite list_elem_of_In, in_map_iff. split; intros (x & H1 & H2); exists x.
  - by rewrite list_elem_of_In.
  - by rewrite <-list_elem_of_In.
Qed.

(** What the diagnostic scans: every operand's refs and the refs of every
    aggregation of every operand. *)
Lemma elem_of_chained_refs (exprs : list Expression) (r : Ref) :
  r ∈ concat (map chained_refs exprs)
  ↔ ∃ x, x ∈ exprs ∧ (r ∈ _refs x ∨ ∃ a, a ∈ _aggregations x ∧ r ∈ agg_refs a).
Proof.
  rewrite elem_of_concat. split.
  - intros (l & (x & Hx & <-)%elem_of_map & Hr). exists x. split; [done|].
    unfold chained_refs in Hr. apply elem_of_app in Hr as [Hr|Hr]; [by left|]. right.
    apply elem_of_concat in Hr as (l & (a & Ha & <-)%elem_of_map & Hr). by exists a.
  - intros (x & Hx & Hr). exists (chained_refs x). split.
    + apply elem_of_map. by exists x.
    + unfold chained_refs. apply elem_of_app. destruct Hr as [Hr | (a & Ha & Hr)]; [by left|].
      right. apply elem_of_concat. exists (agg_refs a). split; [|done].
      apply elem_of_map. by exists a.
Qed.

(** C4.  On a non-empty list of expressions: when [Indices.unify] of the
    operands' indices succeeds, [unify_all] returns the unified indices and,
    for aggregations, joins and refs alike, the lists of the later operands
    pushed one after the other onto the list of the first operand; when it
    fails, [unify_all] raises the user-facing [ExpressionException] whose
    report groups by source the field names found in every operand's refs
    and in the refs of every aggregation, one entry for each distinct
    source with the names pulled from it. *)
Theorem unify_all_correct (first : Expression) (rest : list Expression) :
  (∀ new_indices, Indices_unify (map _indices (first :: rest)) = Ok new_indices →
     unify_all (first :: rest)
     = Ok (new_indices,
           fold_left (λ agg e, push agg (_aggregations e)) rest (_aggregations first),
           fold_left (λ joins e, push joins (_joins e)) rest (_joins first),
           fold_left (λ refs e, push refs (_refs e)) rest (_refs first))
     ∧ unify_all (first :: rest)
       = Ok (new_indices,
             reverse (concat (map _aggregations rest)) ++ _aggregations first,
             reverse (concat (map _joins rest)) ++ _joins first,
             reverse (concat (map _refs rest)) ++ _refs first))
  ∧ (∀ e, Indices_unify (map _indices (first :: rest)) = Raise e →
     ∃ sources,
       unify_all (first :: rest) = Raise (ExpressionException (CannotCombine sources))
       ∧ NoDup sources.*1
       ∧ (∀ src, src ∈ sources.*1
                 ↔ ∃ x r, x ∈ first :: rest
                          ∧ (r ∈ _refs x ∨ ∃ a, a ∈ _aggregations x ∧ r ∈ agg_refs a)
                          ∧ source r.2 = src)
       ∧ (∀ src names, (src, names) ∈ sources →
            names = names_of src (concat (map chained_refs (first :: rest))))).
Proof.
  split.
  - intros new_indices H. unfold unify_all. rewrite H, push_all_reverse.
    by rewrite !fold_push_reverse.
  - intros e H. pose proof (Indices_unify_raise _ _ H) as ->.
    exists (group_by_source (concat (map chained_refs (first :: rest)))).
    split; [|split; [|split]].
    + unfold unify_all. by rewrite H.
    + apply group_by_source_NoDup.
    + intros src. rewrite group_by_source_keys. split.
      * intros (r & (x & Hx & Hr)%elem_of_chained_refs & Hs). by exists x, r.
      * intros (x & r & Hx & Hr & Hs). exists r. split; [|done].
        apply elem_of_chained_refs. by exists x.
    + intros src names. apply group_by_source_entry.
Qed.

(** A field combined with a literal, and two fields of different sources,
    one of them with an aggregation over a third source. *)
Lemma unify_all_correct_witness :
  unify_all [sample_field 1 "x"; sample_literal]
  = Ok (mkIndices (Some 1%positive) (∅ ∪ {["row"]} ∪ ∅), [], [],
        [("x", mkIndices (Some 1%positive) {["row"]})])
  ∧ ∃ sources,
      unify_all [sample_field 1 "x"; sample_aggregated]
      = Raise (ExpressionException (CannotCombine sources))
      ∧ ∀ src names, (src, names) ∈ sources →
          names = names_of src
                    (concat (map chained_refs [sample_field 1 "x"; sample_aggregated])).
Proof.
  split.
  - exact (proj1 (proj1 (unify_all_correct (sample_field 1 "x") [sample_literal])
                    (mkIndices (Some 1%positive) (∅ ∪ {["row"]} ∪ ∅)) eq_refl)).
  - destruct (proj2 (unify_all_correct (sample_field 1 "x") [sample_aggregated])
                (ExpressionException SourceMismatch) eq_refl)
      as (sources & Hraise & _ & _ & Hnames).
    exists sources. split; [exact Hraise | exact Hnames].
Defined.

Example unify_all_report :
  unify_all [sample_field 1 "x"; sample_aggregated]
  = Raise (ExpressionException (CannotCombine
             [(Some 1%positive, ["x"]); (Some 2%positive, ["y"]); (Some 3%positive, ["z"])])).
Proof. reflexivity. Qed.

(** ** The source-consistency invariant *)

Lemma returns_not_fatal {A : Type} (P : A → Prop) (r : result A) :
  returns P r → is_fatal r = false.
Proof. destruct r as [a|[]]; simpl; try done. intros H. by destruct (H msg). Qed.

Lemma returns_bind {A B : Type} (P : A → Prop) (Q : B → Prop)
    (m : result A) (k : A → result B) :
  returns P m → (∀ a, P a → returns Q (k a)) → returns Q (let* a := m in k a).
Proof. destruct m as [a|e]; simpl; [by auto | done]. Qed.

Lemma returns_weaken {A : Type} (P Q : A → Prop) (r : result A) :
  (∀ a, P a → Q a) → returns P r → returns Q r.
Proof. destruct r; simpl; auto. Qed.

Lemma returns_mapM {A B : Type} (P : B → Prop) (f : A → result B) (l : list A) :
  Forall (λ x, returns P (f x)) l → returns (Forall P) (mapM f l).
Proof.
  induction 1 as [|x l Hx _ IH]; simpl; [by constructor|].
  apply (returns_bind P); [done|]. intros y Hy.
  apply (returns_bind (Forall P)); [done|]. intros ys Hys. simpl. by constructor.
Qed.

Lemma unify_types_limited_returns (ts : list HailType) :
  returns (λ _, True) (unify_types_limited ts).
Proof.
  unfold unify_types_limited.
  repeat match goal with |- context [if ?b then _ else _] => destruct b end; simpl; done.
Qed.

Lemma impute_type_returns (x : pyval) : returns (λ _, True) (impute_type x).
Proof.
  induction x as [| | z | | | | | |fields IH|elements IH|elements IH|elements IH|items IH|]
    using pyval_nested_ind; simpl; try done.
  - repeat match goal with |- context [if ?b then _ else _] => destruct b end; simpl; done.
  - apply (returns_bind (Forall (λ _, True))); [|done].
    apply (returns_mapM (λ _, True) (λ kv, let* t := impute_type kv.2 in Ok (kv.1, t))).
    eapply Forall_impl; [exact IH|]. intros kv Hkv. simpl.
    by apply (returns_bind (λ _, True)).
  - apply (returns_bind (Forall (λ _, True))); [|done].
    by apply (returns_mapM (λ _, True) impute_type).
  - destruct (length elements =? 0)%nat; [done|].
    apply (returns_bind (Forall (λ _, True)));
      [by apply (returns_mapM (λ _, True) impute_type)|]. intros ts _.
    apply (returns_bind (λ _, True)); [apply unify_types_limited_returns|].
    intros [t|] _; simpl; [by destruct (type_truth t) | done].
  - destruct (length elements =? 0)%nat; [done|].
    apply (returns_bind (Forall (λ _, True)));
      [by apply (returns_mapM (λ _, True) impute_type)|]. intros ts _.
    apply (returns_bind (λ _, True)); [apply unify_types_limited_returns|].
    intros [t|] _; simpl; [by destruct (type_truth t) | done].
  - destruct (length items =? 0)%nat; [done|].
    apply (returns_bind (Forall (λ _, True))).
    { apply (returns_mapM (λ _, True) (λ kv, impute_type kv.1)).
      eapply Forall_impl; [exact IH|]. by intros kv [? ?]. }
    intros kts _.
    apply (returns_bind (Forall (λ _, True))).
    { apply (returns_mapM (λ _, True) (λ kv, impute_type kv.2)).
      eapply Forall_impl; [exact IH|]. by intros kv [? ?]. }
    intros vts _.
    apply (returns_bind (λ _, True)); [apply unify_types_limited_returns|]. intros kt _.
    apply (returns_bind (λ _, True)); [apply unify_types_limited_returns|]. intros vt _.
    destruct kt as [kt|], vt as [vt|]; simpl; try done;
      destruct (type_truth kt); simpl; try done; by destruct (type_truth vt).
Qed.

Lemma source_consistent_alt (e : Expression) :
  source_consistent e ↔ ∀ r, r ∈ _refs e → source r.2 = source (_indices e).
Proof.
  split; [by intros [H _]|]. intros H. split; [done|].
  intros r1 r2 H1 H2. by rewrite (H r1 H1), (H r2 H2).
Qed.

(** [_verify_sources] accepts exactly the expressions that satisfy the
    invariant. *)
Lemma _verify_sources_ok_iff (e : Expression) :
  _verify_sources e = Ok tt ↔ source_consistent e.
Proof.
  rewrite source_consistent_alt. unfold _verify_sources.
  pose proof (group_by_source_NoDup (_refs e)) as Hnd.
  pose proof (group_by_source_keys (_refs e)) as Hkeys.
  destruct (group_by_source (_refs e)) as [|[k vs] [|[k' vs'] d]]; simpl in *.
  - split; [|done]. intros _ r Hr. exfalso.
    assert (source r.2 ∈ @nil (option Source)) as H by (apply Hkeys; by exists r).
    by apply elem_of_nil in H.
  - case_bool_decide as Hk; simpl.
    + split; [done|]. intros H. exfalso. apply Hk.
      destruct (proj1 (Hkeys k)) as (r & Hr & Hs); [left|]. rewrite <-Hs. by apply H.
    + split; [|done]. intros _ r Hr.
      assert (source r.2 ∈ [k]) as H by (apply Hkeys; by exists r).
      apply list_elem_of_singleton in H. congruence.
  - split; [done|]. intros H. exfalso.
    destruct (proj1 (Hkeys k)) as (r & Hr & Hs); [left|].
    destruct (proj1 (Hkeys k')) as (r' & Hr' & Hs'); [right; left|].
    apply NoDup_cons in Hnd as [Hnot _]. apply Hnot.
    assert (k = k') as -> by (by rewrite <-Hs, <-Hs', (H r Hr), (H r' Hr')). left.
Qed.

(** The check raises nothing but a [FatalError]. *)
Lemma _verify_sources_raise (e : Expression) (err : exn) :
  _verify_sources e = Raise err → ∃ msg, err = FatalError msg.
Proof.
  unfold _verify_sources.
  repeat match goal with |- context [if ?b then _ else _] => destruct b end;
    intros [= <-]; eauto.
Qed.

Lemma construct_expr_ok (ast : AST) (type : HailType) (indices : Indices)
    (aggregations : list Aggregation) (joins : list Join) (refs : list Ref)
    (e : Expression) :
  construct_expr ast type indices aggregations joins refs = Ok e →
  e = mkExpression ast type indices aggregations joins refs ∧ _verify_sources e = Ok tt.
Proof.
  unfold construct_expr, Expression_init.
  destruct (_verify_sources _) as [[]|err] eqn:E; simpl; [|done]. by intros [= <-].
Qed.

Lemma grounded_spec (e : Expression) :
  grounded e = true
  ↔ ∀ r, r ∈ _refs e → is_Some (source r.2) ∧ source r.2 = source (_indices e).
Proof.
  unfold grounded. rewrite forallb_elem_of. split; intros H r Hr.
  - specialize (H r Hr). apply andb_true_iff in H as [H1 H2].
    by apply bool_decide_eq_true in H1, H2.
  - destruct (H r Hr) as [H1 H2]. apply andb_true_iff.
    by rewrite !bool_decide_eq_true.
Qed.

Lemma grounded_consistent (e : Expression) : grounded e = true → source_consistent e.
Proof.
  rewrite grounded_spec, source_consistent_alt. intros H r Hr. by apply H.
Qed.

(** Constructing an expression whose refs all name the source of its indices
    succeeds. *)
Lemma construct_expr_grounded (ast : AST) (type : HailType) (indices : Indices)
    (aggregations : list Aggregation) (joins : list Join) (refs : list Ref) :
  grounded (mkExpression ast type indices aggregations joins refs) = true →
  construct_expr ast type indices aggregations joins refs
  = Ok (mkExpression ast type indices aggregations joins refs).
Proof.
  intros H. unfold construct_expr, Expression_init.
  by rewrite (proj2 (_verify_sources_ok_iff _) (grounded_consistent _ H)).
Qed.

Lemma returns_construct_expr (ast : AST) (type : HailType) (indices : Indices)
    (aggregations : list Aggregation) (joins : list Join) (refs : list Ref) :
  (∀ r, r ∈ refs → is_Some (source r.2) ∧ source r.2 = source indices) →
  returns (λ e, grounded e = true)
    (construct_expr ast type indices aggregations joins refs).
Proof.
  intros H.
  assert (grounded (mkExpression ast type indices aggregations joins refs) = true) as Hg
    by (by apply grounded_spec).
  by rewrite (construct_expr_grounded _ _ _ _ _ _ Hg).
Qed.

(** [unify_all] raises no fatal error, and the refs it returns name the
    source of the indices it returns when those of the operands do. *)
Lemma returns_unify_all (exprs : list Expression) :
  Forall (λ x, grounded x = true) exprs →
  returns
    (λ '(indices, _, _, refs),
       ∀ r : Ref, r ∈ refs → is_Some (source r.2) ∧ source r.2 = source indices)
    (unify_all exprs).
Proof.
  intros Hall. destruct exprs as [|first rest]; [done|].
  destruct (Indices_unify (map _indices (first :: rest))) as [new_indices|err] eqn:Hu.
  - unfold unify_all. rewrite Hu, push_all_reverse. simpl. intros r Hr.
    assert (∃ x, x ∈ first :: rest ∧ r ∈ _refs x) as (x & Hx & Hrx).
    { apply elem_of_app in Hr as [Hr|Hr].
      - rewrite elem_of_reverse in Hr.
        apply elem_of_concat in Hr as (l & (x & Hx & <-)%elem_of_map & Hr).
        exists x. split; [by right | done].
      - exists first. split; [left | done]. }
    rewrite Forall_forall in Hall. specialize (Hall x Hx).
    rewrite grounded_spec in Hall. destruct (Hall r Hrx) as [[s Hs] Heq].
    split; [by exists s|]. rewrite Hs.
    rewrite Indices_unify_spec in Hu.
    destruct (sources_agree _) eqn:Hagr; [|done]. injection Hu as <-. simpl. symmetry.
    apply (first_source_agree _ (_indices x) s); [done | | congruence].
    apply (elem_of_map _indices (first :: rest)). by exists x.
  - pose proof (Indices_unify_raise _ _ Hu) as ->.
    unfold unify_all. rewrite Hu. simpl. done.
Qed.

Arguments unify_all : simpl never.
Arguments construct_expr : simpl never.

Lemma returns_literal (x : pyval) (dtype : HailType) :
  returns (λ e, grounded e = true) (literal x dtype).
Proof.
  apply returns_construct_expr. intros r Hr. by apply elem_of_nil in Hr.
Qed.

Lemma returns_to_expr (o : operand) :
  (∀ e, o = OExpr e → grounded e = true) →
  returns (λ e, grounded e = true) (to_expr o).
Proof.
  destruct o as [e|v]; simpl; [by auto|]. intros _.
  apply (returns_bind (λ _, True)); [apply impute_type_returns|].
  intros dtype _. apply returns_literal.
Qed.

Lemma returns_to_expr_any (o : operand) : returns (λ _, True) (to_expr o).
Proof.
  destruct o as [e|v]; simpl; [done|].
  apply (returns_bind (λ _, True)); [apply impute_type_returns|].
  intros dtype _. eapply returns_weaken; [|apply returns_literal]. done.
Qed.

Lemma returns_to_expr_opt (o : option operand) :
  (∀ e, o = Some (OExpr e) → grounded e = true) →
  returns (λ x, ∀ e, x = Some e → grounded e = true) (to_expr_opt o).
Proof.
  destruct o as [o|]; simpl; [|done]. intros H.
  apply (returns_bind (λ e, grounded e = true)).
  - apply returns_to_expr. intros e ->. by apply H.
  - intros e He. simpl. by intros ? [= <-].
Qed.

(** Unifying grounded operands and constructing the result raises no fatal
    error and gives a grounded expression. *)
Lemma returns_unify_construct (exprs : list Expression) (ast : AST) (type : HailType) :
  Forall (λ x, grounded x = true) exprs →
  returns (λ e, grounded e = true)
    (let* (indices, aggregations, joins, refs) := unify_all exprs in
     construct_expr ast type indices aggregations joins refs).
Proof.
  intros Hall. eapply returns_bind; [by apply returns_unify_all|].
  intros [[[indices aggregations] joins] refs] H. by apply returns_construct_expr.
Qed.

Ltac grounded_list :=
  repeat (apply Forall_cons; split; [done|]); try apply Forall_nil_2; try done.

Lemma run_call_returns (self : Expression) (c : builder_call) (env : Env) :
  grounded self = true →
  (∀ o, operand_of self env c o → grounded o = true) →
  ¬ callback_fatal self c env →
  returns (λ e, grounded e = true) (run_call self c env).1.
Proof.
  intros Hself Hops Hcb. destruct c; simpl.
  - (* _unary_op *)
    apply returns_construct_expr. by apply grounded_spec.
  - (* _bin_op *)
    apply (returns_bind (λ e, grounded e = true)).
    + apply returns_to_expr. intros e ->. apply Hops. constructor.
    + intros o Ho. apply returns_unify_construct. grounded_list.
  - (* _bin_op_reverse *)
    apply (returns_bind (λ e, grounded e = true)).
    + apply returns_to_expr. intros e ->. apply Hops. constructor.
    + intros o Ho. apply returns_unify_construct. grounded_list.
  - (* _field *)
    apply returns_construct_expr. by apply grounded_spec.
  - (* _method *)
    apply (returns_bind (Forall (λ e, grounded e = true))).
    + apply returns_mapM. apply Forall_forall. intros o Ho.
      apply returns_to_expr. intros e ->. apply Hops. by constructor.
    + intros xs Hxs. apply returns_unify_construct. by apply Forall_cons.
  - (* _index *)
    apply (returns_bind (λ e, grounded e = true)).
    + apply returns_to_expr. intros e ->. apply Hops. constructor.
    + intros o Ho. apply returns_unify_construct. grounded_list.
  - (* _slice *)
    unfold _slice.
    apply (returns_bind (λ x, ∀ e, x = Some e → grounded e = true)).
    { apply returns_to_expr_opt. intros e ->. apply Hops. constructor. }
    intros start' Hstart.
    apply (returns_bind (λ x, ∀ e, x = Some e → grounded e = true)).
    { apply returns_to_expr_opt. intros e ->. apply Hops. constructor. }
    intros stop' Hstop. destruct step; [done|].
    apply returns_unify_construct. apply Forall_cons. split; [done|].
    destruct start' as [a|], stop' as [b|]; simpl; grounded_list; auto.
  - (* _bin_lambda_method *)
    unfold _bin_lambda_method. simpl.
    assert (placeholder self ("__uid_" +:+ pretty env) input_type
            = Ok (mkExpression (Reference ("__uid_" +:+ pretty env)) input_type
                    (_indices self) (_aggregations self) (_joins self) (_refs self)))
      as Hph.
    { apply construct_expr_grounded. by apply grounded_spec, grounded_spec. }
    unfold placeholder in Hph. rewrite Hph.
    simpl in Hcb. unfold placeholder in Hcb. rewrite Hph in Hcb.
    specialize (Hops) as Hbody.
    destruct (f _ (S env)) as [body env2] eqn:Hf. simpl in *.
    destruct body as [body|err]; simpl.
    + apply (returns_bind (λ e, grounded e = true)).
      * apply returns_to_expr. intros b ->. apply Hbody.
        eapply operand_lambda_body; [exact Hph | exact Hf].
      * intros lambda_result Hlr.
        eapply returns_bind; [apply returns_unify_all; grounded_list|].
        intros [[[indices aggregations] joins] refs] H.
        apply (returns_bind (λ _, True)).
        -- eapply returns_weaken; [|apply (returns_mapM (λ _, True) to_expr)]; [done|].
           apply Forall_forall. intros o _. apply returns_to_expr_any.
        -- intros xs _. by apply returns_construct_expr.
    + intros msg ->. by apply Hcb.
Qed.

Lemma run_call_ok_grounded (self : Expression) (c : builder_call) (env env' : Env)
    (e : Expression) :
  grounded self = true →
  (∀ o, operand_of self env c o → grounded o = true) →
  run_call self c env = (Ok e, env') →
  grounded e = true.
Proof.
  intros Hself Hops Hrun.
  assert (¬ callback_fatal self c env) as Hcb.
  { destruct c; simpl; try tauto.
    destruct (placeholder _ _ _) as [x|] eqn:Hph; [|tauto]. intros Hfatal.
    unfold run_call, _bin_lambda_method, _get_uid in Hrun.
    unfold placeholder in Hph. rewrite Hph in Hrun.
    destruct (f x (S env)) as [[body|[]] env2]; simpl in *; done. }
  pose proof (run_call_returns self c env Hself Hops Hcb) as H.
  by rewrite Hrun in H.
Qed.

(** Every expression reached from valid leaves is grounded. *)
Lemma built_grounded (e : Expression) : built e → grounded e = true.
Proof.
  induction 1 as [e Hleaf | self new_id input_type x _ IH Hph
                 | self c env e env' _ IHself _ IHops Hrun].
  - done.
  - apply construct_expr_ok in Hph as [-> _]. by apply grounded_spec, grounded_spec.
  - by eapply run_call_ok_grounded.
Qed.

(** Whatever a builder returns went through the check of the constructor. *)
Lemma bind_ok {A B : Type} (m : result A) (k : A → result B) (b : B) :
  (let* a := m in k a) = Ok b → ∃ a, m = Ok a ∧ k a = Ok b.
Proof. destruct m as [a|e]; simpl; [|done]. intros H. by exists a. Qed.

Lemma run_call_checked (self : Expression) (c : builder_call) (env env' : Env)
    (e : Expression) :
  run_call self c env = (Ok e, env') → _verify_sources e = Ok tt.
Proof.
  destruct c; simpl; intros [= H <-] || intros H.
  - by apply construct_expr_ok in H as [_ H].
  - apply bind_ok in H as (o & _ & H). apply bind_ok in H as ([[[? ?] ?] ?] & _ & H).
    by apply construct_expr_ok in H as [_ H].
  - apply bind_ok in H as (o & _ & H). apply bind_ok in H as ([[[? ?] ?] ?] & _ & H).
    by apply construct_expr_ok in H as [_ H].
  - by apply construct_expr_ok in H as [_ H].
  - apply bind_ok in H as (o & _ & H). apply bind_ok in H as ([[[? ?] ?] ?] & _ & H).
    by apply construct_expr_ok in H as [_ H].
  - apply bind_ok in H as (o & _ & H). apply bind_ok in H as ([[[? ?] ?] ?] & _ & H).
    by apply construct_expr_ok in H as [_ H].
  - unfold _slice in H. apply bind_ok in H as (a & _ & H). apply bind_ok in H as (b & _ & H).
    destruct step; [done|]. apply bind_ok in H as ([[[? ?] ?] ?] & _ & H).
    by apply construct_expr_ok in H as [_ H].
  - unfold _bin_lambda_method in H. simpl in H.
    destruct (construct_expr _ _ _ _ _ _) as [x|]; [|done].
    destruct (f x (S env)) as [body env2]. injection H as H <-.
    apply bind_ok in H as (o & _ & H). apply bind_ok in H as (lr & _ & H).
    apply bind_ok in H as ([[[? ?] ?] ?] & _ & H). apply bind_ok in H as (xs & _ & H).
    by apply construct_expr_ok in H as [_ H].
Qed.

(** C1.  Every expression reached from valid leaves by finitely many builder
    calls (unary and binary operations, field selects, method calls, indexing
    and slicing, lambda-bodied methods) satisfies the source-consistency
    invariant: every source in its refs is the source of its indices, and no
    two refs differ in their source.  The constructor checks the invariant of
    every expression: it returns the expression when the invariant holds and
    raises a [FatalError] when it does not, so that whatever a builder returns
    has passed the check.  On built operands a builder raises no [FatalError]
    (unless the callback it is given raises one itself); the errors that
    remain are the user-facing ones. *)
Theorem source_invariant_of_built :
  (∀ e, built e → source_consistent e ∧ _verify_sources e = Ok tt)
  ∧ (∀ ast type indices aggregations joins refs,
       let e := mkExpression ast type indices aggregations joins refs in
       (source_consistent e →
          construct_expr ast type indices aggregations joins refs = Ok e)
       ∧ (¬ source_consistent e →
            ∃ msg, construct_expr ast type indices aggregations joins refs
                   = Raise (FatalError msg)))
  ∧ (∀ self c env e env', run_call self c env = (Ok e, env') → source_consistent e)
  ∧ (∀ self c env,
       built self → (∀ o, operand_of self env c o → built o) →
       ¬ callback_fatal self c env →
       is_fatal (run_call self c env).1 = false).
Proof.
  split; [|split; [|split]].
  - intros e He. apply built_grounded, grounded_consistent in He.
    split; [done | by apply _verify_sources_ok_iff].
  - intros ast type indices aggregations joins refs e.
    unfold construct_expr, Expression_init. fold e. split.
    + intros H. apply _verify_sources_ok_iff in H. by rewrite H.
    + intros H. destruct (_verify_sources e) as [[]|err] eqn:E.
      * by apply _verify_sources_ok_iff in E.
      * apply _verify_sources_raise in E as [msg ->]. by exists msg.
  - intros self c env e env' H. by apply _verify_sources_ok_iff, (run_call_checked self c env env').
  - intros self c env Hself Hops Hcb.
    apply (returns_not_fatal (λ e, grounded e = true)), run_call_returns; [|  |done].
    + by apply built_grounded.
    + intros o Ho. by apply built_grounded, Hops.
Qed.

(** A chain of three calls from the field [x] of a source: [x + 1], a select
    on the sum, and a lambda-bodied method whose body is the placeholder. *)
Lemma source_invariant_of_built_witness :
  ∃ e1 e2 e3,
    run_call (sample_field 1 "x") (call_bin_op "+" (ONative (PyInt 1)) tint32) 0%nat
    = (Ok e1, 0%nat)
    ∧ run_call e1 (call_field "f" tstr) 0%nat = (Ok e2, 0%nat)
    ∧ run_call e2 (call_bin_lambda_method "map" identity_callback tstr tarray []) 0%nat
      = (Ok e3, 1%nat)
    ∧ source_consistent e3 ∧ _verify_sources e3 = Ok tt.
Proof.
  eexists _, _, _. split; [reflexivity|]. split; [reflexivity|]. split; [reflexivity|].
  apply (proj1 source_invariant_of_built).
  eapply (built_call _ (call_bin_lambda_method "map" identity_callback tstr tarray []) 0%nat).
  - eapply (built_call _ (call_field "f" tstr) 0%nat).
    + eapply (built_call (sample_field 1 "x")
                (call_bin_op "+" (ONative (PyInt 1)) tint32) 0%nat).
      * apply built_leaf. reflexivity.
      * intros o Ho. inversion Ho.
      * reflexivity.
    + intros o Ho. inversion Ho.
    + reflexivity.
  - intros o Ho. inversion Ho as [| | | | | |? ? ? ? ? x body env' Hph Hf]; subst.
    injection Hf as <- _.
    eapply built_placeholder; [|exact Hph].
    eapply (built_call _ (call_field "f" tstr) 0%nat).
    + eapply (built_call (sample_field 1 "x")
                (call_bin_op "+" (ONative (PyInt 1)) tint32) 0%nat).
      * apply built_leaf. reflexivity.
      * intros o Ho'. inversion Ho'.
      * reflexivity.
    + intros o Ho'. inversion Ho'.
    + reflexivity.
  - reflexivity.
Defined.

(** The constructor accepts [sourceless_ref], whose ref names no source; it is
    not grounded, and combining it with a field of a source is refused by the
    check.  This is why the refs of a valid leaf are asked to name a source. *)
Remark sourceless_ref_is_refused :
  _verify_sources sourceless_ref = Ok tt
  ∧ grounded sourceless_ref = false
  ∧ is_fatal (_bin_op (sample_field 1 "y") "+" (OExpr sourceless_ref) tint32) = true.
Proof. repeat split; reflexivity. Qed.

(** ** Field select *)

Lemma _verify_sources_lineage (e e' : Expression) :
  _indices e' = _indices e → _refs e' = _refs e →
  _verify_sources e' = _verify_sources e.
Proof. unfold _verify_sources. by intros -> ->. Qed.

(** C7 as stated fails: a select on an expression without refs gives an
    expression without refs; the name selected is not recorded. *)
Lemma field_records_nothing :
  _field sample_literal "x" tstr
  = Ok (mkExpression (Select (Literal (PyInt 1)) "x") tstr (mkIndices None ∅) [] [] [])
  ∧ ¬ ∃ e, _field sample_literal "x" tstr = Ok e
           ∧ ("x", _indices sample_literal) ∈ _refs e.
Proof.
  split; [reflexivity|]. intros (e & [= <-] & H). simpl in H. by apply elem_of_nil in H.
Qed.

(** C7, amended.  On every expression (one that its constructor accepted) and
    every field name, the field select returns the expression that wraps the
    receiver's AST in a [Select] of that name, with the type given and with
    the receiver's indices, aggregations, joins and refs, all four unchanged:
    nothing is added to refs. *)
Theorem field_preserves_lineage (self : Expression) (name : string)
    (ret_type : HailType) :
  _verify_sources self = Ok tt →
  ∃ e, _field self name ret_type = Ok e
       ∧ _ast e = Select (_ast self) name
       ∧ _type e = ret_type
       ∧ _indices e = _indices self
       ∧ _aggregations e = _aggregations self
       ∧ _joins e = _joins self
       ∧ _refs e = _refs self.
Proof.
  intros H.
  exists (mkExpression (Select (_ast self) name) ret_type (_indices self)
            (_aggregations self) (_joins self) (_refs self)).
  split; [|done].
  unfold _field, construct_expr, Expression_init.
  rewrite (_verify_sources_lineage self) by done. by rewrite H.
Qed.

Lemma field_preserves_lineage_witness :
  ∃ e, _field (sample_field 1 "x") "GT" tcall = Ok e
       ∧ _ast e = Select (_ast (sample_field 1 "x")) "GT"
       ∧ _type e = tcall
       ∧ _indices e = _indices (sample_field 1 "x")
       ∧ _aggregations e = _aggregations (sample_field 1 "x")
       ∧ _joins e = _joins (sample_field 1 "x")
       ∧ _refs e = _refs (sample_field 1 "x").
Proof. exact (field_preserves_lineage (sample_field 1 "x") "GT" tcall eq_refl). Defined.

(** ** Operations an expression refuses *)

(** C8.  On every expression and every operand the ordering comparisons
    raise; so do the truth test, iteration and the length query; and a slice
    with a step raises whatever its bounds are.  None of them returns. *)
Theorem unsupported_operations_raise (self : Expression) :
  (∀ other, ∃ msg, __lt__ self other = Raise (NotImplementedError msg))
  ∧ (∀ other, ∃ msg, __le__ self other = Raise (NotImplementedError msg))
  ∧ (∀ other, ∃ msg, __gt__ self other = Raise (NotImplementedError msg))
  ∧ (∀ other, ∃ msg, __ge__ self other = Raise (NotImplementedError msg))
  ∧ (∃ msg, __nonzero__ self = Raise (NotImplementedError msg))
  ∧ (∃ msg, truth_value self = Raise (TypeError msg))
  ∧ (∃ msg, __iter__ self = Raise (TypeError msg))
  ∧ (∃ msg, __len__ self = Raise (TypeError msg))
  ∧ (∀ ret_type start stop step,
       ∃ err, _slice self ret_type start stop (Some step) = Raise err)
  ∧ (∀ ret_type start stop step a b,
       to_expr_opt start = Ok a → to_expr_opt stop = Ok b →
       ∃ msg, _slice self ret_type start stop (Some step)
              = Raise (NotImplementedError msg)).
Proof.
  repeat split; try (intros; eexists; reflexivity); try (eexists; reflexivity).
  - intros ret_type start stop step. unfold _slice.
    destruct (to_expr_opt start) as [a|e1]; simpl; [|by eexists].
    destruct (to_expr_opt stop) as [b|e2]; simpl; by eexists.
  - intros ret_type start stop step a b Ha Hb. unfold _slice. rewrite Ha, Hb. simpl.
    by eexists.
Qed.

Lemma unsupported_operations_raise_witness :
  ∃ msg, _slice (sample_field 1 "x") (tarray tint32) (Some (ONative (PyInt 0))) None
           (Some (ONative (PyInt 2)))
         = Raise (NotImplementedError msg).
Proof.
  exact (proj2 (proj2 (proj2 (proj2 (proj2 (proj2 (proj2 (proj2 (proj2
           (unsupported_operations_raise (sample_field 1 "x"))))))))))
           (tarray tint32) (Some (ONative (PyInt 0))) None (ONative (PyInt 2))
           _ _ eq_refl eq_refl).
Defined.

(** ** Materialisation of a 1-axis expression over a matrix table *)

(** C5.  For an expression without aggregations, over one axis of a matrix
    table: when the reverse lookup of the source finds a field bound to this
    very expression object, [_to_table] selects the keys of the axis (and the
    field too if it is not one of them), renames the field to the name asked
    for and projects the axis; no field is derived.  Only when the lookup
    finds nothing does it derive a new field, bound to the expression. *)
Theorem to_table_reuses_field (deref : Source → SourceObject) (self_id : positive)
    (self : Expression) (name : string) (env : Env) (s : Source)
    (row_key col_key : list string) (_row_indices : Indices)
    (_fields_inverse : gmap positive string) :
  _aggregations self = [] →
  source (_indices self) = Some s →
  size (axes (_indices self)) = 1%nat →
  deref s = MatrixTable row_key col_key _row_indices _fields_inverse →
  let on_rows := Indices_eq (_indices self) _row_indices in
  let keys := if on_rows then row_key else col_key in
  let select_axis := if on_rows then select_rows else select_cols in
  let axis_of := if on_rows then rows_of else cols_of in
  (∀ field_name, _fields_inverse !! self_id = Some field_name →
     let fields := if bool_decide (field_name ∈ keys) then keys
                   else keys ++ [field_name] in
     let q := select_globals
                (axis_of (rename (select_axis (the_source s) fields [])
                            [(field_name, name)])) [] in
     _to_table deref self_id self name env = (Ok q, env) ∧ derives q = false)
  ∧ (_fields_inverse !! self_id = None →
     let q := select_globals
                (axis_of (select_axis (the_source s) keys [(name, bound_expr self)])) [] in
     _to_table deref self_id self name env = (Ok q, env) ∧ derives q = true).
Proof.
  intros Hagg Hsrc Haxes Hderef on_rows keys select_axis axis_of.
  unfold _to_table. rewrite Hagg, Hsrc, Haxes, Hderef. simpl.
  subst keys select_axis axis_of. fold on_rows. split.
  - intros field_name ->. destruct on_rows; simpl; by case_bool_decide.
  - intros ->. by destruct on_rows.
Qed.

Lemma to_table_reuses_field_witness :
  _to_table (λ _, sample_matrix) 7 (sample_field 1 "AC") "out" 0%nat
  = (Ok (select_globals
           (rows_of (rename (select_rows (the_source 1%positive) ["locus"; "AC"] [])
                       [("AC", "out")])) []), 0%nat)
  ∧ _to_table (λ _, sample_matrix) 8 (sample_field 1 "locus") "out" 0%nat
    = (Ok (select_globals
             (rows_of (rename (select_rows (the_source 1%positive) ["locus"] [])
                         [("locus", "out")])) []), 0%nat)
  ∧ _to_table (λ _, sample_matrix) 9 (sample_field 1 "AC") "out" 0%nat
    = (Ok (select_globals
             (rows_of (select_rows (the_source 1%positive) ["locus"]
                         [("out", bound_expr (sample_field 1 "AC"))])) []), 0%nat).
Proof.
  split; [|split].
  - exact (proj1 (proj1 (to_table_reuses_field (λ _, sample_matrix) 7
             (sample_field 1 "AC") "out" 0%nat 1%positive _ _ _ _
             eq_refl eq_refl eq_refl eq_refl) "AC" eq_refl)).
  - exact (proj1 (proj1 (to_table_reuses_field (λ _, sample_matrix) 8
             (sample_field 1 "locus") "out" 0%nat 1%positive _ _ _ _
             eq_refl eq_refl eq_refl eq_refl) "locus" eq_refl)).
  - exact (proj1 (proj2 (to_table_reuses_field (λ _, sample_matrix) 9
             (sample_field 1 "AC") "out" 0%nat 1%positive _ _ _ _
             eq_refl eq_refl eq_refl eq_refl) eq_refl)).
Defined.

(** ** Rendering *)

Lemma hex_digit_plain (n : nat) :
  hex_digit n ≠ backslash_char ∧ hex_digit n ≠ quote_char.
Proof. do 17 (destruct n as [|n]; [done|]). done. Qed.

Lemma well_escaped_plain (c : ascii) (s : string) :
  c ≠ backslash_char → c ≠ quote_char →
  well_escaped (String c s) = well_escaped s.
Proof.
  intros H1 H2. simpl. by rewrite !bool_decide_eq_false_2.
Qed.

Lemma well_escaped_escape_char (c : ascii) (rest : string) :
  well_escaped (escape_char quote_char c +:+ rest) = well_escaped rest.
Proof.
  unfold escape_char.
  destruct (bool_decide (c = quote_char) || bool_decide (c = backslash_char)) eqn:E.
  { done. }
  apply orb_false_iff in E as [Hq Hb]. apply bool_decide_eq_false in Hq, Hb.
  repeat match goal with
         | |- context [if ?b then _ else _] => destruct b; [done|]
         end.
  destruct (nat_of_ascii c <? 32)%nat.
  - change (well_escaped (String "0" (String "0"
              (String (hex_digit (nat_of_ascii c / 16))
                 (String (hex_digit (nat_of_ascii c mod 16)) rest))))
            = well_escaped rest).
    destruct (hex_digit_plain (nat_of_ascii c / 16)) as [? ?].
    destruct (hex_digit_plain (nat_of_ascii c mod 16)) as [? ?].
    by rewrite !well_escaped_plain.
  - by apply well_escaped_plain.
Qed.

(** What [escape_str] returns can stand between two quotes. *)
Lemma escape_str_well_escaped (s : string) : well_escaped (escape_str s) = true.
Proof.
  unfold escape_str. induction s as [|c s IH]; [done|].
  change (escape_with quote_char (String c s))
    with (escape_char quote_char c +:+ escape_with quote_char s).
  by rewrite well_escaped_escape_char.
Qed.

(** [MatrixAnnotateRowsTable] and [MatrixAnnotateColsTable] put their [root]
    between the quotes as it is, for every root. *)
Lemma render_annotate_root_raw (add_jir : positive → string) (child table : BaseIR)
    (root : string) :
  render add_jir (MatrixAnnotateRowsTable child table root None)
  = "(MatrixAnnotateRowsTable " +:+ quoted root +:+ " False "
      +:+ render add_jir child +:+ " " +:+ render add_jir table +:+ " )"
  ∧ render add_jir (MatrixAnnotateColsTable child table root)
    = "(MatrixAnnotateColsTable " +:+ quoted root +:+ " "
        +:+ render add_jir child +:+ " " +:+ render add_jir table +:+ ")".
Proof. split; reflexivity. Qed.

(** C10 fails on the code at the root made of [a], a double quote and [b]:
    [MatrixAnnotateRowsTable] renders it between quotes with its quote bare,
    where its sibling [UnlocalizeEntries] escapes the same text as its field
    name. *)
Theorem render_annotate_rows_unescaped (add_jir : positive → string) :
  render add_jir
    (MatrixAnnotateRowsTable (OtherIR "(m)") (OtherIR "(t)") root_with_quote None)
  = "(MatrixAnnotateRowsTable " +:+ quoted root_with_quote +:+ " False (m) (t) )"
  ∧ well_escaped root_with_quote = false
  ∧ render add_jir (UnlocalizeEntries (OtherIR "(m)") (OtherIR "(t)") root_with_quote)
    = "(UnlocalizeEntries " +:+ quoted (escape_str root_with_quote) +:+ " (m) (t))"
  ∧ well_escaped (escape_str root_with_quote) = true.
Proof. repeat split; reflexivity. Qed.

(** * Further properties of the two files *)

(** ** Type unification *)

Lemma all_identical_same_elements (ts ts' : list HailType) :
  (∀ x, x ∈ ts ↔ x ∈ ts') → all_identical ts = all_identical ts'.
Proof.
  intros H. apply option_eq. intros t. rewrite !all_identical_Some.
  split; intros [Ht Hall]; (split; [by apply H | intros u Hu; apply Hall; by apply H]).
Qed.

Lemma type_in_same_elements (t : HailType) (ts ts' : list HailType) :
  (∀ x, x ∈ ts ↔ x ∈ ts') → type_in t ts = type_in t ts'.
Proof. intros H. apply eq_true_iff_eq. rewrite !type_in_spec. apply H. Qed.

Lemma same_elements_nil {A : Type} (l : list A) :
  (∀ x, x ∈ [] ↔ x ∈ l) → l = [].
Proof.
  destruct l as [|a l]; [done|]. intros H.
  assert (a ∈ @nil A) as Ha by (apply H; left). by apply elem_of_nil in Ha.
Qed.

Lemma unify_types_limited_same_elements (ts ts' : list HailType) :
  (∀ x, x ∈ ts ↔ x ∈ ts') → unify_types_limited ts = unify_types_limited ts'.
Proof.
  intros H. destruct ts as [|t ts0].
  { by rewrite (same_elements_nil ts' H). }
  assert (ts' ≠ []) as Hne'.
  { intros ->. assert (t ∈ @nil HailType) as Ht by (apply H; left).
    by apply elem_of_nil in Ht. }
  rewrite !unify_types_limited_eq_spec by done. f_equal.
  unfold unify_types_limited_spec.
  rewrite (all_identical_same_elements _ _ H), (forallb_same_elements _ _ _ H),
    !(type_in_same_elements _ _ _ H). done.
Qed.

(** X1.  [unify_types_limited] and [unify_types] depend on the set of their
    arguments only: two argument lists with the same elements, in any order
    and with any repetitions, give the same outcome. *)
Theorem unify_types_set_invariant (ts ts' : list HailType) :
  (∀ x, x ∈ ts ↔ x ∈ ts') →
  unify_types_limited ts = unify_types_limited ts'
  ∧ unify_types ts = unify_types ts'.
Proof.
  intros H. split; [by apply unify_types_limited_same_elements|].
  unfold unify_types. rewrite (unify_types_limited_same_elements ts ts' H).
  rewrite (forallb_same_elements is_tarray ts ts' H).
  rewrite (unify_types_limited_same_elements (map element_type_of ts)
             (map element_type_of ts')); [done|].
  intros x. rewrite !elem_of_map. split; intros (y & Hy & <-); exists y; (split; [|done]);
    by apply H.
Qed.

Lemma unify_types_set_invariant_witness :
  unify_types_limited [tint32; tint64; tint32] = unify_types_limited [tint64; tint32]
  ∧ unify_types [tint32; tint64; tint32] = unify_types [tint64; tint32].
Proof.
  apply unify_types_set_invariant. intros x. rewrite !elem_of_cons. tauto.
Defined.

Lemma unify_types_limited_spec_elem (ts : list HailType) (t : HailType) :
  ts ≠ [] → unify_types_limited_spec ts = Some t → t ∈ ts.
Proof.
  intros Hne. unfold unify_types_limited_spec.
  destruct (all_identical ts) as [t'|] eqn:Hid.
  - intros [= <-]. by apply all_identical_Some in Hid as [? _].
  - destruct (forallb is_numeric ts) eqn:Hnum; [|done].
    destruct (type_in tfloat64 ts) eqn:H64; [intros [= <-]; by apply type_in_spec|].
    destruct (type_in tfloat32 ts) eqn:H32; [intros [= <-]; by apply type_in_spec|].
    intros [= <-].
    destruct (all_identical_None ts Hne Hid) as (a & b & Ha & Hb & Hab).
    rewrite forallb_elem_of in Hnum.
    assert (∀ x, x ∈ ts → x = tint32 ∨ x = tint64) as Hints.
    { intros x Hx. apply numeric_not_float; [by apply Hnum | |];
        intros ->; apply type_in_spec in Hx; congruence. }
    destruct (Hints a Ha) as [-> | ->], (Hints b Hb) as [-> | ->]; done.
Qed.

Lemma unify_types_limited_spec_absorbs (ts : list HailType) (t u : HailType) :
  unify_types_limited_spec ts = Some t → u ∈ ts →
  unify_types_limited [u; t] = Ok (Some t).
Proof.
  unfold unify_types_limited_spec.
  destruct (all_identical ts) as [t'|] eqn:Hid.
  - intros [= <-] Hu. apply all_identical_Some in Hid as [_ Hall].
    rewrite (Hall u Hu), unify_types_limited_eq_spec by done.
    unfold unify_types_limited_spec. simpl.
    by rewrite (bool_decide_eq_true_2 _ (eq_refl t')).
  - destruct (forallb is_numeric ts) eqn:Hnum; [|done].
    rewrite forallb_elem_of in Hnum.
    destruct (type_in tfloat64 ts) eqn:H64.
    { intros [= <-] Hu. specialize (Hnum u Hu). by destruct u. }
    destruct (type_in tfloat32 ts) eqn:H32.
    { intros [= <-] Hu. pose proof (Hnum u Hu) as Hn.
      assert (u ≠ tfloat64) by (intros ->; apply type_in_spec in Hu; congruence).
      by destruct u. }
    intros [= <-] Hu. pose proof (Hnum u Hu) as Hn.
    assert (u ≠ tfloat64) by (intros ->; apply type_in_spec in Hu; congruence).
    assert (u ≠ tfloat32) by (intros ->; apply type_in_spec in Hu; congruence).
    by destruct u.
Qed.

(** X2.  What limited unification returns is one of its arguments, and it
    absorbs every argument: unified with any of them it gives itself again.
    [unify_types] too returns one of its arguments. *)
Theorem unify_types_result_among_inputs (ts : list HailType) (t : HailType) :
  (unify_types_limited ts = Ok (Some t) →
     t ∈ ts ∧ ∀ u, u ∈ ts → unify_types_limited [u; t] = Ok (Some t))
  ∧ (unify_types ts = Ok (Some t) → t ∈ ts).
Proof.
  assert (unify_types_limited ts = Ok (Some t) → t ∈ ts) as Hlim.
  { intros H. destruct ts as [|a ts0]; [done|].
    rewrite unify_types_limited_eq_spec in H by done. injection H as H.
    by apply unify_types_limited_spec_elem. }
  split.
  - intros H. split; [by apply Hlim|]. intros u Hu.
    destruct ts as [|a ts0]; [done|].
    rewrite unify_types_limited_eq_spec in H by done. injection H as H.
    by apply (unify_types_limited_spec_absorbs (a :: ts0)).
  - unfold unify_types.
    destruct (unify_types_limited ts) as [[t'|]|e] eqn:Hl; simpl; [| |done].
    + intros [= <-]. by apply Hlim.
    + destruct (forallb is_tarray ts) eqn:Harr; [|done].
      destruct (unify_types_limited (map element_type_of ts)) as [[et|]|e] eqn:Hel;
        simpl; [|done|done].
      intros [= <-].
      assert (et ∈ map element_type_of ts) as Het.
      { destruct ts as [|a ts0]; [done|].
        rewrite unify_types_limited_eq_spec in Hel by done. injection Hel as Hel.
        by apply unify_types_limited_spec_elem. }
      apply elem_of_map in Het as (x & Hx & <-).
      rewrite forallb_elem_of in Harr. specialize (Harr x Hx). by destruct x.
Qed.

Lemma unify_types_result_among_inputs_witness :
  (tfloat32 ∈ [tint64; tfloat32; tint32]
   ∧ ∀ u, u ∈ [tint64; tfloat32; tint32] →
          unify_types_limited [u; tfloat32] = Ok (Some tfloat32))
  ∧ tarray tint64 ∈ [tarray tint32; tarray tint64].
Proof.
  split.
  - exact (proj1 (unify_types_result_among_inputs [tint64; tfloat32; tint32] tfloat32)
             eq_refl).
  - exact (proj2 (unify_types_result_among_inputs [tarray tint32; tarray tint64]
                    (tarray tint64)) eq_refl).
Defined.

(** X3.  [unify_types_limited] and [unify_types] raise in one case only: on
    no argument at all, where the [assert] of the numeric branch fails. *)
Theorem unify_types_raise_iff_empty (ts : list HailType) (e : exn) :
  (unify_types_limited ts = Raise e ↔ ts = [] ∧ e = AssertionError)
  ∧ (unify_types ts = Raise e ↔ ts = [] ∧ e = AssertionError).
Proof.
  assert (unify_types_limited ts = Raise e ↔ ts = [] ∧ e = AssertionError) as Hlim.
  { destruct ts as [|a ts0].
    - split; [by intros [= <-] | by intros [_ ->]].
    - rewrite unify_types_limited_eq_spec by done. split; [done | by intros [? _]]. }
  split; [done|]. destruct ts as [|a ts0].
  - split; [by intros [= <-] | by intros [_ ->]].
  - split; [|by intros [? _]]. unfold unify_types.
    rewrite (unify_types_limited_eq_spec (a :: ts0)) by done. unfold bind.
    destruct (unify_types_limited_spec (a :: ts0)); [done|].
    destruct (forallb is_tarray (a :: ts0)); [|done].
    rewrite (unify_types_limited_eq_spec (map element_type_of (a :: ts0))) by done.
    by destruct (unify_types_limited_spec _).
Qed.

Lemma unify_types_raise_iff_empty_witness :
  unify_types_limited [] = Raise AssertionError ∧ unify_types [] = Raise AssertionError.
Proof.
  split.
  - exact (proj2 (proj1 (unify_types_raise_iff_empty [] AssertionError))
             (conj eq_refl eq_refl)).
  - exact (proj2 (proj2 (unify_types_raise_iff_empty [] AssertionError))
             (conj eq_refl eq_refl)).
Defined.

(** ** Type imputation *)

Lemma outcome_bind {A B : Type} (P : A → Prop) (P' : B → Prop) (Q : exn → Prop)
    (m : result A) (k : A → result B) :
  outcome P Q m → (∀ a, m = Ok a → P a → outcome P' Q (k a)) →
  outcome P' Q (let* a := m in k a).
Proof. destruct m as [a|e]; simpl; [by auto | done]. Qed.

Lemma outcome_mapM {A B : Type} (P : B → Prop) (Q : exn → Prop) (f : A → result B)
    (l : list A) :
  Forall (λ x, outcome P Q (f x)) l → outcome (Forall P) Q (mapM f l).
Proof.
  induction 1 as [|x l Hx _ IH]; simpl; [by constructor|].
  destruct (f x) as [y|e]; simpl in *; [|done].
  destruct (mapM f l) as [ys|e]; simpl in *; [|done]. by constructor.
Qed.

Lemma mapM_Forall2 {A B : Type} (f : A → result B) (l : list A) (ys : list B) :
  mapM f l = Ok ys ↔ Forall2 (λ x y, f x = Ok y) l ys.
Proof.
  revert ys. induction l as [|x l IH]; intros ys; simpl.
  - split; [intros [= <-]; constructor | by inversion 1].
  - split.
    + destruct (f x) as [y|] eqn:Hx; simpl; [|done].
      destruct (mapM f l) as [ys0|] eqn:Hl; simpl; [|done]. intros [= <-].
      constructor; [done | by apply IH].
    + inversion 1 as [|? y ? ys0 Hx Hl]; subst. rewrite Hx. simpl.
      apply IH in Hl. rewrite Hl. done.
Qed.

Lemma mapM_length {A B : Type} (f : A → result B) (l : list A) (ys : list B) :
  mapM f l = Ok ys → length ys = length l.
Proof. intros H%mapM_Forall2. symmetry. by eapply Forall2_length. Qed.

Lemma mapM_elem_of {A B : Type} (f : A → result B) (l : list A) (ys : list B) (y : B) :
  mapM f l = Ok ys → y ∈ ys → ∃ x, x ∈ l ∧ f x = Ok y.
Proof.
  intros H%mapM_Forall2. induction H as [|x y' l ys Hx _ IH].
  - intros Hy. by apply elem_of_nil in Hy.
  - intros [->|Hy]%elem_of_cons.
    + exists x. split; [left | done].
    + destruct (IH Hy) as (x' & Hx' & Hf). exists x'. split; [by right | done].
Qed.

(** The element types of a non-empty container unify or not, without raising. *)
Lemma unify_element_types (ts : list HailType) :
  ts ≠ [] →
  unify_types_limited (remove_dups ts) = Ok (unify_types_limited_spec ts).
Proof.
  intros Hne. rewrite unify_types_limited_set. by apply unify_types_limited_eq_spec.
Qed.

Lemma length_eqb_0_true {A : Type} (l : list A) : (length l =? 0)%nat = true → l = [].
Proof. by destruct l. Qed.

Lemma mapM_fold {A B : Type} (f : A → result B) (l : list A) :
  (fix go (l : list A) : result (list B) :=
     match l with
     | [] => Ok []
     | x :: l' => let* y := f x in let* ys := go l' in Ok (y :: ys)
     end) l = mapM f l.
Proof. done. Qed.

(** X4.  Whatever native value it is given, at any depth of nesting,
    [impute_type] returns a type or raises an [ExpressionException] or the
    [ValueError] of an integer out of range: its assertions never fail and no
    other exception leaves it. *)
Theorem impute_type_user_errors (x : pyval) :
  outcome (λ _, True) imputation_error (impute_type x).
Proof.
  induction x as [| | z | | | | | |fields IH|elements IH|elements IH|elements IH|items IH|]
    using pyval_nested_ind; simpl; try done.
  - repeat match goal with |- context [if ?b then _ else _] => destruct b end; simpl; done.
  - rewrite ?mapM_fold.
    apply (outcome_bind (Forall (λ _, True))); [|done].
    apply (outcome_mapM (λ _, True)).
    eapply Forall_impl; [exact IH|]. intros kv Hkv. simpl in *.
    by destruct (impute_type kv.2).
  - rewrite ?mapM_fold. apply (outcome_bind (Forall (λ _, True))); [|done].
    by apply (outcome_mapM (λ _, True)).
  - destruct (length elements =? 0)%nat eqn:Hlen; [done|]. rewrite ?mapM_fold.
    apply (outcome_bind (Forall (λ _, True))); [by apply (outcome_mapM (λ _, True))|].
    intros ts Hts _. rewrite unify_element_types.
    + simpl. destruct (unify_types_limited_spec ts) as [t|]; simpl; [|done].
      by destruct (type_truth t).
    + eapply mapM_nonempty; [|exact Hts]. by intros ->.
  - destruct (length elements =? 0)%nat eqn:Hlen; [done|]. rewrite ?mapM_fold.
    apply (outcome_bind (Forall (λ _, True))); [by apply (outcome_mapM (λ _, True))|].
    intros ts Hts _. rewrite unify_element_types.
    + simpl. destruct (unify_types_limited_spec ts) as [t|]; simpl; [|done].
      by destruct (type_truth t).
    + eapply mapM_nonempty; [|exact Hts]. by intros ->.
  - destruct (length items =? 0)%nat eqn:Hlen; [done|]. rewrite ?mapM_fold.
    apply (outcome_bind (Forall (λ _, True))).
    { apply (outcome_mapM (λ _, True)). eapply Forall_impl; [exact IH|]. by intros kv [? ?]. }
    intros kts Hkts _.
    apply (outcome_bind (Forall (λ _, True))).
    { apply (outcome_mapM (λ _, True)). eapply Forall_impl; [exact IH|]. by intros kv [? ?]. }
    intros vts Hvts _.
    rewrite !unify_element_types.
    + simpl.
      destruct (unify_types_limited_spec kts) as [kt|],
        (unify_types_limited_spec vts) as [vt|]; simpl; try done;
        destruct (type_truth kt); simpl; try done; by destruct (type_truth vt).
    + eapply mapM_nonempty; [|exact Hvts]. by intros ->.
    + eapply mapM_nonempty; [|exact Hkts]. by intros ->.
Qed.

(** The equations of [impute_type] on containers. *)
Lemma impute_type_PyList (elements : list pyval) :
  impute_type (PyList elements)
  = if (length elements =? 0)%nat then Raise (ExpressionException EmptyList)
    else
      let* ts := mapM impute_type elements in
      let* unified_type := unify_types_limited (remove_dups ts) in
      if falsy unified_type then
        Raise (ExpressionException (HeterogeneousList (remove_dups ts)))
      else
        match unified_type with
        | Some t => Ok (tarray t)
        | None => Raise (ExpressionException (HeterogeneousList (remove_dups ts)))
        end.
Proof. done. Qed.

Lemma impute_type_PySet (elements : list pyval) :
  impute_type (PySet elements)
  = if (length elements =? 0)%nat then Raise (ExpressionException EmptySet)
    else
      let* ts := mapM impute_type elements in
      let* unified_type := unify_types_limited (remove_dups ts) in
      if falsy unified_type then
        Raise (ExpressionException (HeterogeneousSet (remove_dups ts)))
      else
        match unified_type with
        | Some t => Ok (tset t)
        | None => Raise (ExpressionException (HeterogeneousSet (remove_dups ts)))
        end.
Proof. done. Qed.

Lemma impute_type_PyDict (items : list (pyval * pyval)) :
  impute_type (PyDict items)
  = if (length items =? 0)%nat then Raise (ExpressionException EmptyDict)
    else
      let* kts := mapM (λ kv, impute_type kv.1) items in
      let* vts := mapM (λ kv, impute_type kv.2) items in
      let* unified_key_type := unify_types_limited (remove_dups kts) in
      let* unified_value_type := unify_types_limited (remove_dups vts) in
      if falsy unified_key_type then
        Raise (ExpressionException (HeterogeneousDictKeys (remove_dups kts)))
      else if falsy unified_value_type then
        Raise (ExpressionException (HeterogeneousDictValues (remove_dups vts)))
      else
        match unified_key_type, unified_value_type with
        | Some kt, Some vt => Ok (tdict kt vt)
        | None, _ => Raise (ExpressionException (HeterogeneousDictKeys (remove_dups kts)))
        | Some _, None =>
            Raise (ExpressionException (HeterogeneousDictValues (remove_dups vts)))
        end.
Proof. done. Qed.

Lemma impute_type_PyStruct (fields : list (string * pyval)) :
  impute_type (PyStruct fields)
  = let* fts := mapM (λ kv, let* t := impute_type kv.2 in Ok (kv.1, t)) fields in
    Ok (tstruct fts).
Proof. done. Qed.

Lemma impute_type_PyTuple (elements : list pyval) :
  impute_type (PyTuple elements)
  = let* ts := mapM impute_type elements in Ok (ttuple ts).
Proof. done. Qed.

(** X5.  A struct is typed field by field and a tuple element by element:
    when [impute_type] returns, the struct type has the same field names in
    the same order, each with the type of its value, and the tuple type has
    one type for each element in order.  Unlike lists, sets and dicts, an
    empty struct or tuple is typed. *)
Theorem impute_type_struct_tuple :
  (∀ fields t, impute_type (PyStruct fields) = Ok t →
     ∃ fts, t = tstruct fts ∧ fts.*1 = fields.*1
            ∧ Forall2 (λ kv ft, impute_type kv.2 = Ok ft.2) fields fts)
  ∧ (∀ elements t, impute_type (PyTuple elements) = Ok t →
       ∃ ts, t = ttuple ts ∧ Forall2 (λ x u, impute_type x = Ok u) elements ts)
  ∧ impute_type (PyStruct []) = Ok (tstruct [])
  ∧ impute_type (PyTuple []) = Ok (ttuple []).
Proof.
  split; [|split; [|split; reflexivity]].
  - intros fields t. rewrite impute_type_PyStruct.
    destruct (mapM (λ kv : string * pyval, let* t := impute_type kv.2 in Ok (kv.1, t)) fields)
      as [fts|] eqn:Hm; simpl; [|done].
    intros [= <-]. exists fts. split; [done|].
    apply mapM_Forall2 in Hm. induction Hm as [|kv ft fields fts Hkv _ [IH1 IH2]].
    + split; [done | constructor].
    + destruct (impute_type kv.2) as [u|] eqn:Hu; simpl in Hkv; [|done].
      injection Hkv as <-. split; [by rewrite !fmap_cons, IH1 | by constructor].
  - intros elements t. rewrite impute_type_PyTuple.
    destruct (mapM impute_type elements) as [ts|] eqn:Hm; simpl; [|done].
    intros [= <-]. exists ts. split; [done | by apply mapM_Forall2].
Qed.

Lemma impute_type_struct_tuple_witness :
  (∃ fts, tstruct [("a", tint32); ("b", tstr)] = tstruct fts
          ∧ fts.*1 = ["a"; "b"]
          ∧ Forall2 (λ kv ft, impute_type kv.2 = Ok ft.2)
              [("a", PyInt 1); ("b", PyStr "x")] fts)
  ∧ ∃ ts, ttuple [tint32; tstr] = ttuple ts
          ∧ Forall2 (λ x u, impute_type x = Ok u) [PyInt 1; PyStr "x"] ts.
Proof.
  split.
  - exact (proj1 impute_type_struct_tuple [("a", PyInt 1); ("b", PyStr "x")] _ eq_refl).
  - exact (proj1 (proj2 impute_type_struct_tuple) [PyInt 1; PyStr "x"] _ eq_refl).
Defined.

(** X6.  A non-empty set whose elements have types is the set of their
    unified type when that type is true; when the element types do not unify,
    or unify to a type that is false (a struct type without fields), the
    exception of a heterogeneous set leaves, its message listing the set of
    the element types.  A non-empty dict whose keys and values have types is
    the dict of the unified key type and the unified value type when both are
    true; the key types are tested first, so that keys without a true unified
    type are reported whatever the values are, and values only when the keys
    pass.  The types of the keys are imputed first: an exception from a key
    leaves before any value is looked at. *)
Theorem impute_type_set_dict :
  (∀ elements ts u, elements ≠ [] → mapM impute_type elements = Ok ts →
     unify_types_limited ts = Ok u →
     (∀ t, u = Some t → type_truth t = true → impute_type (PySet elements) = Ok (tset t))
     ∧ (falsy u = true →
          ∃ payload, impute_type (PySet elements)
                     = Raise (ExpressionException (HeterogeneousSet payload))
                     ∧ lists_set payload ts))
  ∧ (∀ items kts vts uk uv, items ≠ [] →
       mapM (λ kv, impute_type kv.1) items = Ok kts →
       mapM (λ kv, impute_type kv.2) items = Ok vts →
       unify_types_limited kts = Ok uk → unify_types_limited vts = Ok uv →
       (∀ kt vt, uk = Some kt → uv = Some vt → type_truth kt = true →
          type_truth vt = true → impute_type (PyDict items) = Ok (tdict kt vt))
       ∧ (falsy uk = true →
            ∃ payload, impute_type (PyDict items)
                       = Raise (ExpressionException (HeterogeneousDictKeys payload))
                       ∧ lists_set payload kts)
       ∧ (falsy uk = false → falsy uv = true →
            ∃ payload, impute_type (PyDict items)
                       = Raise (ExpressionException (HeterogeneousDictValues payload))
                       ∧ lists_set payload vts))
  ∧ (∀ items e, items ≠ [] → mapM (λ kv, impute_type kv.1) items = Raise e →
       impute_type (PyDict items) = Raise e).
Proof.
  split; [|split].
  - intros elements ts u Hne Hts Hu.
    rewrite impute_type_PySet, (length_eqb_0_false _ Hne), Hts. simpl.
    rewrite unify_types_limited_set, Hu. simpl. split.
    + intros t -> Ht. simpl. by rewrite Ht.
    + intros ->. exists (remove_dups ts). split; [done | apply lists_set_remove_dups].
  - intros items kts vts uk uv Hne Hk Hv Huk Huv.
    rewrite impute_type_PyDict, (length_eqb_0_false _ Hne), Hk, Hv. simpl.
    rewrite !unify_types_limited_set, Huk, Huv. simpl. split; [|split].
    + intros kt vt -> -> Hkt Hvt. simpl. by rewrite Hkt, Hvt.
    + intros ->. exists (remove_dups kts). split; [done | apply lists_set_remove_dups].
    + intros -> ->. exists (remove_dups vts). split; [done | apply lists_set_remove_dups].
  - intros items e Hne Hk. rewrite impute_type_PyDict, (length_eqb_0_false _ Hne).
    by rewrite Hk.
Qed.

(** A set of an integer and a float is a set of float64; a dict whose one
    value is a struct without fields raises for its values, and one with a
    string key and an integer key raises for its keys; a key [None] raises
    before the value is looked at. *)
Lemma impute_type_set_dict_witness :
  impute_type (PySet [PyInt 1; PyFloat 0]) = Ok (tset tfloat64)
  ∧ (∃ payload, impute_type (PyDict [(PyStr "a", PyStruct [])])
                = Raise (ExpressionException (HeterogeneousDictValues payload))
                ∧ lists_set payload [tstruct []])
  ∧ (∃ payload, impute_type (PyDict [(PyStr "a", PyInt 1); (PyInt 2, PyStr "b")])
                = Raise (ExpressionException (HeterogeneousDictKeys payload))
                ∧ lists_set payload [tstr; tint32])
  ∧ impute_type (PyDict [(PyNone, PyObject "X")]) = Raise (ExpressionException ImputeNone).
Proof.
  destruct impute_type_set_dict as (Hset & Hdict & Hkey).
  split; [|split; [|split]].
  - exact (proj1 (Hset [PyInt 1; PyFloat 0] [tint32; tfloat64] (Some tfloat64)
                    ltac:(discriminate) eq_refl eq_refl) tfloat64 eq_refl eq_refl).
  - exact (proj2 (proj2 (Hdict [(PyStr "a", PyStruct [])] [tstr] [tstruct []]
                           (Some tstr) (Some (tstruct []))
                           ltac:(discriminate) eq_refl eq_refl eq_refl eq_refl))
             eq_refl eq_refl).
  - exact (proj1 (proj2 (Hdict [(PyStr "a", PyInt 1); (PyInt 2, PyStr "b")]
                           [tstr; tint32] [tint32; tstr] None None
                           ltac:(discriminate) eq_refl eq_refl eq_refl eq_refl))
             eq_refl).
  - exact (Hkey [(PyNone, PyObject "X")] _ ltac:(discriminate) eq_refl).
Defined.

Lemma mapM_perm {A B : Type} (f : A → result B) (l l' : list A) (ys : list B) :
  l ≡ₚ l' → mapM f l = Ok ys → ∃ ys', mapM f l' = Ok ys' ∧ ys ≡ₚ ys'.
Proof.
  intros Hp. revert ys. induction Hp as [|x l l' _ IH|x y l|l l' l'' _ IH1 _ IH2]; intros ys.
  - intros [= <-]. by exists [].
  - simpl. destruct (f x) as [b|]; simpl; [|done].
    destruct (mapM f l) as [ys0|]; simpl; [|done]. intros [= <-].
    destruct (IH ys0 eq_refl) as (ys' & -> & Hys). simpl. exists (b :: ys').
    split; [done | by constructor].
  - simpl. destruct (f y) as [b|]; simpl; [|done]. destruct (f x) as [a|]; simpl; [|done].
    destruct (mapM f l) as [ys0|]; simpl; [|done]. intros [= <-].
    exists (a :: b :: ys0). split; [done | apply perm_swap].
  - intros H. destruct (IH1 ys H) as (ys1 & H1 & Hp1).
    destruct (IH2 ys1 H1) as (ys2 & H2 & Hp2). exists ys2. split; [done | by etrans].
Qed.

Lemma unify_types_limited_spec_perm (ts ts' : list HailType) :
  ts ≡ₚ ts' → unify_types_limited_spec ts = unify_types_limited_spec ts'.
Proof.
  intros Hp. assert (∀ x, x ∈ ts ↔ x ∈ ts') as H by (intros x; by rewrite Hp).
  unfold unify_types_limited_spec.
  by rewrite (all_identical_same_elements _ _ H), (forallb_same_elements _ _ _ H),
    !(type_in_same_elements _ _ _ H).
Qed.

(** X7.  The type of a list or of a set does not depend on the order of its
    elements: when [impute_type] returns a type for a list, it returns the
    same type for every rearrangement of it, and likewise for a set. *)
Theorem impute_type_order_insensitive (elements elements' : list pyval) (t : HailType) :
  elements ≡ₚ elements' →
  (impute_type (PyList elements) = Ok t → impute_type (PyList elements') = Ok t)
  ∧ (impute_type (PySet elements) = Ok t → impute_type (PySet elements') = Ok t).
Proof.
  intros Hp.
  assert (elements ≠ [] → elements' ≠ []) as Hne'.
  { intros Hne ->. by apply Permutation_nil_r in Hp. }
  split; rewrite ?impute_type_PyList, ?impute_type_PySet.
  - destruct (length elements =? 0)%nat eqn:Hlen; [done|].
    assert (elements ≠ []) as Hne by (by intros ->).
    rewrite (length_eqb_0_false _ (Hne' Hne)).
    destruct (mapM impute_type elements) as [ts|] eqn:Hts; simpl; [|done].
    destruct (mapM_perm _ _ _ _ Hp Hts) as (ts' & -> & Hpts). simpl.
    assert (ts ≠ []) as Hnets by (by eapply mapM_nonempty).
    assert (ts' ≠ []) as Hnets' by (intros ->; by apply Permutation_nil_r in Hpts).
    rewrite !unify_element_types by done.
    rewrite (unify_types_limited_spec_perm ts ts' Hpts). simpl.
    destruct (unify_types_limited_spec ts') as [u|]; simpl; [|done].
    by destruct (type_truth u).
  - destruct (length elements =? 0)%nat eqn:Hlen; [done|].
    assert (elements ≠ []) as Hne by (by intros ->).
    rewrite (length_eqb_0_false _ (Hne' Hne)).
    destruct (mapM impute_type elements) as [ts|] eqn:Hts; simpl; [|done].
    destruct (mapM_perm _ _ _ _ Hp Hts) as (ts' & -> & Hpts). simpl.
    assert (ts ≠ []) as Hnets by (by eapply mapM_nonempty).
    assert (ts' ≠ []) as Hnets' by (intros ->; by apply Permutation_nil_r in Hpts).
    rewrite !unify_element_types by done.
    rewrite (unify_types_limited_spec_perm ts ts' Hpts). simpl.
    destruct (unify_types_limited_spec ts') as [u|]; simpl; [|done].
    by destruct (type_truth u).
Qed.

Lemma impute_type_order_insensitive_witness :
  impute_type (PyList [PyInt (2 ^ 40); PyInt 1]) = Ok (tarray tint64)
  ∧ impute_type (PySet [PyInt (2 ^ 40); PyInt 1]) = Ok (tset tint64).
Proof.
  destruct (impute_type_order_insensitive [PyInt 1; PyInt (2 ^ 40)]
              [PyInt (2 ^ 40); PyInt 1] (tarray tint64) (perm_swap _ _ _)) as [Hl _].
  destruct (impute_type_order_insensitive [PyInt 1; PyInt (2 ^ 40)]
              [PyInt (2 ^ 40); PyInt 1] (tset tint64) (perm_swap _ _ _)) as [_ Hs].
  split; [exact (Hl eq_refl) | exact (Hs eq_refl)].
Defined.

(** X8.  The element type of an imputed array or set is the type of one of
    the elements: limited unification widens to a type that is present, it
    never invents one. *)
Theorem impute_type_element_type (elements : list pyval) (t : HailType) :
  (impute_type (PyList elements) = Ok t →
     ∃ et x, t = tarray et ∧ x ∈ elements ∧ impute_type x = Ok et)
  ∧ (impute_type (PySet elements) = Ok t →
       ∃ et x, t = tset et ∧ x ∈ elements ∧ impute_type x = Ok et).
Proof.
  split; rewrite ?impute_type_PyList, ?impute_type_PySet.
  - destruct (length elements =? 0)%nat eqn:Hlen; [done|].
    assert (elements ≠ []) as Hne by (by intros ->).
    destruct (mapM impute_type elements) as [ts|] eqn:Hts; simpl; [|done].
    assert (ts ≠ []) as Hnets by (by eapply mapM_nonempty).
    rewrite unify_element_types by done. simpl.
    destruct (unify_types_limited_spec ts) as [et|] eqn:Hu; simpl; [|done].
    destruct (type_truth et); simpl; [|done]. intros [= <-].
    apply unify_types_limited_spec_elem in Hu; [|done].
    destruct (mapM_elem_of _ _ _ _ Hts Hu) as (x & Hx & Hf). by exists et, x.
  - destruct (length elements =? 0)%nat eqn:Hlen; [done|].
    assert (elements ≠ []) as Hne by (by intros ->).
    destruct (mapM impute_type elements) as [ts|] eqn:Hts; simpl; [|done].
    assert (ts ≠ []) as Hnets by (by eapply mapM_nonempty).
    rewrite unify_element_types by done. simpl.
    destruct (unify_types_limited_spec ts) as [et|] eqn:Hu; simpl; [|done].
    destruct (type_truth et); simpl; [|done]. intros [= <-].
    apply unify_types_limited_spec_elem in Hu; [|done].
    destruct (mapM_elem_of _ _ _ _ Hts Hu) as (x & Hx & Hf). by exists et, x.
Qed.

Lemma impute_type_element_type_witness :
  ∃ et x, tarray tfloat64 = tarray et ∧ x ∈ [PyInt 1; PyFloat 0; PyInt 2]
          ∧ impute_type x = Ok et.
Proof.
  exact (proj1 (impute_type_element_type [PyInt 1; PyFloat 0; PyInt 2] (tarray tfloat64))
           eq_refl).
Defined.

(** ** [Indices] *)

Lemma Indices_eta (i : Indices) : mkIndices (source i) (axes i) = i.
Proof. by destruct i. Qed.

Lemma unify_from_app (src : option Source) (acc : gset string) (l1 l2 : list Indices) :
  unify_from src acc (l1 ++ l2)
  = let* i := unify_from src acc l1 in unify_from (source i) (axes i) l2.
Proof.
  revert src acc. induction l1 as [|ind l1 IH]; intros src acc; simpl; [done|].
  destruct src as [s|]; simpl.
  - destruct (source ind) as [s'|]; simpl; [|apply IH].
    case_bool_decide; simpl; [done | apply IH].
  - apply IH.
Qed.

Lemma Indices_unify_singleton (i : Indices) : Indices_unify [i] = Ok i.
Proof.
  unfold Indices_unify. simpl. by rewrite (left_id_L ∅ (∪)), Indices_eta.
Qed.

Lemma unify_from_state (i : Indices) (l : list Indices) :
  unify_from (source i) (axes i) l = Indices_unify (i :: l).
Proof.
  unfold Indices_unify. simpl. by rewrite (left_id_L ∅ (∪)).
Qed.

(** X9.  [Indices.unify] composes: unifying two groups of indices one after
    the other is unifying the results of the two groups, when both groups
    unify; and a group that does not unify makes the whole fail. *)
Theorem Indices_unify_app (l1 l2 : list Indices) :
  (∀ a b, Indices_unify l1 = Ok a → Indices_unify l2 = Ok b →
     Indices_unify (l1 ++ l2) = Indices_unify [a; b])
  ∧ (∀ e, Indices_unify l1 = Raise e → Indices_unify (l1 ++ l2) = Raise e)
  ∧ (∀ e, Indices_unify l2 = Raise e → Indices_unify (l1 ++ l2) = Raise e).
Proof.
  split; [|split].
  - intros a b Ha Hb. unfold Indices_unify at 1. rewrite unify_from_app.
    fold (Indices_unify l1). rewrite Ha. simpl. rewrite unify_from_state.
    rewrite !Indices_unify_spec. rewrite Indices_unify_spec in Hb.
    destruct (sources_agree l2) eqn:H2; [|done]. injection Hb as <-.
    assert (sources_agree (a :: l2)
            = sources_agree [a; mkIndices (first_source l2) (⋃ (axes <$> l2))]) as Hagr.
    { apply eq_true_iff_eq. rewrite !sources_agree_pairwise. split.
      - intros H x y sx sy Hx Hy Hsx Hsy.
        assert (∀ z sz, z ∈ [a; mkIndices (first_source l2) (⋃ (axes <$> l2))] →
                  source z = Some sz → ∃ z', z' ∈ a :: l2 ∧ source z' = Some sz) as Hin.
        { intros z sz [->|[->|Hz%elem_of_nil]%elem_of_cons]%elem_of_cons Hsz; [| |done].
          - exists a. split; [left | done].
          - simpl in Hsz. destruct (first_source_elem l2 sz Hsz) as (z' & Hz' & Hs').
            exists z'. split; [by right | done]. }
        destruct (Hin x sx Hx Hsx) as (x' & Hx' & Hsx').
        destruct (Hin y sy Hy Hsy) as (y' & Hy' & Hsy').
        by apply (H x' y' sx sy).
      - intros H x y sx sy Hx Hy Hsx Hsy.
        assert (∀ z sz, z ∈ a :: l2 → source z = Some sz →
                  ∃ z', z' ∈ [a; mkIndices (first_source l2) (⋃ (axes <$> l2))]
                        ∧ source z' = Some sz) as Hin.
        { intros z sz [->|Hz]%elem_of_cons Hsz.
          - exists a. split; [left | done].
          - exists (mkIndices (first_source l2) (⋃ (axes <$> l2))).
            split; [right; left|]. simpl. by apply (first_source_agree l2 z). }
        destruct (Hin x sx Hx Hsx) as (x' & Hx' & Hsx').
        destruct (Hin y sy Hy Hsy) as (y' & Hy' & Hsy').
        by apply (H x' y' sx sy). }
    rewrite Hagr. destruct (sources_agree [a; _]) eqn:Hab; [|done]. do 2 f_equal.
    + rewrite !first_source_cons. simpl. destruct (source a); [done|].
      by destruct (first_source l2).
    + simpl. by rewrite (right_id_L ∅ (∪)).
  - intros e He. unfold Indices_unify at 1. rewrite unify_from_app.
    fold (Indices_unify l1). by rewrite He.
  - intros e He. pose proof (Indices_unify_raise _ _ He) as ->.
    rewrite Indices_unify_spec in He. rewrite Indices_unify_spec.
    destruct (sources_agree l2) eqn:H2; [done|].
    destruct (sources_agree (l1 ++ l2)) eqn:H12; [|done]. exfalso.
    rewrite sources_agree_pairwise in H12.
    assert (sources_agree l2 = true); [|congruence].
    apply sources_agree_pairwise. intros x y sx sy Hx Hy. apply H12; apply elem_of_app; by right.
Qed.

Lemma Indices_unify_app_witness :
  Indices_unify ([mkIndices (Some 1%positive) {["r"]}; mkIndices None {["c"]}]
                   ++ [mkIndices (Some 1%positive) ∅])
  = Indices_unify [mkIndices (Some 1%positive) (∅ ∪ {["r"]} ∪ {["c"]});
                   mkIndices (Some 1%positive) (∅ ∪ ∅)]
  ∧ Indices_unify ([mkIndices None ∅]
                     ++ [mkIndices (Some 1%positive) ∅; mkIndices (Some 2%positive) ∅])
    = Raise (ExpressionException SourceMismatch).
Proof.
  split.
  - exact (proj1 (Indices_unify_app
                    [mkIndices (Some 1%positive) {["r"]}; mkIndices None {["c"]}]
                    [mkIndices (Some 1%positive) ∅]) _ _ eq_refl eq_refl).
  - exact (proj2 (proj2 (Indices_unify_app [mkIndices None ∅]
                           [mkIndices (Some 1%positive) ∅; mkIndices (Some 2%positive) ∅]))
             _ eq_refl).
Defined.

(** X10.  The default [Indices()] (no source, no axes) is neutral for
    [Indices.unify], a single input unifies to itself, and repeating an input
    changes nothing. *)
Theorem Indices_unify_neutral_idempotent (i : Indices) (l : list Indices) :
  Indices_unify (mkIndices None ∅ :: l) = Indices_unify l
  ∧ Indices_unify [i] = Ok i
  ∧ Indices_unify (i :: i :: l) = Indices_unify (i :: l).
Proof.
  split; [|split].
  - unfold Indices_unify. simpl. by rewrite (left_id_L ∅ (∪)).
  - apply Indices_unify_singleton.
  - unfold Indices_unify. simpl. rewrite (left_id_L ∅ (∪)).
    destruct (source i) as [s|] eqn:Hs; simpl.
    + rewrite bool_decide_eq_false_2 by (intros H; by apply H). simpl.
      by rewrite (idemp_L (∪)).
    + by rewrite (idemp_L (∪)).
Qed.

(** X11.  When [Indices.unify] succeeds, the result covers every input and
    nothing more: each input's axes are among the result's axes and each
    result axis comes from some input; each input has no source or the
    source of the result; and the result has no source only if no input has
    one. *)
Theorem Indices_unify_bounds (l : list Indices) (r : Indices) :
  Indices_unify l = Ok r →
  (∀ i, i ∈ l → axes i ⊆ axes r ∧ (source i = None ∨ source i = source r))
  ∧ (∀ x, x ∈ axes r → ∃ i, i ∈ l ∧ x ∈ axes i)
  ∧ (source r = None ↔ ∀ i, i ∈ l → source i = None).
Proof.
  rewrite Indices_unify_spec. destruct (sources_agree l) eqn:Hagr; [|done].
  intros [= <-]. simpl. split; [|split].
  - intros i Hi. split.
    + intros x Hx. apply elem_of_union_list. exists (axes i). split; [|done].
      apply list_elem_of_fmap. by exists i.
    + destruct (source i) as [s|] eqn:Hs; [|by left]. right. symmetry.
      by apply (first_source_agree l i s).
  - intros x (X & (i & -> & Hi)%list_elem_of_fmap & Hx)%elem_of_union_list. by exists i.
  - apply first_source_None.
Qed.

Lemma Indices_unify_bounds_witness :
  axes (mkIndices None {["c"]}) ⊆ axes (mkIndices (Some 1%positive) (∅ ∪ {["r"]} ∪ {["c"]}))
  ∧ (source (mkIndices None {["c"]}) = None
     ∨ source (mkIndices None {["c"]})
       = source (mkIndices (Some 1%positive) (∅ ∪ {["r"]} ∪ {["c"]}))).
Proof.
  apply (proj1 (Indices_unify_bounds
                  [mkIndices (Some 1%positive) {["r"]}; mkIndices None {["c"]}]
                  (mkIndices (Some 1%positive) (∅ ∪ {["r"]} ∪ {["c"]})) eq_refl)).
  right. left.
Defined.

(** ** Builders *)

Lemma construct_expr_same_lineage (self : Expression) (ast : AST) (type : HailType)
    (aggregations : list Aggregation) (joins : list Join) :
  _verify_sources self = Ok tt →
  construct_expr ast type (_indices self) aggregations joins (_refs self)
  = Ok (mkExpression ast type (_indices self) aggregations joins (_refs self)).
Proof.
  intros H. unfold construct_expr, Expression_init.
  rewrite (_verify_sources_lineage self) by done. by rewrite H.
Qed.

(** The outcome of the constructor does not depend on the AST, the type, the
    aggregations or the joins. *)
Lemma construct_expr_swap (ast ast' : AST) (type type' : HailType) (indices : Indices)
    (aggregations aggregations' : list Aggregation) (joins joins' : list Join)
    (refs : list Ref) :
  construct_expr ast' type' indices aggregations' joins' refs
  = match construct_expr ast type indices aggregations joins refs with
    | Ok _ => Ok (mkExpression ast' type' indices aggregations' joins' refs)
    | Raise e => Raise e
    end.
Proof.
  unfold construct_expr, Expression_init.
  rewrite (_verify_sources_lineage
             (mkExpression ast type indices aggregations joins refs)
             (mkExpression ast' type' indices aggregations' joins' refs)) by done.
  by destruct (_verify_sources _).
Qed.

Lemma unify_all_singleton (e : Expression) :
  unify_all [e] = Ok (_indices e, _aggregations e, _joins e, _refs e).
Proof.
  unfold unify_all. change (map _indices [e]) with [_indices e].
  by rewrite Indices_unify_singleton.
Qed.

(** X12.  The builders that involve the receiver alone keep its lineage: on
    an expression that its constructor accepted, a unary operation (which
    keeps the type too), a method call without arguments and a slice without
    bounds and step return the wrapped AST with the receiver's indices,
    aggregations, joins and refs. *)
Theorem receiver_only_builders (self : Expression) (name : string) (ret_type : HailType) :
  _verify_sources self = Ok tt →
  _unary_op self name
  = Ok (mkExpression (UnaryOperation (_ast self) name) (_type self) (_indices self)
          (_aggregations self) (_joins self) (_refs self))
  ∧ _method self name ret_type []
    = Ok (mkExpression (ClassMethod name (_ast self) []) ret_type (_indices self)
            (_aggregations self) (_joins self) (_refs self))
  ∧ _slice self ret_type None None None
    = Ok (mkExpression (Index (_ast self) (Slice None None)) ret_type (_indices self)
            (_aggregations self) (_joins self) (_refs self)).
Proof.
  intros H. split; [|split].
  - by apply construct_expr_same_lineage.
  - unfold _method. cbn. rewrite unify_all_singleton. cbn.
    by apply construct_expr_same_lineage.
  - unfold _slice. cbn. rewrite unify_all_singleton. cbn.
    by apply construct_expr_same_lineage.
Qed.

Lemma receiver_only_builders_witness :
  _unary_op (sample_field 1 "x") "-"
  = Ok (mkExpression (UnaryOperation (Reference "x") "-") tint32
          (mkIndices (Some 1%positive) {["row"]}) [] []
          [("x", mkIndices (Some 1%positive) {["row"]})]).
Proof. exact (proj1 (receiver_only_builders (sample_field 1 "x") "-" tbool eq_refl)). Defined.

Lemma unify_all_pair_mismatch (self other : Expression) (a b : Source) :
  source (_indices self) = Some a → source (_indices other) = Some b → a ≠ b →
  unify_all [self; other]
  = Raise (ExpressionException
             (CannotCombine (group_by_source (chained_refs self ++ chained_refs other)))).
Proof.
  intros Ha Hb Hne. unfold unify_all.
  assert (Indices_unify (map _indices [self; other])
          = Raise (ExpressionException SourceMismatch)) as ->.
  { unfold Indices_unify. simpl. rewrite Ha. simpl. rewrite Hb.
    by rewrite bool_decide_eq_true_2 by congruence. }
  simpl. by rewrite (right_id_L [] (++)).
Qed.

(** X13.  Combining two expressions of different sources is refused whatever
    the operation: a binary operation in either direction and an index raise
    the [ExpressionException] that reports the fields of both operands grouped
    by source; nothing is constructed. *)
Theorem cross_source_refused (self other : Expression) (a b : Source)
    (name : string) (ret_type : HailType) :
  source (_indices self) = Some a → source (_indices other) = Some b → a ≠ b →
  let report := ExpressionException
                  (CannotCombine
                     (group_by_source (chained_refs self ++ chained_refs other))) in
  _bin_op self name (OExpr other) ret_type = Raise report
  ∧ _bin_op_reverse self name (OExpr other) ret_type = Raise report
  ∧ _index self ret_type (OExpr other) = Raise report
  ∧ _method self name ret_type [OExpr other] = Raise report.
Proof.
  intros Ha Hb Hne report. unfold _bin_op, _bin_op_reverse, _index, _method. simpl.
  by rewrite (unify_all_pair_mismatch self other a b Ha Hb Hne).
Qed.

Lemma cross_source_refused_witness :
  _bin_op (sample_field 1 "x") "+" (OExpr (sample_field 2 "y")) tint32
  = Raise (ExpressionException
             (CannotCombine [(Some 1%positive, ["x"]); (Some 2%positive, ["y"])])).
Proof.
  exact (proj1 (cross_source_refused (sample_field 1 "x") (sample_field 2 "y")
                  1%positive 2%positive "+" tint32 eq_refl eq_refl ltac:(discriminate))).
Defined.

(** X14.  [_bin_op_reverse] is [_bin_op] with the two operands exchanged in
    the AST and nothing else changed: when one returns, the other returns the
    same type and lineage around the mirrored operation, and when one raises,
    the other raises the same exception. *)
Theorem bin_op_reverse_mirrors (self : Expression) (name : string) (other : operand)
    (ret_type : HailType) :
  (∀ e, _bin_op self name other ret_type = Ok e →
     ∃ rhs, _ast e = BinaryOperation (_ast self) rhs name
            ∧ _bin_op_reverse self name other ret_type
              = Ok (mkExpression (BinaryOperation rhs (_ast self) name) (_type e)
                      (_indices e) (_aggregations e) (_joins e) (_refs e)))
  ∧ (∀ err, _bin_op self name other ret_type = Raise err →
       _bin_op_reverse self name other ret_type = Raise err).
Proof.
  unfold _bin_op, _bin_op_reverse.
  destruct (to_expr other) as [o|err0]; simpl; [|done].
  destruct (unify_all [self; o]) as [[[[indices aggregations] joins] refs]|err0];
    simpl; [|done].
  rewrite (construct_expr_swap (BinaryOperation (_ast self) (_ast o) name)
             (BinaryOperation (_ast o) (_ast self) name) ret_type ret_type indices
             aggregations aggregations joins joins refs).
  destruct (construct_expr (BinaryOperation (_ast self) (_ast o) name) _ _ _ _ _)
    as [e0|err0] eqn:Hc; [|done].
  apply construct_expr_ok in Hc as [-> _]. split; [|done].
  intros e [= <-]. by exists (_ast o).
Qed.

Lemma bin_op_reverse_mirrors_witness :
  ∃ rhs, BinaryOperation (Reference "x") (Literal (PyInt 2)) "-"
         = BinaryOperation (_ast (sample_field 1 "x")) rhs "-"
         ∧ _bin_op_reverse (sample_field 1 "x") "-" (ONative (PyInt 2)) tint32
           = Ok (mkExpression (BinaryOperation rhs (_ast (sample_field 1 "x")) "-") tint32
                   (mkIndices (Some 1%positive) (∅ ∪ {["row"]} ∪ ∅)) [] []
                   [("x", mkIndices (Some 1%positive) {["row"]})]).
Proof.
  exact (proj1 (bin_op_reverse_mirrors (sample_field 1 "x") "-" (ONative (PyInt 2)) tint32)
           _ eq_refl).
Defined.

(** X15.  A binary operation on two expressions that agree on their source
    (the same source, or none on one side) and whose refs name that source
    always returns: the result has the type asked for, the first non-null
    source of the two, the union of their axes, and the aggregations, joins
    and refs of the second operand pushed onto those of the receiver. *)
Theorem bin_op_same_source (self other : Expression) (name : string)
    (ret_type : HailType) :
  grounded self = true → grounded other = true →
  sources_agree [_indices self; _indices other] = true →
  ∃ e, _bin_op self name (OExpr other) ret_type = Ok e
       ∧ _ast e = BinaryOperation (_ast self) (_ast other) name
       ∧ _type e = ret_type
       ∧ source (_indices e) = first_source [_indices self; _indices other]
       ∧ axes (_indices e) = axes (_indices self) ∪ axes (_indices other)
       ∧ _aggregations e = reverse (_aggregations other) ++ _aggregations self
       ∧ _joins e = reverse (_joins other) ++ _joins self
       ∧ _refs e = reverse (_refs other) ++ _refs self.
Proof.
  intros Hself Hother Hagr.
  pose proof (returns_unify_all [self; other]) as Hret.
  unfold _bin_op. cbn. unfold unify_all in *.
  change (map _indices [self; other]) with [_indices self; _indices other] in *.
  rewrite Indices_unify_spec, Hagr in *. cbn in *. rewrite !push_reverse in *.
  assert (grounded
            (mkExpression (BinaryOperation (_ast self) (_ast other) name) ret_type
               (mkIndices (first_source [_indices self; _indices other])
                  (axes (_indices self) ∪ (axes (_indices other) ∪ ∅)))
               (reverse (_aggregations other) ++ _aggregations self)
               (reverse (_joins other) ++ _joins self)
               (reverse (_refs other) ++ _refs self)) = true) as Hg.
  { apply grounded_spec. apply Hret. by repeat constructor. }
  rewrite (construct_expr_grounded _ _ _ _ _ _ Hg). eexists. split; [done|].
  cbn. repeat split. by rewrite (right_id_L ∅ (∪)).
Qed.

Lemma bin_op_same_source_witness :
  ∃ e, _bin_op (sample_field 1 "x") "+" (OExpr (sample_field 1 "y")) tint32 = Ok e
       ∧ _ast e = BinaryOperation (Reference "x") (Reference "y") "+"
       ∧ _type e = tint32
       ∧ source (_indices e) = Some 1%positive
       ∧ axes (_indices e) = {["row"]} ∪ {["row"]}
       ∧ _aggregations e = []
       ∧ _joins e = []
       ∧ _refs e = [("y", mkIndices (Some 1%positive) {["row"]});
                    ("x", mkIndices (Some 1%positive) {["row"]})].
Proof.
  exact (bin_op_same_source (sample_field 1 "x") (sample_field 1 "y") "+" tint32
           eq_refl eq_refl eq_refl).
Defined.

Lemma mapM_to_expr_OExpr (xs : list Expression) : mapM to_expr (map OExpr xs) = Ok xs.
Proof. induction xs as [|x xs IH]; [done|]. cbn. fold (mapM to_expr). by rewrite IH. Qed.

(** X16.  The further arguments of a lambda-bodied method enter the AST only:
    their lineage is not unified with the receiver's.  With any expressions
    as arguments, of whatever source, the method returns exactly when it
    returns without arguments, with the same type, indices, aggregations,
    joins and refs, raises the same exception when it raises, and leaves the
    same identifier counter. *)
Theorem lambda_args_not_unified (self : Expression) (name : string) (f : Callback)
    (input_type : HailType) (ret_type_f : HailType → HailType) (xs : list Expression)
    (env : Env) :
  let r0 := _bin_lambda_method self name f input_type ret_type_f [] env in
  let r := _bin_lambda_method self name f input_type ret_type_f (map OExpr xs) env in
  r.2 = r0.2
  ∧ (∀ e, r0.1 = Ok e →
       ∃ e', r.1 = Ok e' ∧ _type e' = _type e ∧ _indices e' = _indices e
             ∧ _aggregations e' = _aggregations e ∧ _joins e' = _joins e
             ∧ _refs e' = _refs e)
  ∧ (∀ err, r0.1 = Raise err → r.1 = Raise err).
Proof.
  unfold _bin_lambda_method. cbn.
  destruct (construct_expr (Reference _) input_type _ _ _ _) as [x|err0]; cbn; [|done].
  destruct (f x (S env)) as [[body|err0] env2]; cbn; [|done].
  destruct (to_expr body) as [lambda_result|err0]; cbn; [|done].
  destruct (unify_all [self; lambda_result])
    as [[[[indices aggregations] joins] refs]|err0]; cbn; [|done].
  rewrite (mapM_to_expr_OExpr xs). cbn.
  rewrite (construct_expr_swap
             (LambdaClassMethod name ("__uid_" +:+ pretty env) (_ast self)
                (_ast lambda_result) [])
             (LambdaClassMethod name ("__uid_" +:+ pretty env) (_ast self)
                (_ast lambda_result) (map _ast xs))
             (ret_type_f (_type lambda_result)) (ret_type_f (_type lambda_result))
             indices aggregations aggregations joins joins refs).
  destruct (construct_expr _ _ _ _ _ _) as [e0|err0] eqn:Hc; [|done].
  apply construct_expr_ok in Hc as [-> _]. split; [done|]. split; [|done].
  intros e [= <-]. eexists. split; [done|]. done.
Qed.

Lemma lambda_args_not_unified_witness :
  ∃ e', (_bin_lambda_method (sample_field 1 "x") "map" identity_callback tint32 tarray
           (map OExpr [sample_field 2 "y"]) 0%nat).1 = Ok e'
        ∧ _type e' = tarray tint32
        ∧ _indices e' = mkIndices (Some 1%positive) (∅ ∪ {["row"]} ∪ {["row"]})
        ∧ _aggregations e' = [] ∧ _joins e' = []
        ∧ _refs e' = [("x", mkIndices (Some 1%positive) {["row"]});
                      ("x", mkIndices (Some 1%positive) {["row"]})].
Proof.
  exact (proj1 (proj2 (lambda_args_not_unified (sample_field 1 "x") "map" identity_callback
                         tint32 tarray [sample_field 2 "y"] 0%nat)) _ eq_refl).
Defined.

(** X17.  A method call whose arguments are expressions that agree with the
    receiver on the source, all with refs that name it, always returns: the
    result has the type asked for, the first non-null source, the union of
    all axes, and the aggregations, joins and refs of the arguments pushed in
    turn onto those of the receiver. *)
Theorem method_same_source (self : Expression) (name : string) (ret_type : HailType)
    (xs : list Expression) :
  grounded self = true → Forall (λ x, grounded x = true) xs →
  sources_agree (map _indices (self :: xs)) = true →
  ∃ e, _method self name ret_type (map OExpr xs) = Ok e
       ∧ _ast e = ClassMethod name (_ast self) (map _ast xs)
       ∧ _type e = ret_type
       ∧ source (_indices e) = first_source (map _indices (self :: xs))
       ∧ axes (_indices e) = ⋃ (axes <$> map _indices (self :: xs))
       ∧ _aggregations e = reverse (concat (map _aggregations xs)) ++ _aggregations self
       ∧ _joins e = reverse (concat (map _joins xs)) ++ _joins self
       ∧ _refs e = reverse (concat (map _refs xs)) ++ _refs self.
Proof.
  intros Hself Hxs Hagr.
  pose proof (returns_unify_all (self :: xs)) as Hret.
  unfold _method. rewrite mapM_to_expr_OExpr. cbn [bind]. unfold unify_all in *.
  rewrite Indices_unify_spec, Hagr, push_all_reverse in *. cbn [bind].
  assert (grounded
            (mkExpression (ClassMethod name (_ast self) (map _ast xs)) ret_type
               (mkIndices (first_source (map _indices (self :: xs)))
                  (⋃ (axes <$> map _indices (self :: xs))))
               (reverse (concat (map _aggregations xs)) ++ _aggregations self)
               (reverse (concat (map _joins xs)) ++ _joins self)
               (reverse (concat (map _refs xs)) ++ _refs self)) = true) as Hg.
  { apply grounded_spec. apply Hret. by constructor. }
  rewrite (construct_expr_grounded _ _ _ _ _ _ Hg). eexists. split; [done|]. done.
Qed.

Lemma method_same_source_witness :
  ∃ e, _method (sample_field 1 "x") "f" tstr
         (map OExpr [sample_field 1 "y"; sample_literal]) = Ok e
       ∧ _ast e = ClassMethod "f" (Reference "x") [Reference "y"; Literal (PyInt 1)]
       ∧ _type e = tstr
       ∧ source (_indices e) = Some 1%positive
       ∧ axes (_indices e) = {["row"]} ∪ ({["row"]} ∪ (∅ ∪ ∅))
       ∧ _aggregations e = []
       ∧ _joins e = []
       ∧ _refs e = [("y", mkIndices (Some 1%positive) {["row"]});
                    ("x", mkIndices (Some 1%positive) {["row"]})].
Proof.
  exact (method_same_source (sample_field 1 "x") "f" tstr [sample_field 1 "y"; sample_literal]
           eq_refl ltac:(by repeat constructor) eq_refl).
Defined.

(** ** Equality and inequality *)

Lemma unify_types_numeric_pair (t u : HailType) :
  is_numeric t = true → is_numeric u = true → ∃ r, unify_types [t; u] = Ok (Some r).
Proof. destruct t; try done; destruct u; try done; intros _ _; by eexists. Qed.

Lemma unify_types_same (t : HailType) : unify_types [t; t] = Ok (Some t).
Proof.
  unfold unify_types. rewrite unify_types_limited_eq_spec by done.
  unfold unify_types_limited_spec. simpl.
  by rewrite (bool_decide_eq_true_2 _ (eq_refl t)).
Qed.

(** X18.  [==] and [!=] are gated by the types alone: operands of the same
    type, and operands of any two numeric types, always pass to the binary
    operation with result type boolean; operands whose types do not unify
    raise the [TypeError], before the sources are compared, so that even two
    expressions of different sources get the type error; and whatever [==]
    returns has type boolean. *)
Theorem eq_ne_type_gate (self : Expression) (other : operand) (o : Expression) :
  to_expr other = Ok o →
  ((_type o = _type self ∨ (is_numeric (_type self) = true ∧ is_numeric (_type o) = true)) →
     __eq__ self other = _bin_op self "==" (OExpr o) tbool
     ∧ __ne__ self other = _bin_op self "!=" (OExpr o) tbool)
  ∧ (unify_types [_type self; _type o] = Ok None →
       __eq__ self other
       = Raise (TypeError (invalid_comparison "==" (_type self) (_type o)))
       ∧ __ne__ self other
         = Raise (TypeError (invalid_comparison "!=" (_type self) (_type o))))
  ∧ (∀ e, __eq__ self other = Ok e ∨ __ne__ self other = Ok e →
       _type e = tbool ∧ ∃ t, unify_types [_type self; _type o] = Ok (Some t)).
Proof.
  intros Ho. unfold __eq__, __ne__. rewrite Ho. cbn [bind]. split; [|split].
  - intros [Hsame | [Hn1 Hn2]].
    + rewrite Hsame, unify_types_same. done.
    + destruct (unify_types_numeric_pair _ _ Hn1 Hn2) as [r ->]. done.
  - intros ->. done.
  - intros e He.
    destruct (unify_types [_type self; _type o]) as [[t|]|err]; cbn in He;
      [|by destruct He|by destruct He].
    split; [|by exists t]. unfold _bin_op in He. cbn in He.
    destruct (unify_all [self; o]) as [[[[indices aggregations] joins] refs]|err];
      cbn in He; [|by destruct He].
    destruct He as [He|He]; by apply construct_expr_ok in He as [-> _].
Qed.

Lemma eq_ne_type_gate_witness :
  __eq__ (sample_field 1 "x") (ONative (PyFloat 0))
  = _bin_op (sample_field 1 "x") "==" (OExpr (mkExpression (Literal (PyFloat 0)) tfloat64
                                                (mkIndices None ∅) [] [] [])) tbool
  ∧ __eq__ (sample_field 1 "x") (OExpr (mkExpression (Reference "s") tstr
                                           (mkIndices (Some 2%positive) {["row"]}) [] [] []))
    = Raise (TypeError (invalid_comparison "==" tint32 tstr)).
Proof.
  split.
  - exact (proj1 (proj1 (eq_ne_type_gate (sample_field 1 "x") (ONative (PyFloat 0)) _ eq_refl)
                    (or_intror (conj eq_refl eq_refl)))).
  - exact (proj1 (proj1 (proj2 (eq_ne_type_gate (sample_field 1 "x")
                                  (OExpr (mkExpression (Reference "s") tstr
                                            (mkIndices (Some 2%positive) {["row"]}) [] [] []))
                                  _ eq_refl)) eq_refl)).
Defined.

(** ** Materialisation *)

(** X19.  [_to_table] raises in three cases only: the expression carries an
    aggregation ([NotImplementedError], whatever its source and axes); it has
    a source and more than two axes; it has two axes over a table (both
    [AssertionError]).  In every other case it returns a query. *)
Theorem to_table_raises_iff (deref : Source → SourceObject) (self_id : positive)
    (self : Expression) (name : string) (env : Env) :
  (_aggregations self ≠ [] →
     ∃ msg, (_to_table deref self_id self name env).1 = Raise (NotImplementedError msg))
  ∧ (_aggregations self = [] →
       ((_to_table deref self_id self name env).1 = Raise AssertionError
        ↔ ∃ s, source (_indices self) = Some s
               ∧ ((2 < size (axes (_indices self)))%nat
                  ∨ (size (axes (_indices self)) = 2%nat ∧ ∃ key, deref s = Table key)))
       ∧ (∀ e, (_to_table deref self_id self name env).1 = Raise e → e = AssertionError)).
Proof.
  unfold _to_table. split.
  - intros Hagg. destruct (_aggregations self); [done|]. by eexists.
  - intros ->. destruct (source (_indices self)) as [s|].
    2:{ cbn. split; [|done]. split; [done|]. by intros (s & ? & _). }
    destruct (Nat.eqb_spec (size (axes (_indices self))) 0) as [H0|H0].
    { cbn. split; [|done]. split; [done|]. intros (s' & _ & [?|[? _]]); lia. }
    destruct (Nat.eqb_spec (size (axes (_indices self))) 1) as [H1|H1].
    { split.
      - split.
        + destruct (deref s) as [key|rk ck ri fi]; [done|].
          destruct (Indices_eq _ _), (fi !! self_id); done.
        + intros (s' & _ & [?|[? _]]); lia.
      - intros e. destruct (deref s) as [key|rk ck ri fi]; [done|].
        destruct (Indices_eq _ _), (fi !! self_id); done. }
    destruct (Nat.eqb_spec (size (axes (_indices self))) 2) as [H2|H2]; cbn.
    + destruct (deref s) as [key|rk ck ri fi] eqn:Hd; cbn.
      * split; [|by intros e [= <-]]. split; [|done]. intros _. exists s.
        split; [done|]. right. split; [done|]. by exists key.
      * split; [|done]. split; [done|].
        intros (s' & [= <-] & [?|[_ [key Hk]]]); [lia | congruence].
    + split; [|by intros e [= <-]]. split; [|done]. intros _. exists s.
      split; [done|]. left. lia.
Qed.

Lemma to_table_raises_iff_witness :
  (∃ msg, (_to_table (λ _, sample_matrix) 7 sample_aggregated "out" 0%nat).1
          = Raise (NotImplementedError msg))
  ∧ (_to_table (λ _, Table ["k"]) 7
       (mkExpression (Reference "e") tint32 (mkIndices (Some 1%positive) {["row"; "col"]})
          [] [] []) "out" 0%nat).1 = Raise AssertionError.
Proof.
  split.
  - exact (proj1 (to_table_raises_iff (λ _, sample_matrix) 7 sample_aggregated "out" 0%nat)
             ltac:(discriminate)).
  - apply (proj2 (proj1 (proj2 (to_table_raises_iff (λ _, Table ["k"]) 7
             (mkExpression (Reference "e") tint32
                (mkIndices (Some 1%positive) {["row"; "col"]}) [] [] []) "out" 0%nat)
             eq_refl))).
    exists 1%positive. split; [reflexivity|]. right. split; [reflexivity|]. by exists ["k"].
Defined.

(** X20.  [_to_table] draws a fresh identifier in one case only: an
    expression without aggregations and without axes that has a source is
    materialised through a global of that name, bound to the expression and
    read back under the same name.  In every other case the identifier counter
    is left as it was. *)
Theorem to_table_fresh_identifier (deref : Source → SourceObject) (self_id : positive)
    (self : Expression) (name : string) (env : Env) :
  (∀ s, _aggregations self = [] → source (_indices self) = Some s →
        axes (_indices self) = ∅ →
        _to_table deref self_id self name env
        = (Ok (select dummy_table []
                 [(name, index_globals_field
                           (select_globals (the_source s)
                              [((_get_uid env).1, bound_expr self)])
                           (_get_uid env).1)]),
           S env))
  ∧ ((_aggregations self ≠ [] ∨ source (_indices self) = None
      ∨ axes (_indices self) ≠ ∅) →
       (_to_table deref self_id self name env).2 = env).
Proof.
  unfold _to_table. split.
  - intros s -> -> ->. done.
  - intros H. destruct (_aggregations self) as [|a l]; [|done].
    destruct (source (_indices self)) as [s|]; [|done].
    destruct H as [?|[?|Hax]]; [done|done|].
    destruct (Nat.eqb_spec (size (axes (_indices self))) 0) as [H0|H0].
    { by apply size_empty_inv, leibniz_equiv in H0. }
    destruct (size (axes (_indices self)) =? 1)%nat.
    { destruct (deref s) as [key|rk ck ri fi]; [done|].
      destruct (Indices_eq _ _), (fi !! self_id); done. }
    destruct (negb _); [done|]. by destruct (deref s).
Qed.

Lemma to_table_fresh_identifier_witness :
  _to_table (λ _, sample_matrix) 7
    (mkExpression (Reference "g") tint32 (mkIndices (Some 1%positive) ∅) [] [] []) "out" 4%nat
  = (Ok (select dummy_table []
           [("out", index_globals_field
                      (select_globals (the_source 1%positive)
                         [("__uid_4", bound_expr
                                        (mkExpression (Reference "g") tint32
                                           (mkIndices (Some 1%positive) ∅) [] [] []))])
                      "__uid_4")]),
     5%nat).
Proof.
  exact (proj1 (to_table_fresh_identifier (λ _, sample_matrix) 7
                  (mkExpression (Reference "g") tint32 (mkIndices (Some 1%positive) ∅) [] [] [])
                  "out" 4%nat) 1%positive eq_refl eq_refl eq_refl).
Defined.

(** X21.  Over one axis of a table, [_to_table] selects the key fields of the
    table other than the output name, in their order, and binds the output
    name to the expression: the name asked for is never among the selected
    key fields, every other key field is kept, and the globals are dropped. *)
Theorem to_table_table_axis (deref : Source → SourceObject) (self_id : positive)
    (self : Expression) (name : string) (env : Env) (s : Source) (key : list string) :
  _aggregations self = [] → source (_indices self) = Some s →
  size (axes (_indices self)) = 1%nat → deref s = Table key →
  ∃ fields,
    _to_table deref self_id self name env
    = (Ok (select_globals (select (the_source s) fields [(name, bound_expr self)]) []), env)
    ∧ (name ∉ fields)
    ∧ (∀ f, f ∈ fields ↔ (f ∈ key ∧ f ≠ name))
    ∧ fields `sublist_of` key
    ∧ (name ∉ key → fields = key).
Proof.
  intros Hagg Hsrc Hax Hd. exists (filter (λ f, f ≠ name) key).
  unfold _to_table. rewrite Hagg, Hsrc, Hax, Hd. cbn. split; [done|].
  split; [|split; [|split]].
  - intros [H _]%list_elem_of_filter. by apply H.
  - intros f. rewrite list_elem_of_filter. tauto.
  - apply sublist_filter.
  - intros Hn. clear Hd. induction key as [|k key IH]; [done|].
    rewrite filter_cons. apply not_elem_of_cons in Hn as [Hk Hn].
    rewrite decide_True by done. by rewrite IH.
Qed.

Lemma to_table_table_axis_witness :
  ∃ fields,
    _to_table (λ _, Table ["id"; "out"; "pos"]) 7 (sample_field 1 "x") "out" 0%nat
    = (Ok (select_globals
             (select (the_source 1%positive) fields
                [("out", bound_expr (sample_field 1 "x"))]) []), 0%nat)
    ∧ "out" ∉ fields.
Proof.
  destruct (to_table_table_axis (λ _, Table ["id"; "out"; "pos"]) 7 (sample_field 1 "x")
              "out" 0%nat 1%positive ["id"; "out"; "pos"] eq_refl eq_refl eq_refl eq_refl)
    as (fields & H1 & H2 & _).
  exists fields. by split.
Defined.

(** X22.  The reuse of a bound field is the only way for [_to_table] to
    return a query that derives no field: a returned query derives nothing
    exactly when the expression has a source and one axis, the source is a
    matrix table, and its reverse lookup knows the expression object. *)
Theorem to_table_derives_unless_reused (deref : Source → SourceObject)
    (self_id : positive) (self : Expression) (name : string) (env : Env) (q : Query) :
  (_to_table deref self_id self name env).1 = Ok q →
  (derives q = false
   ↔ ∃ s rk ck ri fi,
       source (_indices self) = Some s ∧ size (axes (_indices self)) = 1%nat
       ∧ deref s = MatrixTable rk ck ri fi ∧ is_Some (fi !! self_id)).
Proof.
  unfold _to_table. destruct (_aggregations self); [|done].
  destruct (source (_indices self)) as [s|].
  2:{ cbn. intros [= <-]. split; [done|]. by intros (? & ? & ? & ? & ? & ? & _). }
  destruct (Nat.eqb_spec (size (axes (_indices self))) 0) as [H0|H0].
  { cbn. intros [= <-]. split; [done|]. intros (? & ? & ? & ? & ? & _ & ? & _). lia. }
  destruct (Nat.eqb_spec (size (axes (_indices self))) 1) as [H1|H1].
  - destruct (deref s) as [key|rk ck ri fi] eqn:Hd.
    { cbn. intros [= <-]. split; [done|].
      intros (s' & ? & ? & ? & ? & [= <-] & _ & Hd' & _). congruence. }
    destruct (fi !! self_id) as [field_name|] eqn:Hl.
    + assert (∃ s0 rk ck ri fi0, Some s = Some s0 ∧ size (axes (_indices self)) = 1%nat
                ∧ deref s0 = MatrixTable rk ck ri fi0 ∧ is_Some (fi0 !! self_id)) as Hex.
      { exists s, rk, ck, ri, fi. rewrite Hl. by eauto. }
      destruct (Indices_eq _ _); cbn; intros [= <-];
        (split; [intros _; exact Hex | intros _; by case_bool_decide]).
    + destruct (Indices_eq _ _); cbn; intros [= <-]; (split; [done|]);
        intros (s' & ? & ? & ? & fi' & [= <-] & _ & Hd' & Hsome);
        rewrite Hd in Hd'; injection Hd' as <- <- <- <-; rewrite Hl in Hsome;
        by destruct Hsome.
  - destruct (negb _); [done|]. destruct (deref s) as [key|rk ck ri fi]; [done|].
    cbn. intros [= <-]. split; [done|]. intros (? & ? & ? & ? & ? & _ & ? & _). lia.
Qed.

Lemma to_table_derives_unless_reused_witness :
  derives (select_globals
             (rows_of (rename (select_rows (the_source 1%positive) ["locus"; "AC"] [])
                         [("AC", "out")])) []) = false.
Proof.
  apply (proj2 (to_table_derives_unless_reused (λ _, sample_matrix) 7
                  (sample_field 1 "AC") "out" 0%nat _ eq_refl)).
  exists 1%positive, ["locus"], ["s"], (mkIndices (Some 1%positive) {["row"]}),
    (<[7%positive := "AC"]> (<[8%positive := "locus"]> ∅)).
  repeat split. by exists "AC".
Defined.

(** ** Rendering *)

Lemma closes_paren : closes ")".
Proof. by exists EmptyString. Qed.

Lemma closes_append (a b : string) : closes b → closes (a +:+ b).
Proof.
  intros [body ->]. exists (a +:+ body).
  induction a as [|c a IH]; [done|].
  change (String c (a +:+ (body +:+ ")")) = String c ((a +:+ body) +:+ ")")).
  by rewrite IH.
Qed.

Ltac closes_tac := repeat apply closes_append; apply closes_paren.

(** X23.  Every matrix node renders as one parenthesised group headed by its
    node name: the text starts with an opening parenthesis, the name and a
    space, and ends with a closing parenthesis.  The four readers (native,
    range, VCF, BGEN) all render under the one name [MatrixRead]. *)
Theorem render_parenthesised (add_jir : positive → string) (x : BaseIR) (name : string) :
  node_name x = Some name →
  (∃ body, render add_jir x = "(" +:+ name +:+ " " +:+ body)
  ∧ closes (render add_jir x).
Proof.
  destruct x; cbn [node_name]; intros [= <-]; cbn [render].
  all: try (split; [by eexists | closes_tac]).
  destruct key; (split; [by eexists | closes_tac]).
Qed.

Lemma render_parenthesised_witness :
  (∃ body, render (λ _, "m0") (MatrixRange 3 4 5) = "(" +:+ "MatrixRead" +:+ " " +:+ body)
  ∧ closes (render (λ _, "m0") (MatrixRange 3 4 5)).
Proof. exact (render_parenthesised (λ _, "m0") (MatrixRange 3 4 5) "MatrixRead" eq_refl). Defined.

Lemma json_escape_char_plain (c : ascii) :
  plain_char c = true → json_escape_char c = String c EmptyString.
Proof. destruct c as [[] [] [] [] [] [] [] []]; vm_compute; done. Qed.

Lemma escape_char_plain (c : ascii) :
  plain_char c = true → escape_char quote_char c = String c EmptyString.
Proof. destruct c as [[] [] [] [] [] [] [] []]; vm_compute; done. Qed.

Lemma json_escape_plain (s : string) : plain_text s = true → json_escape s = s.
Proof.
  induction s as [|c s IH]; [done|]. simpl.
  intros [Hc Hs]%andb_true_iff. by rewrite (json_escape_char_plain c Hc), (IH Hs).
Qed.

Lemma escape_str_plain (s : string) : plain_text s = true → escape_str s = s.
Proof.
  unfold escape_str. induction s as [|c s IH]; [done|]. simpl.
  intros [Hc Hs]%andb_true_iff. by rewrite (escape_char_plain c Hc), (IH Hs).
Qed.

Lemma string_app_assoc (a b c : string) : (a +:+ b) +:+ c = a +:+ (b +:+ c).
Proof.
  induction a as [|x a IH]; [done|].
  change (String x ((a +:+ b) +:+ c) = String x (a +:+ (b +:+ c))). by rewrite IH.
Qed.

Lemma escape_with_app (delim : ascii) (a b : string) :
  escape_with delim (a +:+ b) = escape_with delim a +:+ escape_with delim b.
Proof.
  induction a as [|c a IH]; [done|].
  change (escape_char delim c +:+ escape_with delim (a +:+ b)
          = (escape_char delim c +:+ escape_with delim a) +:+ escape_with delim b).
  by rewrite IH, string_app_assoc.
Qed.

Lemma escape_str_quoted_plain (p : string) :
  plain_text p = true → escape_str (quoted p) = inner_quoted p.
Proof.
  intros Hp. unfold escape_str, quoted, inner_quoted.
  change (escape_with quote_char (String quote_char (p +:+ String quote_char EmptyString)))
    with (String backslash_char
            (String quote_char (escape_with quote_char (p +:+ String quote_char EmptyString)))).
  rewrite escape_with_app. fold (escape_str p). by rewrite (escape_str_plain p Hp).
Qed.

Lemma escape_str_surround (a b p : string) :
  plain_text p = true →
  escape_str (a +:+ quoted p +:+ b) = escape_str a +:+ inner_quoted p +:+ escape_str b.
Proof.
  intros Hp. rewrite <-(escape_str_quoted_plain p Hp). unfold escape_str.
  by rewrite !escape_with_app.
Qed.

Lemma plain_text_pretty_N_go (x : N) (s : string) :
  plain_text s = true → plain_text (pretty_N_go x s) = true.
Proof.
  revert s. induction (N.lt_wf_0 x) as [x _ IH]; intros s Hs.
  assert (x = 0 ∨ 0 < x)%N as [->|Hx] by lia; [by rewrite pretty_N_go_0|].
  rewrite pretty_N_go_step by done. apply IH; [by apply N.div_lt|].
  simpl. rewrite Hs, andb_true_r. unfold pretty_N_char. by repeat case_match.
Qed.

Lemma plain_text_pretty (n : Z) : plain_text (pretty n) = true.
Proof.
  assert (∀ p : positive, plain_text (pretty p) = true) as Hpos.
  { intros p. unfold pretty, pretty_positive, pretty, pretty_N.
    rewrite decide_False by done. by apply plain_text_pretty_N_go. }
  destruct n as [|p|p]; [done | apply Hpos |].
  change (plain_text (String "-" (pretty p)) = true). simpl. by rewrite Hpos.
Qed.

(** X24.  What each of the four readers renders, from its fields.  The
    native reader renders [(MatrixRead None <drop columns> <drop rows>
    "<configuration>")], the configuration being [escape_str] of the JSON text
    of its name and its path; for a path of printable characters without
    quote and backslash this is the text of the two entries with each of
    their quotes behind a backslash, and a quote in the path is escaped
    twice, once by JSON and once by [escape_str].  The range reader renders
    [False False] and its three numbers in decimal.  The VCF reader can drop
    columns and never rows, and the BGEN reader drops nothing; their
    configurations hold the fields below, and the entry fields and the row
    fields of a BGEN import do not reach the rendering. *)
Theorem render_readers (add_jir : positive → string) :
  (∀ path drop_cols drop_rows,
     render add_jir (MatrixRead path drop_cols drop_rows)
     = "(MatrixRead None " +:+ bool_str drop_cols +:+ " " +:+ bool_str drop_rows +:+ " "
         +:+ quoted (escape_str (json_dumps (JDict [("name", JString "MatrixNativeReader");
                                                    ("path", JString path)])))
         +:+ ")")
  ∧ (∀ path drop_cols drop_rows, plain_text path = true →
       render add_jir (MatrixRead path drop_cols drop_rows)
       = "(MatrixRead None " +:+ bool_str drop_cols +:+ " " +:+ bool_str drop_rows +:+ " "
           +:+ quoted ("{" +:+ inner_quoted "name" +:+ ": "
                         +:+ inner_quoted "MatrixNativeReader" +:+ ", "
                         +:+ inner_quoted "path" +:+ ": " +:+ inner_quoted path +:+ "}")
           +:+ ")")
  ∧ render add_jir (MatrixRead root_with_quote false false)
    = "(MatrixRead None False False "
        +:+ quoted ("{" +:+ inner_quoted "name" +:+ ": "
                      +:+ inner_quoted "MatrixNativeReader" +:+ ", "
                      +:+ inner_quoted "path" +:+ ": "
                      +:+ inner_quoted
                            (String "a"
                               (String backslash_char
                                  (String backslash_char
                                     (String backslash_char (String quote_char "b")))))
                      +:+ "}")
        +:+ ")"
  ∧ (∀ n_rows n_cols n_partitions,
       render add_jir (MatrixRange n_rows n_cols n_partitions)
       = "(MatrixRead None False False "
           +:+ quoted ("{" +:+ inner_quoted "name" +:+ ": "
                         +:+ inner_quoted "MatrixRangeReader" +:+ ", "
                         +:+ inner_quoted "nRows" +:+ ": " +:+ pretty n_rows +:+ ", "
                         +:+ inner_quoted "nCols" +:+ ": " +:+ pretty n_cols +:+ ", "
                         +:+ inner_quoted "nPartitions" +:+ ": " +:+ pretty n_partitions
                         +:+ "}")
           +:+ ")")
  ∧ (∀ paths force force_bgz header_file min_partitions drop_samples call_fields
       reference_genome contig_recoding array_elements_required skip_invalid_loci,
       render add_jir
         (MatrixImportVCF paths force force_bgz header_file min_partitions
            drop_samples call_fields reference_genome contig_recoding
            array_elements_required skip_invalid_loci)
       = "(MatrixRead None " +:+ bool_str drop_samples +:+ " False "
           +:+ quoted
                 (escape_str
                    (json_dumps
                       (JDict [("name", JString "MatrixVCFReader");
                               ("files", JList (map JString paths));
                               ("callFields", JList (map JString call_fields));
                               ("headerFile", json_opt JString header_file);
                               ("minPartitions", json_opt JInt min_partitions);
                               ("rg", json_opt JString reference_genome);
                               ("contigRecoding",
                                json_opt (λ d, JDict (map (λ kv, (kv.1, JString kv.2)) d))
                                  contig_recoding);
                               ("arrayElementsRequired", JBool array_elements_required);
                               ("skipInvalidLoci", JBool skip_invalid_loci);
                               ("gzAsBGZ", JBool force_bgz);
                               ("forceGZ", JBool force)])))
           +:+ ")")
  ∧ (∀ paths entry_fields sample_file n_partitions block_size reference_genome
       contig_recoding skip_invalid_loci row_fields variants_per_file,
       render add_jir
         (MatrixImportBGEN paths entry_fields sample_file n_partitions block_size
            reference_genome contig_recoding skip_invalid_loci row_fields
            variants_per_file)
       = "(MatrixRead None False False "
           +:+ quoted
                 (escape_str
                    (json_dumps
                       (JDict [("name", JString "MatrixBGENReader");
                               ("files", JList (map JString paths));
                               ("sampleFile", json_opt JString sample_file);
                               ("nPartitions", json_opt JInt n_partitions);
                               ("blockSizeInMB", json_opt JInt block_size);
                               ("rg", json_opt JString reference_genome);
                               ("contigRecoding",
                                json_opt (λ d, JDict (map (λ kv, (kv.1, JString kv.2)) d))
                                  contig_recoding);
                               ("skipInvalidLoci", JBool skip_invalid_loci);
                               ("includedVariantsPerUnresolvedFilePath",
                                JDict (map (λ kv, (kv.1, JList (map JInt kv.2)))
                                         variants_per_file))])))
           +:+ ")")
  ∧ (∀ paths entry_fields entry_fields' sample_file n_partitions block_size
       reference_genome contig_recoding skip_invalid_loci row_fields row_fields'
       variants_per_file,
       render add_jir
         (MatrixImportBGEN paths entry_fields sample_file n_partitions block_size
            reference_genome contig_recoding skip_invalid_loci row_fields
            variants_per_file)
       = render add_jir
           (MatrixImportBGEN paths entry_fields' sample_file n_partitions block_size
              reference_genome contig_recoding skip_invalid_loci row_fields'
              variants_per_file)).
Proof.
  split; [reflexivity|]. split; [|split; [reflexivity|]].
  2: split; [|repeat split; reflexivity].
  - intros path drop_cols drop_rows Hp.
    change (render add_jir (MatrixRead path drop_cols drop_rows))
      with ("(MatrixRead None " +:+ bool_str drop_cols +:+ " " +:+ bool_str drop_rows
              +:+ " "
              +:+ quoted (escape_str (("{" +:+ json_string "name" +:+ ": "
                                         +:+ json_string "MatrixNativeReader" +:+ ", "
                                         +:+ json_string "path" +:+ ": ")
                                        +:+ quoted (json_escape path) +:+ "}"))
              +:+ ")").
    by rewrite (json_escape_plain path Hp), (escape_str_surround _ _ path Hp).
  - intros n_rows n_cols n_partitions.
    cbn [render]. unfold config_literal. do 2 f_equal.
    cbn [json_dumps map join String.concat fst snd].
    rewrite !string_app_assoc. unfold escape_str. rewrite !escape_with_app.
    fold (escape_str (pretty n_rows)). fold (escape_str (pretty n_cols)).
    fold (escape_str (pretty n_partitions)).
    rewrite (escape_str_plain (pretty n_rows)), (escape_str_plain (pretty n_cols)),
      (escape_str_plain (pretty n_partitions)) by apply plain_text_pretty.
    reflexivity.
Qed.

(** The native reader of the path [data.mt] that drops the rows. *)
Lemma render_readers_witness :
  render (λ _, "m0") (MatrixRead "data.mt" false true)
  = "(MatrixRead None False True "
      +:+ quoted ("{" +:+ inner_quoted "name" +:+ ": "
                    +:+ inner_quoted "MatrixNativeReader" +:+ ", "
                    +:+ inner_quoted "path" +:+ ": " +:+ inner_quoted "data.mt" +:+ "}")
      +:+ ")".
Proof.
  exact (proj1 (proj2 (render_readers (λ _, "m0"))) "data.mt" false true eq_refl).
Defined.
